(** * A regex -> AST -> NFA -> DFA pipeline and a maximal-munch lexer

    Shallow embedding of the Python sources

      - [pa3/helper_functions.py]  (tokenize, insert_concat)
      - [pa3/tree.py]              (Node, SimpleNFA, Thompson construction)
      - [pa3/regex.py]             (shunting-yard parser, RegEx)
      - [pa4/nfa.py]               (NFA, epsilon closure, subset construction)
      - [pa3/dfa.py]               (DFA, description-file reader, simulate)
      - [pa4/lexer.py]             (TokenValue, Lex)

    Python values are modelled as follows.
      - A [str] is a list of Unicode code points ([pystr]); a character is
        a one-element string, as in Python.
      - A [dict] used as a map is a [gmap]; a [dict] whose values are all
        [None] (the sources use those as sets) and a [frozenset] are a
        [gset].  A dict that is iterated for its order is an association
        list.
      - Python [int] is [Z].
      - A Python list used as a stack keeps its top at the head.
      - A computation that can raise returns in [res]; [while] loops whose
        termination is not structural take a fuel argument and return
        [NoFuel] when it runs out.
      - The one recursive function, [depth_first_recursive], takes the
        number of nested calls the interpreter still allows and raises
        [RecursionError] beyond it. *)

From stdpp Require Import gmap list fin_maps fin_sets relations.
From Stdlib Require Import ZArith NArith Lia.
From Stdlib Require String Ascii.
Import String.StringSyntax.
Delimit Scope string_scope with string.

Local Open Scope Z_scope.

(* ================================================================== *)
(** * Python strings, exceptions, results *)
(* ================================================================== *)

(** A Python [str]: the list of its code points. *)
Abbreviation pystr := (list N).

(** The code points of an ASCII literal. *)
Definition py (s : String.string) : pystr :=
  List.map Ascii.N_of_ascii (String.list_ascii_of_string s).
Arguments py s%_string.

(** [x in y] for two strings: [x] occurs in [y] as a substring. *)
Fixpoint str_prefix (x y : pystr) : bool :=
  match x, y with
  | [], _ => true
  | a :: x', b :: y' => bool_decide (a = b) && str_prefix x' y'
  | _ :: _, [] => false
  end.

Fixpoint str_in (x y : pystr) : bool :=
  str_prefix x y ||
  match y with
  | [] => false
  | _ :: y' => str_in x y'
  end.

(** [x in l] for a list of strings. *)
Definition mem (x : pystr) (l : list pystr) : bool := bool_decide (x ∈ l).

(** [s.replace(c, '')] for a one-character [c]. *)
Definition remove_char (c : N) (s : pystr) : pystr :=
  List.filter (λ d, negb (bool_decide (d = c))) s.

(** ** String methods used by [regex.py] *)

(** The double quote. *)
Definition ch_dquote : N := 34.

(** [s.find(c)] for a one-character [c]: the lowest index, or -1. *)
Fixpoint find (c : N) (s : pystr) : Z :=
  match s with
  | [] => -1
  | d :: rest =>
      if bool_decide (d = c) then 0
      else let r := find c rest in if bool_decide (r = -1) then -1 else r + 1
  end.

(** [s.rfind(c)]: the highest index, or -1. *)
Fixpoint rfind (c : N) (s : pystr) : Z :=
  match s with
  | [] => -1
  | d :: rest =>
      let r := rfind c rest in
      if bool_decide (r = -1) then (if bool_decide (d = c) then 0 else -1)
      else r + 1
  end.

(** [s[a:b]]: a negative index counts from the end, and both are
    clipped to the string. *)
Definition slice (s : pystr) (a b : Z) : pystr :=
  let n := Z.of_nat (length s) in
  let clip i := if bool_decide (i < 0) then Z.max (i + n) 0 else Z.min i n in
  take (Z.to_nat (clip b - clip a)) (drop (Z.to_nat (clip a)) s).

(** The exceptions the sources raise or let escape. *)
Inductive exn :=
| InvalidExpression   (* regex.py *)
| FileFormatError     (* dfa.py *)
| InvalidToken        (* lexer.py *)
| EOFError
| IndexError
| KeyError
| ValueError
| TypeError
| RecursionError      (* the recursion limit of the interpreter *)
| ReError.            (* re.error, from re.compile *)

Inductive res (A : Type) :=
| Ok (a : A)
| Raise (e : exn)
| NoFuel.
Arguments Ok {A} a.
Arguments Raise {A} e.
Arguments NoFuel {A}.

#[global] Instance res_ret : MRet res := λ A a, Ok a.
#[global] Instance res_bind : MBind res := λ A B f m,
  match m with
  | Ok a => f a
  | Raise e => Raise e
  | NoFuel => NoFuel
  end.

(** [d[k]] on a dict: [KeyError] when the key is missing. *)
Definition getitem `{Countable K} {V} (d : gmap K V) (k : K) : res V :=
  match d !! k with
  | Some v => Ok v
  | None => Raise KeyError
  end.

(** Code points used as literals by the sources. *)
Definition ch_space : N := 32.
Definition ch_quote : N := 39.      (* the single quote *)
Definition ch_newline : N := 10.
Definition ch_backslash : N := 92.
Definition s_lparen : pystr := py "(".
Definition s_rparen : pystr := py ")".
Definition s_star : pystr := py "*".
Definition s_bar : pystr := py "|".
Definition s_e : pystr := py "e".
Definition s_N : pystr := py "N".

(** The concatenation marker of [regex.py] and [helper_functions.py]:
    the one-character string U+2218 (bytes E2 88 98 in both files). *)
Definition s_concat : pystr := [8728%N].

(** The literal [depth_first_recursive] compares against in [tree.py],
    line 235.  The file holds the bytes C3 A2 CB 86 CB 9C there, which
    Python reads as the three characters U+00E2 U+02C6 U+02DC. *)
Definition s_concat_tree : pystr := [226%N; 710%N; 732%N].

(* ================================================================== *)
(** * pa3/helper_functions.py *)
(* ================================================================== *)

Module helper_functions.

Definition special_symbols : list pystr := [s_lparen; s_rparen; s_star; s_bar].

(** [len(t) > 1 or (t in alphabet and t not in special_symbols)] *)
Definition is_literal (alphabet : list pystr) (t : pystr) : bool :=
  bool_decide (1 < length t)%nat
  || (mem t alphabet && negb (mem t special_symbols)).

(** The test the three branches of [insert_concat] apply to [next_token]. *)
Definition starts_operand (alphabet : list pystr) (next_token : pystr) : bool :=
  is_literal alphabet next_token || bool_decide (next_token = s_lparen).

Definition concat_after (alphabet : list pystr) (token next_token : pystr) : bool :=
  if is_literal alphabet token then starts_operand alphabet next_token
  else if bool_decide (token = s_rparen) then starts_operand alphabet next_token
  else if bool_decide (token = s_star) then starts_operand alphabet next_token
  else false.

Fixpoint insert_concat (tokens : list pystr) (alphabet : list pystr) : list pystr :=
  match tokens with
  | [] => []
  | token :: rest =>
      token ::
      match rest with
      | next_token :: _ =>
          if concat_after alphabet token next_token
          then s_concat :: insert_concat rest alphabet
          else insert_concat rest alphabet
      | [] => insert_concat rest alphabet
      end
  end.

(** The characters of the last character class of [token_pattern]:
    [''.join(re.escape(char) for char in alphabet if char not in 'eN|*()')]. *)
Definition alphabet_class (alphabet : list pystr) : list N :=
  concat (List.filter (λ char, negb (str_in char (py "eN|*()"))) alphabet).

(** [token_regex.findall]: at each position the alternatives of
    [token_pattern] are tried in order: a backslash followed by one of
    [N | ( ) *]; two backslashes; one of [e N | * ( )]; one character of
    the alphabet class.  A position where none matches is skipped.
    [skip] is set while the second character of a two-character match
    is passed over. *)
Fixpoint findall (cls : list N) (s : pystr) (skip : bool) : list pystr :=
  match s with
  | [] => []
  | c :: rest =>
      if skip then findall cls rest false
      else
        let single :=
          if bool_decide (c ∈ py "eN|*()") || bool_decide (c ∈ cls)
          then [c] :: findall cls rest false
          else findall cls rest false in
        match rest with
        | d :: _ =>
            if bool_decide (c = ch_backslash) &&
               (bool_decide (d ∈ py "N|()*") || bool_decide (d = ch_backslash))
            then [c; d] :: findall cls rest true
            else single
        | [] => single
        end
  end.

(** [re.compile] rejects the pattern when the alphabet class is empty
    (the pattern then ends in [[]], an unterminated character set). *)
Definition tokenize (expression : pystr) (alphabet : list pystr) : res (list pystr) :=
  let cls := alphabet_class alphabet in
  match cls with
  | [] => Raise ReError
  | _ => Ok (findall cls expression false)
  end.

End helper_functions.

(* ================================================================== *)
(** * pa3/tree.py *)
(* ================================================================== *)

Module tree.

(** [Node]: [type] is 0 for an operand and 1 for an operator. *)
#[local] Unset Elimination Schemes.
Inductive Node :=
| mkNode (value : pystr) (children : list Node) (type : Z) (is_symbol : bool).

#[local] Set Elimination Schemes.

Definition value (n : Node) : pystr := let 'mkNode v _ _ _ := n in v.
Definition children (n : Node) : list Node := let 'mkNode _ c _ _ := n in c.
Definition type (n : Node) : Z := let 'mkNode _ _ t _ := n in t.
Definition is_symbol (n : Node) : bool := let 'mkNode _ _ _ b := n in b.

(** [Node.add_child]: an empty child list is replaced by a fresh
    one-element list, so the shared default [[]] is never mutated. *)
Definition add_child (n : Node) (child : Node) (insert : bool) : Node :=
  let 'mkNode v cs t b := n in
  match cs with
  | [] => mkNode v [child] t b
  | _ => if insert then mkNode v (child :: cs) t b
         else mkNode v (cs ++ [child]) t b
  end.

Record SimpleNFA := mkSimpleNFA {
  transition_function : gmap Z (gmap pystr (gset Z));
  accept_states : list Z;
  start_state : Z;
  last_state : Z
}.

Definition epsilon_node_to_nfa (last_state : Z) : SimpleNFA :=
  let state_1 := last_state + 1 in
  mkSimpleNFA ∅ [state_1] state_1 state_1.

Definition empty_set_to_nfa (last_state : Z) : SimpleNFA :=
  let state_1 := last_state + 1 in
  mkSimpleNFA ∅ [] state_1 state_1.

(** [d = {}; d.update(l); d.update(r)]: the entries of [r] win. *)
Definition update2 {V} (l r : gmap Z V) : gmap Z V := r ∪ l.

Definition union_to_nfa (left_nfa right_nfa : SimpleNFA) : SimpleNFA :=
  let tf := update2 (transition_function left_nfa) (transition_function right_nfa) in
  let union_epsilon_transitions : gmap pystr (gset Z) :=
    {[ s_e := {[ start_state left_nfa ]} ∪ {[ start_state right_nfa ]} ]} in
  let new_state := last_state right_nfa + 1 in
  let tf := <[ new_state := union_epsilon_transitions ]> tf in
  mkSimpleNFA tf (accept_states left_nfa ++ accept_states right_nfa)
              new_state new_state.

Definition kleene_star_to_nfa (nfa : SimpleNFA) : SimpleNFA :=
  let tf := transition_function nfa in
  let new_state := last_state nfa + 1 in
  let tf := <[ new_state := {[ s_e := {[ start_state nfa ]} ]} ]> tf in
  let tf := foldl (λ tf state, <[ state := {[ s_e := {[ start_state nfa ]} ]} ]> tf)
                  tf (accept_states nfa) in
  mkSimpleNFA tf (accept_states nfa ++ [new_state]) new_state new_state.

(** One iteration of the loop of [concat_to_nfa]. *)
Definition concat_link (target : Z) (tf : gmap Z (gmap pystr (gset Z))) (state : Z)
  : gmap Z (gmap pystr (gset Z)) :=
  match tf !! state with
  | Some row =>
      match row !! s_e with
      | Some tgt => <[ state := <[ s_e := tgt ∪ {[ target ]} ]> row ]> tf
      | None => <[ state := {[ s_e := {[ target ]} ]} ]> tf
      end
  | None => <[ state := {[ s_e := {[ target ]} ]} ]> tf
  end.

Definition concat_to_nfa (left_nfa right_nfa : SimpleNFA) : SimpleNFA :=
  let left_accept_states := accept_states left_nfa in
  let tf := update2 (transition_function left_nfa) (transition_function right_nfa) in
  let tf := foldl (concat_link (start_state right_nfa)) tf left_accept_states in
  mkSimpleNFA tf (accept_states right_nfa) (start_state left_nfa) (last_state right_nfa).

Definition base_node_to_nfa (node : Node) (last_state : Z) : SimpleNFA :=
  let symbol := value node in
  let state_1 := last_state + 1 in
  let state_2 := last_state + 2 in
  mkSimpleNFA {[ state_1 := {[ symbol := {[ state_2 ]} ]} ]} [state_2] state_1 state_2.

(** [depth_first_recursive]; [last] is the argument [last_state].
    The function calls itself once for every level of the tree, and
    Python bounds the depth of nested calls: [frames] is the number of
    nested activations of the function that the recursion limit of the
    interpreter still allows (each with the calls of the builders it
    makes), and a call beyond them is a [RecursionError], which nothing
    in the sources catches.
    A node that is handled by none of the [return]s falls through to
    [base_node_to_nfa]; this is the case of a binary node whose value is
    neither ['|'] nor the literal of line 235 (the sub-automata are
    built first and then dropped). *)
Fixpoint depth_first_recursive (frames : nat) (node : Node) (last : Z)
  : res SimpleNFA :=
  match frames with
  | O => Raise RecursionError
  | S frames =>
      let 'mkNode v cs _ sym := node in
      if sym then Ok (base_node_to_nfa node last)
      else
        match cs with
        | [] =>
            if bool_decide (v = s_N) then Ok (empty_set_to_nfa last)
            else if bool_decide (v = s_e) then Ok (epsilon_node_to_nfa last)
            else Ok (base_node_to_nfa node last)
        | operand :: cs' =>
            if bool_decide (v = s_star) then
              operand_nfa ← depth_first_recursive frames operand last;
              Ok (kleene_star_to_nfa operand_nfa)
            else
              match cs' with
              | [] => Raise IndexError
              | right_operand :: _ =>
                  left_nfa ← depth_first_recursive frames operand last;
                  right_nfa ← depth_first_recursive frames right_operand
                                                    (last_state left_nfa);
                  if bool_decide (v = s_bar) then Ok (union_to_nfa left_nfa right_nfa)
                  else if bool_decide (v = s_concat_tree)
                  then Ok (concat_to_nfa left_nfa right_nfa)
                  else Ok (base_node_to_nfa node last)
              end
        end
  end.

Definition depth_first (frames : nat) (root : Node) : res SimpleNFA :=
  depth_first_recursive frames root 0.

End tree.

(* ================================================================== *)
(** * pa3/dfa.py *)
(* ================================================================== *)

Module dfa.

(** A [DFA] object.  The state type is a parameter: the constructor
    that reads a description file keeps the states as the strings it
    read, [NFA.to_DFA] fills the same fields with integers. *)
Record DFA (Q : Type) `{Countable Q} := mkDFA {
  alphabet : list pystr;
  number_of_states : Z;
  transition_function : gmap Q (gmap pystr Q);
  start_state : Q;
  accept_states : gset Q
}.
Arguments mkDFA {Q _ _}.
Arguments alphabet {Q _ _}.
Arguments number_of_states {Q _ _}.
Arguments transition_function {Q _ _}.
Arguments start_state {Q _ _}.
Arguments accept_states {Q _ _}.

Section Simulate.
Context `{Countable Q}.

(** [self.transition_function[state][symbol]] *)
Definition transition (d : DFA Q) (state : Q) (symbol : pystr) : res Q :=
  row ← getitem (transition_function d) state;
  getitem row symbol.

(** The loop of [simulate], started in [curr_state]. *)
Fixpoint run (d : DFA Q) (curr_state : Q) (str : pystr) : res Q :=
  match str with
  | [] => Ok curr_state
  | ch :: rest =>
      next_state ← transition d curr_state [ch];
      run d next_state rest
  end.

Definition simulate (d : DFA Q) (str : pystr) : res bool :=
  curr_state ← run d (start_state d) str;
  Ok (bool_decide (curr_state ∈ accept_states d)).
End Simulate.

(** ** The description-file reader *)

(** An open text file: the lines not read yet, each with its newline
    (the last one possibly without). *)
Fixpoint lines_of (text : pystr) : list pystr :=
  match text with
  | [] => []
  | c :: rest =>
      if bool_decide (c = ch_newline) then [c] :: lines_of rest
      else match lines_of rest with
           | [] => [[c]]
           | l :: ls => (c :: l) :: ls
           end
  end.

(** [f.readline()]: the next line, or [''] at the end of the file. *)
Definition readline (f : list pystr) : pystr * list pystr :=
  match f with
  | [] => ([], [])
  | l :: ls => (l, ls)
  end.

Section Reader.
(** Python's character tables: [str.isspace] and [str.isnumeric] on
    one character, and [int] on a string that passed [isnumeric]
    ([ValueError] when a character is numeric but not a decimal
    digit). *)
Variable isspace : N → bool.
Variable isnumeric_char : N → bool.
Variable int : pystr → res Z.

Fixpoint lstrip (s : pystr) : pystr :=
  match s with
  | [] => []
  | c :: rest => if isspace c then lstrip rest else s
  end.

Definition strip (s : pystr) : pystr := rev (lstrip (rev (lstrip s))).

(** [s.split()]: the maximal runs of non-whitespace characters.
    [word] is the run being read, in reverse. *)
Fixpoint split_aux (s : pystr) (word : pystr) : list pystr :=
  match s with
  | [] => match word with [] => [] | _ => [rev word] end
  | c :: rest =>
      if isspace c
      then match word with
           | [] => split_aux rest []
           | _ => rev word :: split_aux rest []
           end
      else split_aux rest (c :: word)
  end.

Definition split (s : pystr) : list pystr := split_aux s [].

Definition isnumeric (s : pystr) : bool :=
  match s with
  | [] => false
  | _ => forallb isnumeric_char s
  end.

(** [n] is [self.number_of_states]. *)
Definition _validate_state (n : Z) (state : pystr) : res bool :=
  if negb (isnumeric state) then Ok false
  else
    state ← int state;
    if negb (bool_decide (1 ≤ state ≤ n)) then Ok false
    else Ok true.

Definition _validate_transition (n : Z) (alphabet : list pystr)
    (state_i state_o char : pystr) : res bool :=
  vi ← _validate_state n state_i;
  vo ← (if vi then _validate_state n state_o else Ok false);
  if negb (vi && vo) || negb (mem char alphabet) then Ok false
  else Ok true.

(** Returns the accept set, or [None] where the source returns
    [False]. *)
Fixpoint _validate_accept_states (n : Z) (acc : gset pystr)
    (accept_states : list pystr) : res (option (gset pystr)) :=
  match accept_states with
  | [] => Ok (Some acc)
  | state :: rest =>
      v ← _validate_state n state;
      if negb v then Ok None
      else _validate_accept_states n ({[ state ]} ∪ acc) rest
  end.

Definition _store_transition (tf : gmap pystr (gmap pystr pystr))
    (state_from state_to transition_char : pystr)
  : gmap pystr (gmap pystr pystr) :=
  match tf !! state_from with
  | None => <[ state_from := {[ transition_char := state_to ]} ]> tf
  | Some row => <[ state_from := <[ transition_char := state_to ]> row ]> tf
  end.

(** The [while] loop over the transition records.  [transition_data]
    is the line read last, split; the loop returns the table, the
    line that ended it and the file behind it. *)
Fixpoint read_transitions (n : Z) (alphabet : list pystr)
    (tf : gmap pystr (gmap pystr pystr))
    (transition_data : list pystr) (f : list pystr)
  : res (gmap pystr (gmap pystr pystr) * list pystr * list pystr) :=
  match transition_data with
  | [source_state; character; dest_state] =>
      let quote_stripped_char := remove_char ch_quote character in
      v ← _validate_transition n alphabet source_state dest_state quote_stripped_char;
      if negb v then Raise FileFormatError
      else
        let tf := _store_transition tf source_state dest_state quote_stripped_char in
        match f with
        | [] => Ok (tf, split (strip []), [])
        | l :: ls => read_transitions n alphabet tf (split (strip l)) ls
        end
  | _ => Ok (tf, transition_data, f)
  end.

Definition _read_dfa_data_from_file (text : pystr) : res (DFA pystr) :=
  let dfa_file := lines_of text in
  let '(line, dfa_file) := readline dfa_file in
  let num_of_states := strip line in
  if negb (isnumeric num_of_states) || bool_decide (num_of_states = [])
  then Raise FileFormatError
  else
    number_of_states ← int num_of_states;
    let '(line, dfa_file) := readline dfa_file in
    let alphabet_line := strip line in
    let alphabet := List.map (λ ch, [ch]) alphabet_line in
    let '(line, dfa_file) := readline dfa_file in
    let transition_data := split (strip line) in
    '(tf, transition_data, dfa_file) ←
      read_transitions number_of_states alphabet ∅ transition_data dfa_file;
    match transition_data with
    | [] => Raise IndexError
    | start_state :: _ =>
        v ← _validate_state number_of_states start_state;
        if negb v then Raise FileFormatError
        else
          let '(line, dfa_file) := readline dfa_file in
          let accept_states := split (strip line) in
          acc ← _validate_accept_states number_of_states ∅ accept_states;
          match acc with
          | None => Raise FileFormatError
          | Some acc =>
              let '(line, dfa_file) := readline dfa_file in
              match line with
              | _ :: _ => Raise FileFormatError
              | [] => Ok (mkDFA alphabet number_of_states tf start_state acc)
              end
          end
    end.
End Reader.

(** ** The tables for code points below U+0100

    [isspace] holds of U+0009..U+000D, U+001C..U+0020, U+0085 and
    U+00A0; [isnumeric] of the digits and of the superscripts and
    fractions U+00B2, U+00B3, U+00B9, U+00BC..U+00BE; [int] accepts the
    digits only.  Higher code points are classified as neither, so the
    instance is used on inputs below U+0100 only. *)
Definition isspace_latin1 (c : N) : bool :=
  bool_decide (c ∈ [9; 10; 11; 12; 13; 28; 29; 30; 31; 32; 133; 160]%N).

Definition isdigit (c : N) : bool := (48 <=? c)%N && (c <=? 57)%N.

Definition isnumeric_latin1 (c : N) : bool :=
  isdigit c || bool_decide (c ∈ [178; 179; 185; 188; 189; 190]%N).

Definition int_latin1 (s : pystr) : res Z :=
  if forallb isdigit s && negb (bool_decide (s = []))
  then Ok (foldl (λ acc c, 10 * acc + (Z.of_N c - 48)) 0 s)
  else Raise ValueError.

Definition read_dfa (text : pystr) : res (DFA pystr) :=
  _read_dfa_data_from_file isspace_latin1 isnumeric_latin1 int_latin1 text.

End dfa.

(* ================================================================== *)
(** * pa4/nfa.py *)
(* ================================================================== *)

Module nfa.

(** An [NFA] object.  States are integers when the automaton comes from
    a regular expression and strings when it is read from a file, so
    the state type is a parameter.  The epsilon marker is the symbol
    ['e'].  [accept_states] is only ever tested for membership; it is
    the list [to_nfa] stores, the keys of the dictionary the file
    reader stores, or [None], which the file reader stores when the
    line of the accept states is blank. *)
Record NFA (K : Type) `{Countable K} := mkNFA {
  alphabet : list pystr;
  number_of_states : Z;
  transition_function : gmap K (gmap pystr (gset K));
  start_state : K;
  accept_states : option (list K)
}.
Arguments mkNFA {K _ _}.
Arguments alphabet {K _ _}.
Arguments number_of_states {K _ _}.
Arguments transition_function {K _ _}.
Arguments start_state {K _ _}.
Arguments accept_states {K _ _}.

(** An entry of the table under construction: [_nfa_conversion] stores
    the destination [frozenset], [_finalize_dfa] overwrites it in place
    by its integer id. *)
Inductive dest (K : Type) `{Countable K} :=
| DSet (s : gset K)
| DInt (n : Z).
Arguments DSet {K _ _}.
Arguments DInt {K _ _}.

(** What [_nfa_conversion] leaves behind: the fields it sets on the
    [dfa] object, the two mappings it returns, and its local flag. *)
Record conversion (K : Type) `{Countable K} := mkConversion {
  c_start_state : Z;
  c_number_of_states : Z;
  c_transition_function : gmap Z (gmap pystr (dest K));
  c_int_mapping : gmap (gset K) Z;
  c_int_mapping_reverse : gmap Z (gset K);
  c_found_empty : bool
}.
Arguments mkConversion {K _ _}.
Arguments c_start_state {K _ _}.
Arguments c_number_of_states {K _ _}.
Arguments c_transition_function {K _ _}.
Arguments c_int_mapping {K _ _}.
Arguments c_int_mapping_reverse {K _ _}.
Arguments c_found_empty {K _ _}.

(** The variables of the [while] loop of [_nfa_conversion]. *)
Record loop_state (K : Type) `{Countable K} := mkLoop {
  queue : list (gset K);
  states_handled : list (gset K);
  dfa_state_int_mapping : gmap (gset K) Z;
  dfa_state_int_mapping_reverse : gmap Z (gset K);
  next_state_id : Z;
  l_number_of_states : Z;
  found_empty : bool;
  l_transition_function : gmap Z (gmap pystr (dest K))
}.
Arguments mkLoop {K _ _}.
Arguments queue {K _ _}.
Arguments states_handled {K _ _}.
Arguments dfa_state_int_mapping {K _ _}.
Arguments dfa_state_int_mapping_reverse {K _ _}.
Arguments next_state_id {K _ _}.
Arguments l_number_of_states {K _ _}.
Arguments found_empty {K _ _}.
Arguments l_transition_function {K _ _}.

Section Conversion.
Context `{Countable K}.
Variable self : NFA K.

Definition _get_transition (state : K) (symbol : pystr) : gset K :=
  match transition_function self !! state with
  | Some row => default ∅ (row !! symbol)
  | None => ∅
  end.

(** The [while queue] loop of [_get_epsilon_closure]. *)
Fixpoint closure_loop (fuel : nat) (queue : list K) (states_seen : gset K)
  : res (gset K) :=
  match fuel with
  | O => NoFuel
  | S fuel =>
      match queue with
      | [] => Ok states_seen
      | curr_state :: queue =>
          let states_seen := {[ curr_state ]} ∪ states_seen in
          let epsilon_transitions := _get_transition curr_state s_e in
          let new :=
            List.filter (λ transition_state,
                           negb (bool_decide (transition_state ∈ states_seen)))
                        (elements epsilon_transitions) in
          closure_loop fuel (queue ++ new) states_seen
      end
  end.

Definition _get_epsilon_closure (fuel : nat) (state : K) : res (gset K) :=
  closure_loop fuel [state] ∅.

Definition _get_transition_for_states_set (set_of_states : gset K)
    (symbol : pystr) : gset K :=
  foldl (λ dest_states state, dest_states ∪ _get_transition state symbol)
        ∅ (elements set_of_states).

Fixpoint closure_of_list (fuel : nat) (states : list K) (e_states : gset K)
  : res (gset K) :=
  match states with
  | [] => Ok e_states
  | state :: rest =>
      e_closure ← _get_epsilon_closure fuel state;
      closure_of_list fuel rest (e_states ∪ e_closure)
  end.

Definition _get_epsilon_closure_for_states_set (fuel : nat)
    (set_of_states : gset K) : res (gset K) :=
  closure_of_list fuel (elements set_of_states) ∅.

(** [_generate_int_mapping]: both directions. *)
Definition _generate_int_mapping (start_state : gset K) : gmap (gset K) Z :=
  <[ start_state := 2 ]> (<[ ∅ := 1 ]> ∅).

Definition _generate_int_mapping_reverse (start_state : gset K) : gmap Z (gset K) :=
  <[ 2 := start_state ]> (<[ 1 := ∅ ]> ∅).

(** The [for symbol in self.alphabet] loop inside the [while]. *)
Fixpoint symbols_loop (fuel : nat) (curr_state_set : gset K)
    (alphabet : list pystr) (transitions : gmap pystr (dest K))
    (queue : list (gset K)) (found_empty : bool)
  : res (gmap pystr (dest K) * list (gset K) * bool) :=
  match alphabet with
  | [] => Ok (transitions, queue, found_empty)
  | symbol :: rest =>
      let transition_on_symbol :=
        _get_transition_for_states_set curr_state_set symbol in
      transition_e_closure ←
        _get_epsilon_closure_for_states_set fuel transition_on_symbol;
      let dest_states := transition_on_symbol ∪ transition_e_closure in
      let transitions := <[ symbol := DSet dest_states ]> transitions in
      if bool_decide (dest_states ≠ ∅)
      then symbols_loop fuel curr_state_set rest transitions
                        (queue ++ [dest_states]) found_empty
      else symbols_loop fuel curr_state_set rest transitions queue true
  end.

(** The [while queue] loop of [_nfa_conversion]. *)
Fixpoint conversion_loop (fuel : nat) (st : loop_state K) : res (loop_state K) :=
  match fuel with
  | O => NoFuel
  | S fuel' =>
      match queue st with
      | [] => Ok st
      | curr_state_set :: rest =>
          if bool_decide (curr_state_set ∈ states_handled st)
          then conversion_loop fuel'
                 (mkLoop rest (states_handled st) (dfa_state_int_mapping st)
                         (dfa_state_int_mapping_reverse st) (next_state_id st)
                         (l_number_of_states st) (found_empty st)
                         (l_transition_function st))
          else
            '(transitions, queue', found_empty') ←
               symbols_loop fuel curr_state_set (alphabet self) ∅ rest
                            (found_empty st);
            let frozen_set := curr_state_set in
            let '(set_id, mapping, mapping_reverse) :=
              match dfa_state_int_mapping st !! frozen_set with
              | Some set_id =>
                  (set_id, dfa_state_int_mapping st, dfa_state_int_mapping_reverse st)
              | None =>
                  (next_state_id st,
                   <[ frozen_set := next_state_id st ]> (dfa_state_int_mapping st),
                   <[ next_state_id st := frozen_set ]>
                     (dfa_state_int_mapping_reverse st))
              end in
            conversion_loop fuel'
              (mkLoop queue' (states_handled st ++ [curr_state_set])
                      mapping mapping_reverse (next_state_id st + 1)
                      (l_number_of_states st + 1) found_empty'
                      (<[ set_id := transitions ]> (l_transition_function st)))
      end
  end.

(** The loop that gives state 1 its self-loops. *)
Definition reject_loops (tf : gmap Z (gmap pystr (dest K)))
  : gmap Z (gmap pystr (dest K)) :=
  foldl (λ tf symbol,
           match tf !! 1 with
           | Some row => <[ 1 := <[ symbol := DInt 1 ]> row ]> tf
           | None => <[ 1 := {[ symbol := DInt 1 ]} ]> tf
           end)
        tf (alphabet self).

Definition _nfa_conversion (fuel : nat) (start_state : gset K)
  : res (conversion K) :=
  st ← conversion_loop fuel
         (mkLoop [start_state] []
                 (_generate_int_mapping start_state)
                 (_generate_int_mapping_reverse start_state)
                 2 1 false ∅);
  if negb (found_empty st) then
    _ ← getitem (dfa_state_int_mapping st) ∅;          (* del ...[frozenset()] *)
    _ ← getitem (dfa_state_int_mapping_reverse st) 1;  (* del ...[1] *)
    Ok (mkConversion (2 - 1) (l_number_of_states st - 1)
                     (l_transition_function st)
                     (delete ∅ (dfa_state_int_mapping st))
                     (delete 1 (dfa_state_int_mapping_reverse st))
                     false)
  else
    Ok (mkConversion 2 (l_number_of_states st)
                     (reject_loops (l_transition_function st))
                     (dfa_state_int_mapping st)
                     (dfa_state_int_mapping_reverse st)
                     true).

(** [value[key] - 1] is a [TypeError] on a [frozenset]. *)
Definition is_int (d : dest K) : bool :=
  match d with DInt _ => true | DSet _ => false end.

Definition shift_dest (d : dest K) : dest K :=
  match d with DInt n => DInt (n - 1) | DSet s => DSet s end.

Definition _generate_shifted_transition_value (value : gmap pystr (dest K))
  : res (gmap pystr (dest K)) :=
  if bool_decide (map_Forall (λ _ d, is_int d = true) value)
  then Ok (shift_dest <$> value)
  else Raise TypeError.

(** [_generate_shifted_keys_dict] with [should_shift_values=True]. *)
Definition _generate_shifted_keys_dict (tf : gmap Z (gmap pystr (dest K)))
  : res (gmap Z (gmap pystr (dest K))) :=
  if bool_decide (map_Forall (λ _ row, map_Forall (λ _ d, is_int d = true) row) tf)
  then Ok (kmap (M1 := gmap Z) (M2 := gmap Z) (λ state : Z, state - 1)
                ((λ row : gmap pystr (dest K), shift_dest <$> row) <$> tf))
  else Raise TypeError.

(** [_generate_shifted_keys_dict] with [should_shift_values=False],
    on the accept dictionary. *)
Definition shifted_keys_set (accept : gset Z) : gset Z :=
  set_map (λ state : Z, state - 1) accept.

(** The inner [for symbol in self.alphabet] loop of [_finalize_dfa]
    on the row of one state. *)
Fixpoint convert_row (int_mapping : gmap (gset K) Z) (alphabet : list pystr)
    (row : gmap pystr (dest K)) : res (gmap pystr (dest K)) :=
  match alphabet with
  | [] => Ok row
  | symbol :: rest =>
      state_set ← getitem row symbol;
      int_state ← match state_set with
                  | DSet s => getitem int_mapping s
                  | DInt _ => Raise KeyError   (* an int is no key of the mapping *)
                  end;
      convert_row int_mapping rest (<[ symbol := DInt int_state ]> row)
  end.

(** The [for nfa_state in corresponding_states_set] loop: whether the
    set holds an accept state.  The test [nfa_state in
    self.accept_states] is a [TypeError] when the attribute is [None]. *)
Fixpoint found_accept_state (states : list K) : res bool :=
  match states with
  | [] => Ok false
  | nfa_state :: rest =>
      match accept_states self with
      | None => Raise TypeError
      | Some accept_states =>
          if bool_decide (nfa_state ∈ accept_states) then Ok true
          else found_accept_state rest
      end
  end.

(** The [for state in dfa.transition_function.keys()] loop. *)
Fixpoint finalize_loop (int_mapping : gmap (gset K) Z)
    (int_mapping_reverse : gmap Z (gset K)) (states : list Z)
    (tf : gmap Z (gmap pystr (dest K))) (accept : gset Z)
  : res (gmap Z (gmap pystr (dest K)) * gset Z) :=
  match states with
  | [] => Ok (tf, accept)
  | state :: rest =>
      corresponding_states_set ← getitem int_mapping_reverse state;
      found ← found_accept_state (elements (corresponding_states_set : gset K));
      let accept := if (found : bool) then {[ state ]} ∪ accept else accept in
      tf ← (if bool_decide (state ≠ 1) then
              row ← getitem tf state;
              row ← convert_row int_mapping (alphabet self) row;
              Ok (<[ state := row ]> tf)
            else Ok tf);
      finalize_loop int_mapping int_mapping_reverse rest tf accept
  end.

(** The integer entries of a row.  After [_finalize_dfa] no other
    entries are left (see [finalize_rows]). *)
Definition row_ints (row : gmap pystr (dest K)) : gmap pystr Z :=
  omap (λ d, match d with DInt n => Some n | DSet _ => None end) row.

Definition _finalize_dfa (c : conversion K) : res (dfa.DFA Z) :=
  '(tf, accept) ←
     finalize_loop (c_int_mapping c) (c_int_mapping_reverse c)
                   (elements (dom (c_transition_function c)))
                   (c_transition_function c) ∅;
  '(tf, accept) ←
     (if bool_decide (1 ∉ dom tf) then
        shifted ← _generate_shifted_keys_dict tf;
        Ok (shifted, shifted_keys_set accept)
      else Ok (tf, accept));
  Ok (dfa.mkDFA (alphabet self) (c_number_of_states c)
                (row_ints <$> tf) (c_start_state c) accept).

Definition to_DFA (fuel : nat) : res (dfa.DFA Z) :=
  start_state_e_closure ← _get_epsilon_closure fuel (start_state self);
  c ← _nfa_conversion fuel start_state_e_closure;
  _finalize_dfa c.

End Conversion.

(** ** The description-file reader of the NFA class *)

(** [NFA._store_transition]: the destination joins the set stored for
    the pair. *)
Definition _store_transition `{Countable K}
    (transition_dict : gmap K (gmap pystr (gset K)))
    (state_from state_to : K) (transition_char : pystr)
  : gmap K (gmap pystr (gset K)) :=
  match transition_dict !! state_from with
  | None => <[ state_from := {[ transition_char := {[ state_to ]} ]} ]> transition_dict
  | Some row =>
      match row !! transition_char with
      | None =>
          <[ state_from := <[ transition_char := {[ state_to ]} ]> row ]> transition_dict
      | Some tgt =>
          <[ state_from := <[ transition_char := tgt ∪ {[ state_to ]} ]> row ]>
            transition_dict
      end
  end.

(** What [_extract_nfa_data_from_file] returns; [accept_states] is
    [None] when the line of the accept states is blank. *)
Record nfa_data := mkData {
  num_of_states : Z;
  d_alphabet : list pystr;
  transition_dict : gmap pystr (gmap pystr (gset pystr));
  d_start_state : pystr;
  d_accept_states : option (gset pystr)
}.

Section FileReader.
Variable isspace : N → bool.
Variable int : pystr → res Z.

(** The [while transition_line] loop: a record that does not split
    into three fields is a [ValueError] of the unpacking. *)
Fixpoint extract_transitions (transition_dictionary : gmap pystr (gmap pystr (gset pystr)))
    (transition_line : pystr) (file : list pystr)
  : res (gmap pystr (gmap pystr (gset pystr)) * list pystr) :=
  match transition_line with
  | [] => Ok (transition_dictionary, file)
  | _ =>
      match dfa.split isspace transition_line with
      | [source_state; character; dest_state] =>
          let quote_stripped_char := remove_char ch_quote character in
          let transition_dictionary :=
            _store_transition transition_dictionary source_state dest_state
                              quote_stripped_char in
          match file with
          | [] => Ok (transition_dictionary, [])
          | l :: ls => extract_transitions transition_dictionary (dfa.strip isspace l) ls
          end
      | _ => Raise ValueError
      end
  end.

Definition _extract_nfa_data_from_file (file : list pystr) : res nfa_data :=
  let '(line, file) := dfa.readline file in
  num_of_states ← int (dfa.strip isspace line);
  let '(line, file) := dfa.readline file in
  let alphabet_line := dfa.strip isspace line in
  let alphabet := List.map (λ ch, [ch]) alphabet_line in
  let '(line, file) := dfa.readline file in
  '(transition_dictionary, file) ←
    extract_transitions ∅ (dfa.strip isspace line) file;
  let '(line, file) := dfa.readline file in
  let start_state := dfa.strip isspace line in
  let '(line, file) := dfa.readline file in
  let accept_states_line := dfa.split isspace (dfa.strip isspace line) in
  let accept_states :=
    match accept_states_line with
    | [] => None
    | _ => Some (list_to_set accept_states_line)
    end in
  Ok (mkData num_of_states alphabet transition_dictionary start_state accept_states).

(** [_read_nfa_data_from_file] on the text of the file. *)
Definition _read_nfa_data_from_file (text : pystr) : res nfa_data :=
  _extract_nfa_data_from_file (dfa.lines_of text).

(** [NFA(nfa_filename)] for a file that can be opened: the data are
    copied into the attributes of the object. *)
Definition init (text : pystr) : res (NFA pystr) :=
  data ← _read_nfa_data_from_file text;
  Ok (mkNFA (d_alphabet data) (num_of_states data) (transition_dict data)
            (d_start_state data) (elements <$> d_accept_states data)).
End FileReader.

End nfa.

(* ================================================================== *)
(** * pa3/regex.py *)
(* ================================================================== *)

Module regex.
Import tree.

Definition prescedence_mapping : gmap pystr Z :=
  <[ s_lparen := 3 ]> (<[ s_rparen := 3 ]> (<[ s_star := 2 ]>
    (<[ s_concat := 1 ]> (<[ s_bar := 0 ]> ∅)))).

Definition _check_operator_prescedence (operator1 operator2 : pystr) : res pystr :=
  op1_pres ← getitem prescedence_mapping operator1;
  op2_pres ← getitem prescedence_mapping operator2;
  if bool_decide (op1_pres ≤ op2_pres) then Ok operator2 else Ok operator1.

Definition operator_operand_mapping : gmap pystr Z :=
  <[ s_concat := 2 ]> (<[ s_star := 1 ]> (<[ s_bar := 2 ]> ∅)).

(** [for _ in range(num_operands): operand = operand_stack.pop();
    operator_node.add_child(child=operand, insert=True)].  Popping an
    empty list is an [IndexError]. *)
Fixpoint pop_operands (num_operands : nat) (operand_stack : list Node)
    (operator_node : Node) : res (Node * list Node) :=
  match num_operands with
  | O => Ok (operator_node, operand_stack)
  | S n =>
      match operand_stack with
      | [] => Raise IndexError
      | operand :: operand_stack =>
          pop_operands n operand_stack (add_child operator_node operand true)
      end
  end.

(** The [while operator_stack] loop of [_empty_operator_stack]. *)
Fixpoint empty_loop (operator_stack : list pystr) (operand_stack : list Node)
  : res (list Node) :=
  match operator_stack with
  | [] => Ok operand_stack
  | operator :: operator_stack =>
      if bool_decide (operator = s_lparen) then Raise InvalidExpression
      else
        let operator_node := mkNode operator [] 1 false in
        num_operands ← getitem operator_operand_mapping operator;
        if bool_decide (Z.of_nat (length operand_stack) < num_operands)
        then Raise InvalidExpression
        else
          '(operator_node, operand_stack) ←
             pop_operands (Z.to_nat num_operands) operand_stack operator_node;
          empty_loop operator_stack (operator_node :: operand_stack)
  end.

Definition _empty_operator_stack (operand_stack : list Node)
    (operator_stack : list pystr) : res Node :=
  operand_stack ← empty_loop operator_stack operand_stack;
  match operand_stack with
  | [] => Raise IndexError
  | operand_root :: _ => Ok operand_root
  end.

(** The [while operator != '('] loop of the [')'] branch; [operator] has
    just been popped off [operator_stack].  The loop does not compare
    the number of operands with the arity before it pops them. *)
Fixpoint close_paren (operator_stack : list pystr) (operator : pystr)
    (operand_stack : list Node) : res (list Node * list pystr) :=
  if bool_decide (operator ≠ s_lparen) then
    let operator_node := mkNode operator [] 1 false in
    num_operands ← getitem operator_operand_mapping operator;
    '(operator_node, operand_stack) ←
       pop_operands (Z.to_nat num_operands) operand_stack operator_node;
    let operand_stack := operator_node :: operand_stack in
    match operator_stack with
    | operator :: operator_stack => close_paren operator_stack operator operand_stack
    | [] => Raise InvalidExpression
    end
  else Ok (operand_stack, operator_stack).

(** The [while higher_pres == top and top != '(' and operator_stack]
    loop of the operator branch. *)
Fixpoint reduce_higher (token : pystr) (operator_stack : list pystr)
    (operand_stack : list Node) : res (list Node * list pystr) :=
  match operator_stack with
  | [] => Ok (operand_stack, [])
  | top :: rest =>
      higher_pres ← _check_operator_prescedence token top;
      if bool_decide (higher_pres = top) && bool_decide (top ≠ s_lparen) then
        let operator := top in
        let operator_node := mkNode operator [] 1 false in
        num_operands ← getitem operator_operand_mapping operator;
        if bool_decide (Z.of_nat (length operand_stack) < num_operands)
        then Raise InvalidExpression
        else
          '(operator_node, operand_stack) ←
             pop_operands (Z.to_nat num_operands) operand_stack operator_node;
          reduce_higher token rest (operator_node :: operand_stack)
      else Ok (operand_stack, operator_stack)
  end.

Definition special_symbols : list pystr :=
  [s_lparen; s_rparen; s_star; s_bar; s_N].

(** The body of the [for] loop of [_parse_regex] on one token. *)
Definition parse_token (alphabet : list pystr) (token : pystr)
    (operand_stack : list Node) (operator_stack : list pystr)
  : res (list Node * list pystr) :=
  if (mem token alphabet && negb (mem token special_symbols))
     || bool_decide (1 < length token)%nat
     || bool_decide (token = s_e) || bool_decide (token = s_N)
  then
    let is_symbol := bool_decide (token ≠ s_e) && bool_decide (token ≠ s_N) in
    let token := if bool_decide (1 < length token)%nat
                 then drop (length token - 1) token else token in
    let operand_node := mkNode token [] 0 is_symbol in
    Ok (operand_node :: operand_stack, operator_stack)
  else if bool_decide (token = s_lparen) then
    Ok (operand_stack, token :: operator_stack)
  else if bool_decide (token = s_rparen) then
    match operator_stack with
    | operator :: operator_stack => close_paren operator_stack operator operand_stack
    | [] => Ok (operand_stack, operator_stack)
    end
  else if bool_decide (token = s_star) || bool_decide (token = s_bar)
          || bool_decide (token = s_concat) then
    '(operand_stack, operator_stack) ←
       reduce_higher token operator_stack operand_stack;
    Ok (operand_stack, token :: operator_stack)
  else Ok (operand_stack, operator_stack).

Fixpoint parse_tokens (alphabet : list pystr) (tokens : list pystr)
    (operand_stack : list Node) (operator_stack : list pystr)
  : res (list Node * list pystr) :=
  match tokens with
  | [] => Ok (operand_stack, operator_stack)
  | token :: rest =>
      '(operand_stack, operator_stack) ←
         parse_token alphabet token operand_stack operator_stack;
      parse_tokens alphabet rest operand_stack operator_stack
  end.

Definition _parse_regex (regex : pystr) (alphabet : list pystr)
  : res (list Node * list pystr) :=
  tokenized_regex ← helper_functions.tokenize regex alphabet;
  let tokenized_regex_with_concat :=
    helper_functions.insert_concat tokenized_regex alphabet in
  parse_tokens alphabet tokenized_regex_with_concat [] [].

(** The two steps of [RegEx.__init__] that build [root_node]. *)
Definition parse (regex : pystr) (alphabet : list pystr) : res Node :=
  '(operand_stack, operator_stack) ← _parse_regex regex alphabet;
  _empty_operator_stack operand_stack operator_stack.

Definition _finalize_simple_nfa (alphabet : list pystr) (simple_nfa : SimpleNFA)
  : nfa.NFA Z :=
  nfa.mkNFA alphabet (last_state simple_nfa) (transition_function simple_nfa)
            (start_state simple_nfa) (Some (accept_states simple_nfa)).

(** [frames] is the depth of calls left for [depth_first_recursive]. *)
Definition to_nfa (frames : nat) (alphabet : list pystr) (root_node : Node)
  : res (nfa.NFA Z) :=
  simple_nfa ← depth_first frames root_node;
  Ok (_finalize_simple_nfa alphabet simple_nfa).

(** A [RegEx] object; [nfa] is unset when [invalid] is. *)
Record RegEx := mkRegEx {
  alphabet : list pystr;
  regex_string : pystr;
  invalid : bool;
  nfa : option (nfa.NFA Z)
}.

(** [RegEx.__init__] once the alphabet (the characters between the
    quotes of the first line) and the regex string are read.  Only
    [InvalidExpression] is caught. *)
Definition init (frames : nat) (alphabet_str regex_str : pystr) : res RegEx :=
  let alphabet := List.map (λ ch, [ch]) alphabet_str in
  match (root_node ← parse regex_str alphabet; to_nfa frames alphabet root_node) with
  | Ok n => Ok (mkRegEx alphabet regex_str false (Some n))
  | Raise InvalidExpression => Ok (mkRegEx alphabet regex_str true None)
  | Raise e => Raise e
  | NoFuel => NoFuel
  end.

Definition simulate (fuel : nat) (self : RegEx) (str : pystr) : res bool :=
  if invalid self then Ok false
  else
    match nfa self with
    | None => Raise TypeError
    | Some n =>
        d ← nfa.to_DFA n fuel;
        dfa.simulate d str
    end.

(** Build the object and ask it about [str]. *)
Definition matches (frames fuel : nat) (alphabet_str regex_str str : pystr)
  : res bool :=
  self ← init frames alphabet_str regex_str;
  simulate fuel self str.

(** ** The definition file *)

(** The slice of the line from behind its first double quote up to its
    last one. *)
Definition between_quotes (line : pystr) : pystr :=
  let quote_index_1 := find ch_dquote line + 1 in
  let quote_index_2 := rfind ch_dquote line in
  slice line quote_index_1 quote_index_2.

(** [RegEx._initialize_from_file] on the text of the file: the alphabet
    string and the regex string. *)
Definition _initialize_from_file (text : pystr) : pystr * pystr :=
  let f := dfa.lines_of text in
  let '(alphabet_line, f) := dfa.readline f in
  let alphabet_str := between_quotes alphabet_line in
  let '(regex_line, f) := dfa.readline f in
  let regex_str := between_quotes regex_line in
  (alphabet_str, regex_str).

(** [RegEx(filename)] for a file that can be opened. *)
Definition init_from_file (frames : nat) (text : pystr) : res RegEx :=
  let '(alphabet_str, regex_str) := _initialize_from_file text in
  init frames alphabet_str regex_str.

End regex.

(* ================================================================== *)
(** * pa4/lexer.py *)
(* ================================================================== *)

Module lexer.

Record TokenValue := mkTokenValue {
  dfa : dfa.DFA Z;
  type : pystr;
  order : Z
}.

(** A [Lex] object: the unread source text and the dictionary of
    token values in insertion order. *)
Record Lex := mkLex {
  source_file_data : pystr;
  generated_dfas : list (pystr * TokenValue)
}.

(** [_read_source_file]: newlines become spaces. *)
Definition _read_source_file (content : pystr) : pystr :=
  List.map (λ c, if bool_decide (c = ch_newline) then ch_space else c) content.

Definition _multiple_token_decider (tokens : list TokenValue) : option TokenValue :=
  fst (foldl (λ '(token_val, lowest_order) token,
                let token_order := order token in
                if bool_decide (token_order < lowest_order)
                then (Some token, token_order)
                else (token_val, lowest_order))
             (None, 10000000) tokens).

(** The [for i in range(len(input))] loop of [_analyze_input] for one
    DFA; [input] is the part from index [i] on. *)
Fixpoint scan (d : dfa.DFA Z) (input : pystr) (i : Z) (curr_state : Z)
    (longest_match_str_len : Z) (reached_accept_state : bool) : res (Z * bool) :=
  match input with
  | [] => Ok (longest_match_str_len, reached_accept_state)
  | curr_char :: rest =>
      if bool_decide (curr_char = ch_space) then
        if reached_accept_state
        then Ok (longest_match_str_len, reached_accept_state)
        else scan d rest (i + 1) curr_state longest_match_str_len reached_accept_state
      else
        next_state ← dfa.transition d curr_state [curr_char];
        if bool_decide (next_state = 1)
        then Ok (longest_match_str_len, reached_accept_state)
        else if bool_decide (next_state ∈ dfa.accept_states d)
        then scan d rest (i + 1) next_state (i + 1) true
        else scan d rest (i + 1) next_state longest_match_str_len reached_accept_state
  end.

(** The [for _, token_value in dfas.items()] loop. *)
Fixpoint analyze_loop (input : pystr) (dfas : list (pystr * TokenValue))
    (accepting_token_values : list TokenValue) (final_longest_match_str_len : Z)
  : res (list TokenValue * Z) :=
  match dfas with
  | [] => Ok (accepting_token_values, final_longest_match_str_len)
  | (_, token_value) :: rest =>
      r ← scan (dfa token_value) input 0 (dfa.start_state (dfa token_value)) 0 false;
      let '(longest_match_str_len, reached_accept_state) := (r : Z * bool) in
      if reached_accept_state then
        if bool_decide (final_longest_match_str_len < longest_match_str_len)
        then analyze_loop input rest [token_value] longest_match_str_len
        else if bool_decide (longest_match_str_len = final_longest_match_str_len)
        then analyze_loop input rest (accepting_token_values ++ [token_value])
                          longest_match_str_len
        else analyze_loop input rest accepting_token_values final_longest_match_str_len
      else analyze_loop input rest accepting_token_values final_longest_match_str_len
  end.

Definition _analyze_input (self : Lex) (input : pystr)
  : res (option TokenValue * pystr * Z) :=
  '(accepting_token_values, final_longest_match_str_len) ←
     analyze_loop input (generated_dfas self) [] 0;
  let result_token :=
    match accepting_token_values with
    | [token_value] => Some token_value
    | _ => _multiple_token_decider accepting_token_values
    end in
  let matched_str := take (Z.to_nat final_longest_match_str_len) input in
  Ok (result_token, matched_str, final_longest_match_str_len).

(** [next_token]: the outcome and the object after the call. *)
Definition next_token (self : Lex) : res (pystr * pystr) * Lex :=
  match source_file_data self with
  | [] => (Raise EOFError, self)
  | _ =>
      match _analyze_input self (source_file_data self) with
      | Raise e => (Raise e, self)
      | NoFuel => (NoFuel, self)
      | Ok (next_token, matched_str, str_len) =>
          let data := drop (Z.to_nat str_len) (source_file_data self) in
          let check_str := remove_char ch_space data in
          let data := match check_str with [] => check_str | _ => data end in
          let self := mkLex data (generated_dfas self) in
          match next_token with
          | Some t => (Ok (type t, remove_char ch_space matched_str), self)
          | None => (Raise InvalidToken, self)
          end
      end
  end.

End lexer.

(* ================================================================== *)
(** * Concrete inputs used below *)
(* ================================================================== *)

(** The text of a file given by its lines, each ended by a newline. *)
Definition text_of_lines (ls : list pystr) : pystr :=
  concat (List.map (λ l, l ++ [ch_newline]) ls).

(** The DFA [NFA.to_DFA] builds for the regular expression [a] over the
    alphabet [a]: state 1 rejects, 2 is the start state, 3 accepts (see
    [dfa_a_from_regex]). *)
Definition dfa_a : dfa.DFA Z :=
  dfa.mkDFA [py "a"] 3
    (<[ 1 := {[ py "a" := 1 ]} ]>
       (<[ 2 := {[ py "a" := 3 ]} ]>
          (<[ 3 := {[ py "a" := 1 ]} ]> ∅)))
    2 {[ 3 ]}.


(** A SimpleNFA whose accept state 2 has an outgoing edge on [a]. *)
Definition simple_nfa_loop : tree.SimpleNFA :=
  tree.mkSimpleNFA
    (<[ 1 := {[ py "a" := {[ 2 ]} ]} ]> (<[ 2 := {[ py "a" := {[ 2 ]} ]} ]> ∅))
    [2] 1 2.

(** The NFA of the regular expression [a] over the alphabet [a]. *)
Definition nfa_a : nfa.NFA Z :=
  nfa.mkNFA [py "a"] 2 {[ 1 := {[ py "a" := {[ 2 ]} ]} ]} 1 (Some [2]).

(** The DFA [NFA.to_DFA] builds for the regular expression [a] over the
    alphabet [ab] (see [dfa_a_over_ab_from_regex]). *)
Definition dfa_a_over_ab : dfa.DFA Z :=
  dfa.mkDFA [py "a"; py "b"] 3
    (<[ 1 := <[ py "a" := 1 ]> {[ py "b" := 1 ]} ]>
       (<[ 2 := <[ py "a" := 3 ]> {[ py "b" := 1 ]} ]>
          (<[ 3 := <[ py "a" := 1 ]> {[ py "b" := 1 ]} ]> ∅)))
    2 {[ 3 ]}.

(* ================================================================== *)
(** * Predicates used in the statements *)
(* ================================================================== *)

Section RecordsSpec.
Variable isspace : N → bool.


End RecordsSpec.


Section ReaderSpec.
Variable isnumeric_char : N → bool.
Variable int : pystr → res Z.


End ReaderSpec.

(** All subsets of the set of the elements of a list. *)
Fixpoint powerlist `{Countable K} (l : list K) : list (gset K) :=
  match l with
  | [] => [∅]
  | x :: l => powerlist l ++ List.map (λ s, {[ x ]} ∪ s) (powerlist l)
  end.

Section ConversionSpec.
Context `{Countable K}.
Variable self : nfa.NFA K.

(** Every state that occurs as the target of a transition. *)
Definition targets : gset K :=
  ⋃ (List.map (λ row : gmap pystr (gset K), ⋃ (List.map snd (map_to_list row)))
              (List.map snd (map_to_list (nfa.transition_function self)))).

(** The destination set the body of the symbol loop computes. *)
Definition dest_states (fuel : nat) (curr_state_set : gset K) (symbol : pystr)
  : res (gset K) :=
  let transition_on_symbol :=
    nfa._get_transition_for_states_set self curr_state_set symbol in
  transition_e_closure ←
    nfa._get_epsilon_closure_for_states_set self fuel transition_on_symbol;
  Ok (transition_on_symbol ∪ transition_e_closure).

(** The test [_finalize_dfa] makes on the set of a DFA state, for an
    NFA whose [accept_states] is not [None]. *)
Definition accepting (s : gset K) : bool :=
  existsb (λ nfa_state,
             bool_decide (nfa_state ∈ default [] (nfa.accept_states self)))
          (elements s).

(** The invariant of the [while] loop of [_nfa_conversion]: the handled
    sets are pairwise different and non-empty, the k-th of them has the
    id 2 + k in both mappings and a row in the table, and every
    destination in the table is empty, handled, or queued. *)
Record loop_inv (start : gset K) (st : nfa.loop_state K) : Prop := {
  inv_nodup : NoDup (nfa.states_handled st);
  inv_handled : ∀ s, s ∈ nfa.states_handled st → s ≠ ∅ ∧ s ⊆ start ∪ targets;
  inv_queue : ∀ s, s ∈ nfa.queue st → s ≠ ∅ ∧ s ⊆ start ∪ targets;
  inv_first : match nfa.states_handled st with
              | [] => nfa.queue st = [start]
              | s :: _ => s = start
              end;
  inv_next : nfa.next_state_id st = 2 + Z.of_nat (length (nfa.states_handled st));
  inv_num : nfa.l_number_of_states st = 1 + Z.of_nat (length (nfa.states_handled st));
  inv_map : ∀ s i, nfa.dfa_state_int_mapping st !! s = Some i ↔
              (s = ∅ ∧ i = 1) ∨ (s = start ∧ i = 2) ∨
              (∃ k, nfa.states_handled st !! k = Some s ∧ i = 2 + Z.of_nat k);
  inv_rev : ∀ i s, nfa.dfa_state_int_mapping_reverse st !! i = Some s ↔
              (i = 1 ∧ s = ∅) ∨ (i = 2 ∧ s = start) ∨
              (∃ k, nfa.states_handled st !! k = Some s ∧ i = 2 + Z.of_nat k);
  inv_tf_dom : ∀ i, is_Some (nfa.l_transition_function st !! i) ↔
                 2 ≤ i < 2 + Z.of_nat (length (nfa.states_handled st));
  inv_tf_row : ∀ i row, nfa.l_transition_function st !! i = Some row →
                 (∀ symbol, is_Some (row !! symbol) ↔ symbol ∈ nfa.alphabet self) ∧
                 (∀ symbol d0, row !! symbol = Some d0 →
                    ∃ d, d0 = nfa.DSet d ∧
                         (d = ∅ ∨ d ∈ nfa.states_handled st ∨ d ∈ nfa.queue st));
  inv_fe : nfa.found_empty st = true ↔
             ∃ i row symbol, nfa.l_transition_function st !! i = Some row ∧
                             row !! symbol = Some (nfa.DSet ∅)
}.

(** What [_nfa_conversion] returns, in terms of the list [sets] of the
    state sets it handled, in the order it handled them: the k-th set
    has the id 2 + k, the empty set has the id 1 when it was reached. *)
Record conv_spec (start : gset K) (sets : list (gset K)) (c : nfa.conversion K)
  : Prop := {
  cs_nodup : NoDup sets;
  cs_first : sets !! O = Some start;
  cs_nonempty : ∀ s, s ∈ sets → s ≠ ∅;
  cs_start : nfa.c_start_state c = if nfa.c_found_empty c then 2 else 1;
  cs_num : nfa.c_number_of_states c
           = Z.of_nat (length sets) + (if nfa.c_found_empty c then 1 else 0);
  cs_map : ∀ s i, nfa.c_int_mapping c !! s = Some i ↔
             (s = ∅ ∧ i = 1 ∧ nfa.c_found_empty c = true) ∨
             (∃ k, sets !! k = Some s ∧ i = 2 + Z.of_nat k);
  cs_rev : ∀ i s, nfa.c_int_mapping_reverse c !! i = Some s ↔
             (i = 1 ∧ s = ∅ ∧ nfa.c_found_empty c = true) ∨
             (∃ k, sets !! k = Some s ∧ i = 2 + Z.of_nat k);
  cs_dom : ∀ i, is_Some (nfa.c_transition_function c !! i) ↔
             (2 ≤ i < 2 + Z.of_nat (length sets)) ∨
             (i = 1 ∧ nfa.c_found_empty c = true);
  cs_row : ∀ i row, 2 ≤ i → nfa.c_transition_function c !! i = Some row →
             (∀ symbol, is_Some (row !! symbol) ↔ symbol ∈ nfa.alphabet self) ∧
             (∀ symbol d0, row !! symbol = Some d0 →
                ∃ d, d0 = nfa.DSet d ∧
                     ((d = ∅ ∧ nfa.c_found_empty c = true) ∨ d ∈ sets));
  cs_row1 : nfa.c_found_empty c = true →
            ∃ row1, nfa.c_transition_function c !! 1 = Some row1 ∧
                    ∀ symbol, row1 !! symbol
                              = if decide (symbol ∈ nfa.alphabet self)
                                then Some (nfa.DInt 1) else None;
  cs_fe : nfa.c_found_empty c = true ↔
            ∃ i row symbol, 2 ≤ i ∧ nfa.c_transition_function c !! i = Some row ∧
                            row !! symbol = Some (nfa.DSet ∅)
}.

(** By how much [_finalize_dfa] lowers the ids of the conversion. *)
Definition shift_of (c : nfa.conversion K) : Z :=
  if nfa.c_found_empty c then 0 else 1.

(** What [_finalize_dfa] returns: the ids of the conversion lowered by
    [shift_of c], rows of integers, the accept set read off the reverse
    mapping. *)
Record dfa_spec (sets : list (gset K)) (c : nfa.conversion K) (d : dfa.DFA Z)
  : Prop := {
  ds_alphabet : dfa.alphabet d = nfa.alphabet self;
  ds_start : dfa.start_state d = 2 - shift_of c;
  ds_num : dfa.number_of_states d = Z.of_nat (length sets) + 1 - shift_of c;
  ds_dom : ∀ i, is_Some (dfa.transition_function d !! i) ↔
                is_Some (nfa.c_transition_function c !! (i + shift_of c));
  ds_row : ∀ i crow, 2 ≤ i → nfa.c_transition_function c !! i = Some crow →
             ∃ row, dfa.transition_function d !! (i - shift_of c) = Some row ∧
               ∀ symbol,
                 (symbol ∉ nfa.alphabet self → row !! symbol = None) ∧
                 (symbol ∈ nfa.alphabet self →
                    ∃ dset j, crow !! symbol = Some (nfa.DSet dset) ∧
                              nfa.c_int_mapping c !! dset = Some j ∧
                              row !! symbol = Some (j - shift_of c));
  ds_row1 : nfa.c_found_empty c = true →
            ∃ row1, dfa.transition_function d !! 1 = Some row1 ∧
                    ∀ symbol, row1 !! symbol
                              = if decide (symbol ∈ nfa.alphabet self)
                                then Some 1 else None;
  ds_accept : ∀ a, a ∈ dfa.accept_states d ↔
                ∃ s, 2 ≤ a + shift_of c ∧
                     nfa.c_int_mapping_reverse c !! (a + shift_of c) = Some s ∧
                     accepting s = true
}.
End ConversionSpec.

(** ** Tokens *)

(** [s] without the concatenation markers. *)
Definition without_concat (tokens : list pystr) : list pystr :=
  List.filter (λ t, negb (bool_decide (t = s_concat))) tokens.

(** A token is one character of the class or of [e N | * ( )], or a
    backslash followed by one of [N | ( ) *] or by a backslash. *)
Definition token_shape (cls : list N) (t : pystr) : Prop :=
  (∃ c, t = [c] ∧ (c ∈ py "eN|*()" ∨ c ∈ cls)) ∨
  (∃ d, t = [ch_backslash; d] ∧ (d ∈ py "N|()*" ∨ d = ch_backslash)).

(** ** The parser *)

(** A tree as the parser builds them: an operand (type 0) has no
    children; an operator (type 1) is no symbol and has as many children
    as [operator_operand_mapping] gives for its value. *)
Fixpoint well_formed (n : tree.Node) : bool :=
  let 'tree.mkNode v cs t sym := n in
  forallb well_formed cs &&
  (if bool_decide (t = 0)
   then match cs with [] => true | _ => false end
   else negb sym &&
        bool_decide (regex.operator_operand_mapping !! v = Some (Z.of_nat (length cs)))).

(** The number of levels of a tree: the depth of nested calls
    [depth_first_recursive] needs for it. *)
Fixpoint height (n : tree.Node) : nat :=
  let 'tree.mkNode _ cs _ _ := n in
  S (foldr Nat.max O (List.map height cs)).

(** The operators the parser keeps on its stack. *)
Definition stack_operator (operator : pystr) : Prop :=
  operator = s_lparen ∨ operator = s_star ∨ operator = s_bar ∨ operator = s_concat.

(** The two stacks of the parser: well-formed trees, and operators of
    the four kinds. *)
Definition stacks_ok (operand_stack : list tree.Node) (operator_stack : list pystr)
  : Prop :=
  Forall (λ x, well_formed x = true) operand_stack ∧
  Forall stack_operator operator_stack.

(** A step of the parser ends in two such stacks, in
    [InvalidExpression] or in [IndexError]. *)
Definition parser_outcome (r : res (list tree.Node * list pystr)) : Prop :=
  match r with
  | Ok (operand_stack, operator_stack) => stacks_ok operand_stack operator_stack
  | Raise e => e = InvalidExpression ∨ e = IndexError
  | NoFuel => False
  end.

(** ** The states of a SimpleNFA *)

(** Every state a table mentions, as a key or as a target, is above
    [lo] and at most [hi]. *)
Definition table_within (lo hi : Z) (tf : gmap Z (gmap pystr (gset Z))) : Prop :=
  ∀ s row, tf !! s = Some row →
    lo < s ≤ hi ∧ ∀ symbol tgt t, row !! symbol = Some tgt → t ∈ tgt → lo < t ≤ hi.

(** The states of an automaton built after [last] was the last state in
    use: all of them are above [last] and at most its [last_state]. *)
Definition states_within (last : Z) (nfa : tree.SimpleNFA) : Prop :=
  last < tree.start_state nfa ≤ tree.last_state nfa ∧
  (∀ a, a ∈ tree.accept_states nfa → last < a ≤ tree.last_state nfa) ∧
  table_within last (tree.last_state nfa) (tree.transition_function nfa).

(** The row the loop of [concat_to_nfa] leaves for an accept state of
    the left automaton whose row was [row]. *)
Definition linked_row (target : Z) (row : option (gmap pystr (gset Z)))
  : gmap pystr (gset Z) :=
  match row with
  | Some row =>
      match row !! s_e with
      | Some tgt => <[ s_e := tgt ∪ {[ target ]} ]> row
      | None => {[ s_e := {[ target ]} ]}
      end
  | None => {[ s_e := {[ target ]} ]}
  end.

(** ** The outcome of the description-file reader *)

(** An outcome that is no value is [FileFormatError], [IndexError], or
    what [int] gave on some string. *)
Definition reader_failure {A} (int : pystr → res Z) (r : res A) : Prop :=
  match r with
  | Ok _ => True
  | Raise e => e = FileFormatError ∨ e = IndexError ∨ ∃ s, int s = Raise e
  | NoFuel => ∃ s, int s = NoFuel
  end.

(** ** The language of an NFA

    The reference semantics the subset construction is compared with,
    read off the table through [_get_transition]: an epsilon step
    follows an entry under the symbol ['e'], a reading step an entry
    under the character read. *)
Section Language.
Context `{Countable K}.
Variable self : nfa.NFA K.

Definition eps_step (p q : K) : Prop := q ∈ nfa._get_transition self p s_e.

(** [q] is reached from [p] by epsilon steps alone. *)
Definition eps_reach : K → K → Prop := rtc eps_step.

(** [q] is reached from [p] by reading [str], with epsilon steps before
    and after every character. *)
Inductive nfa_path : K → pystr → K → Prop :=
| path_stop (p q : K) : eps_reach p q → nfa_path p [] q
| path_read (p p1 p2 : K) (ch : N) (str : pystr) (q : K) :
    eps_reach p p1 → p2 ∈ nfa._get_transition self p1 [ch] →
    nfa_path p2 str q → nfa_path p (ch :: str) q.

(** [q] is an accept state: [accept_states] is not [None] and holds
    [q]. *)
Definition accept_state (q : K) : Prop :=
  ∃ accept_states, nfa.accept_states self = Some accept_states ∧ q ∈ accept_states.

Definition nfa_accepts (str : pystr) : Prop :=
  ∃ q, nfa_path (nfa.start_state self) str q ∧ accept_state q.

(** The states reached from a state of [S] by one entry under [symbol]
    followed by epsilon steps. *)
Definition step_set (S : gset K) (symbol : pystr) (q : K) : Prop :=
  ∃ p q0, p ∈ S ∧ q0 ∈ nfa._get_transition self p symbol ∧ eps_reach q0 q.

(** The rows of the table under construction hold the sets
    [step_set] describes. *)
Definition rows_exact (tf : gmap Z (gmap pystr (nfa.dest K)))
    (reverse : gmap Z (gset K)) : Prop :=
  ∀ i row, tf !! i = Some row → 2 ≤ i →
    ∃ s, reverse !! i = Some s ∧
         ∀ symbol d, row !! symbol = Some (nfa.DSet d) →
                     ∀ q, q ∈ d ↔ step_set s symbol q.

(** A set of states that epsilon steps do not leave. *)
Definition eps_closed (S : gset K) : Prop :=
  ∀ p q, p ∈ S → eps_reach p q → q ∈ S.
End Language.

(** The set of NFA states a state of the DFA stands for: the one the
    reverse mapping of the conversion gives for its id. *)
Definition state_set `{Countable K} (c : nfa.conversion K) (x : Z) (S : gset K) : Prop :=
  nfa.c_int_mapping_reverse c !! (x + shift_of c) = Some S.

(** ** The language of a SimpleNFA *)

(** The same paths, one transition at a time. *)
Inductive nfa_steps `{Countable K} (self : nfa.NFA K) : K → pystr → K → Prop :=
| steps_done (p : K) : nfa_steps self p [] p
| steps_eps (p p' : K) (str : pystr) (q : K) :
    eps_step self p p' → nfa_steps self p' str q → nfa_steps self p str q
| steps_read (p p' : K) (ch : N) (str : pystr) (q : K) :
    p' ∈ nfa._get_transition self p [ch] → nfa_steps self p' str q →
    nfa_steps self p (ch :: str) q.

(** The strings made of any number of strings of [L], one after the
    other. *)
Inductive lang_star (L : pystr → Prop) : pystr → Prop :=
| star_nil : lang_star L []
| star_app (s1 s2 : pystr) : L s1 → lang_star L s2 → lang_star L (s1 ++ s2).

(** The code point of the letter that marks an epsilon edge. *)
Definition ch_e : N := 101.

(** The states of an automaton built after [last]. *)
Definition in_range (last : Z) (X : tree.SimpleNFA) (p : Z) : Prop :=
  last < p ≤ tree.last_state X.

(** ** The lexer *)

(** The scan of [_analyze_input] for one token value. *)
Definition scan_token (input : pystr) (token_value : lexer.TokenValue) : res (Z * bool) :=
  lexer.scan (lexer.dfa token_value) input 0
             (dfa.start_state (lexer.dfa token_value)) 0 false.

(** Whether the scan for a token value ends having reached an accept
    state with [len] as its longest match. *)
Definition scan_accepts (input : pystr) (len : Z) (token_value : lexer.TokenValue) : bool :=
  match scan_token input token_value with
  | Ok (l, true) => bool_decide (l = len)
  | _ => false
  end.

(** The token value [_analyze_input] settles on, from the candidates. *)
Definition result_token (accepting_token_values : list lexer.TokenValue)
  : option lexer.TokenValue :=
  match accepting_token_values with
  | [token_value] => Some token_value
  | _ => lexer._multiple_token_decider accepting_token_values
  end.

(** The outcome of a scan whose input starts [k] characters later. *)
Definition shift_scan (k : Z) (r : res (Z * bool)) : res (Z * bool) :=
  match r with
  | Ok (l, true) => Ok (l + k, true)
  | _ => r
  end.

(** The longest match so far, for an input that starts [n] characters
    later. *)
Definition shift_len (n : nat) (fin : Z) : Z :=
  if bool_decide (0 < fin) then fin + Z.of_nat n else fin.

(** The start state is one of the states 1..number_of_states, and every
    one of them has a transition on every symbol of the alphabet into
    them. *)
Definition total_dfa (d : dfa.DFA Z) : Prop :=
  1 ≤ dfa.start_state d ≤ dfa.number_of_states d ∧
  ∀ q symbol, 1 ≤ q ≤ dfa.number_of_states d → symbol ∈ dfa.alphabet d →
    ∃ t, dfa.transition d q symbol = Ok t ∧ 1 ≤ t ≤ dfa.number_of_states d.

(* ================================================================== *)
(** * The regular-expression pipeline on concrete inputs *)
(* ================================================================== *)

(** The parser gives [ab] the tree of a concatenation whose value is the
    marker of [regex.py]. *)
Lemma parse_ab :
  regex.parse (py "ab") [py "a"; py "b"] =
  Ok (tree.mkNode s_concat
        [tree.mkNode (py "a") [] 0 true; tree.mkNode (py "b") [] 0 true] 1 false).
Proof. reflexivity. Qed.

(** [depth_first] does not recognise that node as a concatenation: the
    marker differs from the literal it is compared with, and the node is
    turned into the automaton of a single symbol.  The tree has two
    levels, so two nested calls are needed. *)
Lemma depth_first_ab (frames : nat) :
  (root ← regex.parse (py "ab") [py "a"; py "b"];
   tree.depth_first (2 + frames) root) =
  Ok (tree.mkSimpleNFA {[ 1 := {[ s_concat := {[ 2 ]} ]} ]} [2] 1 2).
Proof. reflexivity. Qed.

(** C1.  The claim says that [RegEx.simulate] decides membership in the
    language of the regular expression, and that [ab] accepts the string
    ["ab"].  On the alphabet [ab] and the regular expression [ab] the
    code answers False for ["ab"], whenever the interpreter allows the
    two nested calls the tree of [ab] needs. *)
Theorem C1_regex_ab_rejects_ab (frames : nat) :
  regex.matches (2 + frames) 50 (py "ab") (py "ab") (py "ab") = Ok false.
Proof. vm_compute. reflexivity. Qed.

(** The second example of the claim fails for the same reason. *)
Lemma regex_abb_rejects_abb (frames : nat) :
  regex.matches (6 + frames) 50 (py "ab") (py "(a|b)*abb") (py "abb") = Ok false.
Proof. vm_compute. reflexivity. Qed.

(** A second defect, independent of the first: the star of a starred
    expression loses the inner loop ([kleene_star_to_nfa] overwrites the
    row of each accept state), so the star of [a*] in parentheses rejects
    ["a"]. *)
Lemma regex_star_star_rejects_a (frames : nat) :
  regex.matches (3 + frames) 50 (py "a") (py "(a*)*") (py "a") = Ok false.
Proof. vm_compute. reflexivity. Qed.

(** Union and a single star behave as expected. *)
Lemma regex_union_examples (frames : nat) :
  regex.matches (2 + frames) 50 (py "ab") (py "a|b") (py "a") = Ok true ∧
  regex.matches (2 + frames) 50 (py "ab") (py "a|b") (py "b") = Ok true ∧
  regex.matches (2 + frames) 50 (py "ab") (py "a|b") (py "ab") = Ok false ∧
  regex.matches (2 + frames) 50 (py "ab") (py "a*") (py "aaa") = Ok true.
Proof. repeat split; vm_compute; reflexivity. Qed.

(** A tree with more levels than the interpreter allows nested calls:
    the [RecursionError] of [depth_first_recursive] leaves
    [RegEx.__init__]. *)
Lemma regex_star_star_RecursionError :
  regex.init 2 (py "a") (py "(a*)*") = Raise RecursionError.
Proof. vm_compute. reflexivity. Qed.

(** The parser builds a tree with one level for every star that follows
    an operand: for [a] followed by 1100 stars a depth of 1000 calls
    does not suffice. *)
Lemma regex_deep_star_RecursionError :
  regex.init 1000 (py "a") (py "a" ++ replicate 1100 42%N) = Raise RecursionError.
Proof. vm_compute. reflexivity. Qed.

(** C4.  The claim says that an unmatched [)] and an operator short of
    operands make the parse fail with [InvalidExpression] and with
    nothing else.  The [')'] branch of [_parse_regex] does nothing when
    the operator stack is empty, so [a)] parses to the tree of [a]; and
    it pops operands without counting them, so [(|)] ends in an
    [IndexError], which [RegEx.__init__] does not catch (whatever depth
    of calls the interpreter allows: the tree is never built). *)
Theorem C4_paren_branch_misses_checks (frames : nat) :
  regex.parse (py "a)") [py "a"] = Ok (tree.mkNode (py "a") [] 0 true) ∧
  regex.parse (py "(|)") [py "a"] = Raise IndexError ∧
  regex.init frames (py "a") (py "(|)") = Raise IndexError.
Proof. repeat split; vm_compute; reflexivity. Qed.

(** The other two reduction sites do raise [InvalidExpression]. *)
Lemma parse_invalid_expression_examples :
  regex.parse (py "(a") [py "a"] = Raise InvalidExpression ∧
  regex.parse (py "a|") [py "a"] = Raise InvalidExpression ∧
  regex.parse (py "*a") [py "a"] = Raise InvalidExpression ∧
  regex.parse (py "a|a)") [py "a"] = Raise InvalidExpression.
Proof. repeat split; vm_compute; reflexivity. Qed.

(* ================================================================== *)
(** * The DFA description reader on concrete inputs *)
(* ================================================================== *)

(** C8.  The claim says that every malformed description, a missing
    start-state line among them, fails with [FileFormatError] and with no
    other exception.  A file that ends after the alphabet line makes
    [transition_data[0]] raise [IndexError]. *)
Theorem C8_missing_start_state_IndexError :
  dfa.read_dfa (text_of_lines [py "1"; py "a"]) = Raise IndexError.
Proof. vm_compute. reflexivity. Qed.

(** The other malformations named by the claim are reported as the
    claim says. *)
Lemma read_dfa_format_errors :
  dfa.read_dfa (text_of_lines [py "x"; py "a"; py "1"; py ""]) = Raise FileFormatError ∧
  dfa.read_dfa (text_of_lines [py "1"; py "a"; py "2 'a' 1"; py "1"; py ""])
    = Raise FileFormatError ∧
  dfa.read_dfa (text_of_lines [py "1"; py "a"; py "1 'b' 1"; py "1"; py ""])
    = Raise FileFormatError ∧
  dfa.read_dfa (text_of_lines [py "1"; py "a"; py "1 'a' 1"; py "1"; py ""; py "x"])
    = Raise FileFormatError.
Proof. repeat split; vm_compute; reflexivity. Qed.


(* ================================================================== *)
(** * The lexer *)
(* ================================================================== *)

Lemma dfa_a_from_regex (frames : nat) :
  (self ← regex.init (1 + frames) (py "a") (py "a");
   match regex.nfa self with
   | Some n => nfa.to_DFA n 20
   | None => Raise TypeError
   end) = Ok dfa_a.
Proof. vm_compute. reflexivity. Qed.

Lemma remove_char_replicate (c : N) (n : nat) :
  remove_char c (replicate n c) = [].
Proof.
  unfold remove_char. induction n as [|n IH]; [reflexivity|].
  cbn [replicate List.filter]. rewrite bool_decide_eq_true_2 by reflexivity.
  exact IH.
Qed.

(** A DFA that has not reached an accept state skips separators. *)
Lemma scan_spaces (d : dfa.DFA Z) (n : nat) (i curr_state longest : Z) :
  lexer.scan d (replicate n ch_space) i curr_state longest false = Ok (longest, false).
Proof.
  revert i. induction n as [|n IH]; intros i; [reflexivity|].
  cbn [replicate lexer.scan]. rewrite bool_decide_eq_true_2 by reflexivity.
  apply IH.
Qed.

Lemma analyze_loop_spaces (n : nat) (dfas : list (pystr * lexer.TokenValue))
    (acc : list lexer.TokenValue) (final : Z) :
  lexer.analyze_loop (replicate n ch_space) dfas acc final = Ok (acc, final).
Proof.
  induction dfas as [|[ty tv] dfas IH]; [reflexivity|].
  cbn [lexer.analyze_loop]. rewrite scan_spaces.
  cbn [mbind res_bind]. exact IH.
Qed.

(** C2.  The claim says that [next_token] signals the end of the input
    whenever what remains is empty once the separators are trimmed, in
    particular when only spaces remain.  [next_token] tests the remaining
    input before anything is trimmed: when the source text consists of
    spaces only (a file of blank lines), the call raises [InvalidToken],
    whatever the token types are, and only then empties the input. *)
Theorem C2_only_spaces_InvalidToken (dfas : list (pystr * lexer.TokenValue)) (n : nat) :
  lexer.next_token (lexer.mkLex (replicate (S n) ch_space) dfas)
  = (Raise InvalidToken, lexer.mkLex [] dfas).
Proof.
  unfold lexer.next_token, lexer._analyze_input.
  cbn [lexer.source_file_data lexer.generated_dfas].
  rewrite analyze_loop_spaces.
  change (replicate (S n) ch_space) with (ch_space :: replicate n ch_space).
  cbn [mbind res_bind lexer._multiple_token_decider foldl fst Z.to_nat drop take].
  change (ch_space :: replicate n ch_space) with (replicate (S n) ch_space).
  change (Z.to_nat 0) with O. rewrite drop_0, remove_char_replicate.
  reflexivity.
Qed.

(** The call after that one does signal the end of the input. *)
Lemma next_token_empty_EOFError (dfas : list (pystr * lexer.TokenValue)) :
  lexer.next_token (lexer.mkLex [] dfas) = (Raise EOFError, lexer.mkLex [] dfas).
Proof. reflexivity. Qed.

(** C9.  The claim says that [next_token] raises [InvalidToken] and
    consumes nothing when characters remain and no DFA accepts.  With the
    one token type [A "a"] over the alphabet [a] and the source text
    ["b"], no DFA reaches an accept state, and the call ends in the
    [KeyError] of [DFA.transition]: the table has no entry for a
    character outside the alphabet. *)
Theorem C9_unknown_character_KeyError :
  let lex := lexer.mkLex (py "b") [(py "A", lexer.mkTokenValue dfa_a (py "A") 0)] in
  lexer.next_token lex = (Raise KeyError, lex).
Proof. vm_compute. reflexivity. Qed.

(** C7.  The claim says that a tie between token types is won by the one
    declared first.  [_multiple_token_decider] starts its search for the
    lowest rank from the constant 10000000 and returns [None] when no
    candidate has a rank below it; [next_token] then raises
    [InvalidToken] although two token types match, and the matched
    character is consumed. *)
Theorem C7_ranks_above_sentinel_InvalidToken :
  let dfas := [(py "A", lexer.mkTokenValue dfa_a (py "A") 10000000);
               (py "B", lexer.mkTokenValue dfa_a (py "B") 10000001)] in
  lexer.next_token (lexer.mkLex (py "a") dfas)
  = (Raise InvalidToken, lexer.mkLex [] dfas).
Proof. vm_compute. reflexivity. Qed.

(** With ranks below the constant the same tie goes to the lower rank,
    in either iteration order. *)
Lemma tie_break_example :
  let a := lexer.mkTokenValue dfa_a (py "A") 0 in
  let b := lexer.mkTokenValue dfa_a (py "B") 1 in
  lexer.next_token (lexer.mkLex (py "a") [(py "A", a); (py "B", b)])
  = (Ok (py "A", py "a"), lexer.mkLex [] [(py "A", a); (py "B", b)]) ∧
  lexer.next_token (lexer.mkLex (py "a") [(py "B", b); (py "A", a)])
  = (Ok (py "A", py "a"), lexer.mkLex [] [(py "B", b); (py "A", a)]).
Proof. split; vm_compute; reflexivity. Qed.

(* ================================================================== *)
(** * The lexer when the scans complete *)
(* ================================================================== *)

Lemma scan_accepts_true (input : pystr) (len : Z) (tv : lexer.TokenValue) :
  scan_token input tv = Ok (len, true) → scan_accepts input len tv = true.
Proof. unfold scan_accepts. intros ->. by apply bool_decide_eq_true_2. Qed.

Lemma scan_accepts_false (input : pystr) (len : Z) (tv : lexer.TokenValue) :
  scan_token input tv ≠ Ok (len, true) → scan_accepts input len tv = false.
Proof.
  unfold scan_accepts. intros Hne.
  destruct (scan_token input tv) as [[l []]| |]; try reflexivity.
  apply bool_decide_eq_false_2. intros ->. by apply Hne.
Qed.

Lemma scan_accepts_spec (input : pystr) (len : Z) (tv : lexer.TokenValue) :
  scan_accepts input len tv = true ↔ scan_token input tv = Ok (len, true).
Proof.
  split; [|apply scan_accepts_true].
  unfold scan_accepts. destruct (scan_token input tv) as [[l []]| |]; try discriminate.
  intros Hl. by apply bool_decide_eq_true_1 in Hl as ->.
Qed.

(* ================================================================== *)

(** A scan raises nothing but the [KeyError] of a missing table entry. *)
Lemma scan_raises_KeyError (d : dfa.DFA Z) (input : pystr) :
  ∀ i curr longest reached,
    match lexer.scan d input i curr longest reached with
    | Ok _ => True
    | Raise e => e = KeyError
    | NoFuel => False
    end.
Proof.
  induction input as [|ch input IH]; intros i curr longest reached; [exact I|].
  cbn [lexer.scan]. destruct (bool_decide (ch = ch_space)).
  - destruct reached; [exact I|apply IH].
  - unfold dfa.transition, getitem.
    destruct (dfa.transition_function d !! curr) as [row|]; cbn [mbind res_bind];
      [|reflexivity].
    destruct (row !! [ch]) as [next|]; cbn [mbind res_bind]; [|reflexivity].
    destruct (bool_decide (next = 1)); [exact I|].
    destruct (bool_decide (next ∈ dfa.accept_states d)); apply IH.
Qed.

(** [_multiple_token_decider] returns a token value of lowest rank when
    some rank is below its constant, and [None] otherwise. *)
Lemma multiple_token_decider_spec (tokens : list lexer.TokenValue) :
  match lexer._multiple_token_decider tokens with
  | Some t => t ∈ tokens ∧ lexer.order t < 10000000 ∧
              ∀ t', t' ∈ tokens → lexer.order t ≤ lexer.order t'
  | None => ∀ t', t' ∈ tokens → 10000000 ≤ lexer.order t'
  end.
Proof.
  unfold lexer._multiple_token_decider.
  assert (∀ seen st,
            (match fst st with
             | Some t => t ∈ seen ∧ lexer.order t = snd st ∧ snd st < 10000000
             | None => snd st = 10000000
             end ∧ ∀ t', t' ∈ seen → snd st ≤ lexer.order t') →
            let st' := foldl (λ '(token_val, lowest_order) token,
                          let token_order := lexer.order token in
                          if bool_decide (token_order < lowest_order)
                          then (Some token, token_order)
                          else (token_val, lowest_order)) st tokens in
            match fst st' with
            | Some t => t ∈ seen ++ tokens ∧ lexer.order t = snd st' ∧
                        snd st' < 10000000
            | None => snd st' = 10000000
            end ∧ ∀ t', t' ∈ seen ++ tokens → snd st' ≤ lexer.order t') as Hgen.
  { induction tokens as [|tok tokens IH]; intros seen [tv lo] Hinv.
    - cbn [foldl]. by rewrite app_nil_r.
    - cbn [foldl].
      replace (seen ++ tok :: tokens) with ((seen ++ [tok]) ++ tokens)
        by (by rewrite <- app_assoc).
      apply IH. destruct Hinv as [Htv Hlo]. cbn [fst snd] in *.
      destruct (decide (lexer.order tok < lo)) as [Hlt|Hge].
      + rewrite bool_decide_eq_true_2 by exact Hlt. cbn [fst snd]. split.
        * split; [apply elem_of_app; right; apply list_elem_of_here|].
          split; [reflexivity|]. destruct tv as [t|]; [lia|lia].
        * intros t' Ht'. apply elem_of_app in Ht' as [Ht'|Ht'].
          -- apply Hlo in Ht'. lia.
          -- apply list_elem_of_singleton in Ht' as ->. lia.
      + rewrite bool_decide_eq_false_2 by exact Hge. cbn [fst snd]. split.
        * destruct tv as [t|]; [|exact Htv].
          destruct Htv as (? & ? & ?). split; [|done].
          apply elem_of_app. by left.
        * intros t' Ht'. apply elem_of_app in Ht' as [Ht'|Ht'].
          -- by apply Hlo.
          -- apply list_elem_of_singleton in Ht' as ->. lia. }
  specialize (Hgen [] (None, 10000000)). cbn [fst snd app] in Hgen.
  destruct Hgen as [Htv Hlo].
  { split; [reflexivity|]. intros t' Ht'. by apply not_elem_of_nil in Ht'. }
  destruct (fst _) as [t|].
  - destruct Htv as (? & Heq & ?). split; [done|]. split; [lia|].
    intros t' Ht'. rewrite Heq. by apply Hlo.
  - intros t' Ht'. rewrite <- Htv. by apply Hlo.
Qed.

(** The candidates and the length [analyze_loop] ends with: the length
    is the greatest one any accepting scan reports, and the candidates
    are the token values that report it, in iteration order. *)
Lemma analyze_loop_spec (input : pystr) (dfas : list (pystr * lexer.TokenValue)) :
  ∀ acc fin acc' fin',
    lexer.analyze_loop input dfas acc fin = Ok (acc', fin') →
    fin ≤ fin' ∧
    (∀ tv l, tv ∈ dfas.*2 → scan_token input tv = Ok (l, true) → l ≤ fin') ∧
    (fin' = fin ∨ ∃ tv, tv ∈ dfas.*2 ∧ scan_token input tv = Ok (fin', true)) ∧
    acc' = (if decide (fin' = fin) then acc else [])
           ++ List.filter (scan_accepts input fin') (dfas.*2).
Proof.
  induction dfas as [|[ty tv] dfas IH]; intros acc fin acc' fin' Hloop.
  - injection Hloop as <- <-. split; [lia|]. split.
    + intros tv l Htv. by apply not_elem_of_nil in Htv.
    + split; [by left|].
      rewrite decide_True by reflexivity. by rewrite app_nil_r.
  - cbn [lexer.analyze_loop] in Hloop. fold (scan_token input tv) in Hloop.
    destruct (scan_token input tv) as [[l reached]| |] eqn:Hscan;
      cbn [mbind res_bind] in Hloop; try discriminate.
    cbn [fmap list_fmap snd List.filter].
    assert (∀ a f, lexer.analyze_loop input dfas a f = Ok (acc', fin') →
              (reached = true → l ≤ f) →
              (f = fin ∨ (reached = true ∧ l = f)) → fin ≤ f →
              a = (if decide (f = fin) then acc else []) ++
                  (if scan_accepts input f tv then [tv] else []) →
              fin ≤ fin' ∧
              (∀ tv0 l0, tv0 ∈ tv :: dfas.*2 →
                         scan_token input tv0 = Ok (l0, true) → l0 ≤ fin') ∧
              (fin' = fin ∨ ∃ tv0, tv0 ∈ tv :: dfas.*2 ∧
                                   scan_token input tv0 = Ok (fin', true)) ∧
              acc' = (if decide (fin' = fin) then acc else []) ++
                     (if scan_accepts input fin' tv
                      then tv :: List.filter (scan_accepts input fin') (dfas.*2)
                      else List.filter (scan_accepts input fin') (dfas.*2))) as Hstep.
    { intros a f Hrec Hmax Hwho Hle Ha.
      apply IH in Hrec as (Hle' & Hmax' & Hwho' & Hacc').
      split; [lia|]. split; [|split].
      - intros tv0 l0 Htv0 Hs0. apply elem_of_cons in Htv0 as [->|Htv0].
        + rewrite Hscan in Hs0. injection Hs0 as -> ->.
          specialize (Hmax eq_refl). lia.
        + by eapply Hmax'.
      - destruct Hwho' as [->|(tv0 & Htv0 & Hs0)].
        + destruct Hwho as [->|[-> ->]]; [by left|].
          right. exists tv. split; [apply list_elem_of_here|exact Hscan].
        + right. exists tv0. split; [by apply list_elem_of_further|exact Hs0].
      - rewrite Hacc', Ha. destruct (decide (fin' = f)) as [->|Hne].
        + destruct (scan_accepts input f tv); by rewrite <- app_assoc.
        + rewrite (decide_False (P := fin' = fin)).
          2:{ intros ->. lia. }
          rewrite (scan_accepts_false input fin' tv); [reflexivity|].
          rewrite Hscan. intros [= -> ->]. specialize (Hmax eq_refl). lia. }
    destruct reached.
    + destruct (decide (fin < l)) as [Hlt|Hge].
      * rewrite bool_decide_eq_true_2 in Hloop by exact Hlt.
        apply (Hstep _ _ Hloop).
        -- lia.
        -- by right.
        -- lia.
        -- rewrite decide_False by lia.
           by rewrite (scan_accepts_true _ _ _ Hscan).
      * rewrite bool_decide_eq_false_2 in Hloop by exact Hge.
        destruct (decide (l = fin)) as [->|Hne].
        -- rewrite bool_decide_eq_true_2 in Hloop by reflexivity.
           apply (Hstep _ _ Hloop).
           ++ lia.
           ++ by left.
           ++ lia.
           ++ rewrite decide_True by reflexivity.
              by rewrite (scan_accepts_true _ _ _ Hscan).
        -- rewrite bool_decide_eq_false_2 in Hloop by exact Hne.
           apply (Hstep _ _ Hloop).
           ++ lia.
           ++ by left.
           ++ lia.
           ++ rewrite decide_True by reflexivity.
              rewrite scan_accepts_false; [by rewrite app_nil_r|].
              rewrite Hscan. intros [= ?]. done.
    + apply (Hstep _ _ Hloop).
      * discriminate.
      * by left.
      * lia.
      * rewrite decide_True by reflexivity.
        rewrite scan_accepts_false; [by rewrite app_nil_r|].
        rewrite Hscan. discriminate.
Qed.

(** The loop fails exactly when a scan fails, and then with [KeyError]. *)
Lemma analyze_loop_outcome (input : pystr) (dfas : list (pystr * lexer.TokenValue)) :
  ∀ acc fin,
    match lexer.analyze_loop input dfas acc fin with
    | Ok _ => Forall (λ tv, ∃ r, scan_token input tv = Ok r) (dfas.*2)
    | Raise e => e = KeyError ∧
                 Exists (λ tv, scan_token input tv = Raise KeyError) (dfas.*2)
    | NoFuel => False
    end.
Proof.
  induction dfas as [|[ty tv] dfas IH]; intros acc fin; [constructor|].
  cbn [lexer.analyze_loop fmap list_fmap snd]. fold (scan_token input tv).
  pose proof (scan_raises_KeyError (lexer.dfa tv) input 0
                (dfa.start_state (lexer.dfa tv)) 0 false) as Hscan.
  fold (scan_token input tv) in Hscan.
  destruct (scan_token input tv) as [[l reached]|e|] eqn:Hs; cbn [mbind res_bind];
    [|subst e; split; [reflexivity|by apply Exists_cons_hd]|done].
  assert (∀ a f, match lexer.analyze_loop input dfas a f with
                 | Ok _ => Forall (λ tv, ∃ r, scan_token input tv = Ok r)
                                  (tv :: dfas.*2)
                 | Raise e => e = KeyError ∧
                     Exists (λ tv, scan_token input tv = Raise KeyError)
                            (tv :: dfas.*2)
                 | NoFuel => False
                 end) as Hrest.
  { intros a f. specialize (IH a f).
    destruct (lexer.analyze_loop input dfas a f) as [r|e|]; [|..|done].
    - constructor; [eauto|exact IH].
    - destruct IH as [-> IH]. split; [reflexivity|by apply Exists_cons_tl]. }
  destruct reached; [|apply Hrest].
  destruct (bool_decide (fin < l)); [apply Hrest|].
  destruct (bool_decide (l = fin)); apply Hrest.
Qed.

Lemma List_filter_Permutation {A} (f : A → bool) (l l' : list A) :
  l ≡ₚ l' → List.filter f l ≡ₚ List.filter f l'.
Proof.
  induction 1 as [|x l l' _ IH|x y l|l1 l2 l3 _ IH1 _ IH2]; cbn [List.filter].
  - reflexivity.
  - destruct (f x); [by constructor|exact IH].
  - destruct (f x), (f y); try reflexivity. apply perm_swap.
  - by etrans.
Qed.

(** The candidates and the length do not depend on the order in which
    the stored DFAs are visited. *)
Lemma analyze_loop_Permutation (input : pystr)
    (dfas dfas' : list (pystr * lexer.TokenValue)) :
  dfas ≡ₚ dfas' →
  match lexer.analyze_loop input dfas [] 0, lexer.analyze_loop input dfas' [] 0 with
  | Ok (acc, fin), Ok (acc', fin') => fin = fin' ∧ acc ≡ₚ acc'
  | Raise e, Raise e' => e = e'
  | _, _ => False
  end.
Proof.
  intros Hperm.
  assert (dfas.*2 ≡ₚ dfas'.*2) as Hperm2 by (by apply fmap_Permutation).
  pose proof (analyze_loop_outcome input dfas [] 0) as Ho.
  pose proof (analyze_loop_outcome input dfas' [] 0) as Ho'.
  pose proof (analyze_loop_spec input dfas [] 0) as Hs.
  pose proof (analyze_loop_spec input dfas' [] 0) as Hs'.
  assert (∀ l l' : list lexer.TokenValue, l ≡ₚ l' →
            Forall (λ tv, ∃ r, scan_token input tv = Ok r) l →
            Exists (λ tv, scan_token input tv = Raise KeyError) l' → False) as Hno.
  { intros l l' Hp Hall Hex. rewrite <- Hp in Hex.
    apply Exists_exists in Hex as (tv & Htv & Hr).
    rewrite Forall_forall in Hall. destruct (Hall tv Htv) as [r Hr'].
    congruence. }
  destruct (lexer.analyze_loop input dfas [] 0) as [[acc fin]|e|];
    destruct (lexer.analyze_loop input dfas' [] 0) as [[acc' fin']|e'|];
    try done.
  - destruct (Hs _ _ eq_refl) as (Hle & Hmax & Hwho & Hacc).
    destruct (Hs' _ _ eq_refl) as (Hle' & Hmax' & Hwho' & Hacc').
    assert (fin = fin') as <-.
    { assert (fin ≤ fin') as H1.
      { destruct Hwho as [->|(tv & Htv & Hr)]; [exact Hle'|].
        rewrite Hperm2 in Htv. by eapply Hmax'. }
      assert (fin' ≤ fin) as H2.
      { destruct Hwho' as [->|(tv & Htv & Hr)]; [exact Hle|].
        rewrite <- Hperm2 in Htv. by eapply Hmax. }
      lia. }
    split; [reflexivity|]. rewrite Hacc, Hacc'.
    destruct (decide (fin = 0)); cbn [app]; by apply List_filter_Permutation.
  - destruct Ho' as [_ Ho']. by destruct (Hno _ _ Hperm2 Ho Ho').
  - destruct Ho as [_ Ho]. symmetry in Hperm2. by destruct (Hno _ _ Hperm2 Ho' Ho).
  - destruct Ho as [-> _], Ho' as [-> _]. reflexivity.
Qed.

Lemma order_inj_of_NoDup (l : list lexer.TokenValue) (t t' : lexer.TokenValue) :
  NoDup (lexer.order <$> l) → t ∈ l → t' ∈ l →
  lexer.order t = lexer.order t' → t = t'.
Proof.
  induction l as [|x l IH]; intros Hnd Ht Ht' Heq.
  - by apply not_elem_of_nil in Ht.
  - cbn [fmap list_fmap] in Hnd. apply NoDup_cons in Hnd as [Hx Hnd].
    apply elem_of_cons in Ht as [->|Ht]; apply elem_of_cons in Ht' as [->|Ht'].
    + reflexivity.
    + destruct Hx. rewrite Heq. by apply list_elem_of_fmap_2.
    + destruct Hx. rewrite <- Heq. by apply list_elem_of_fmap_2.
    + by apply IH.
Qed.

(** With pairwise different ranks the choice among the candidates does not
    depend on their order. *)
Lemma result_token_Permutation (all acc acc' : list lexer.TokenValue) :
  NoDup (lexer.order <$> all) → acc ⊆ all → acc ≡ₚ acc' →
  result_token acc = result_token acc'.
Proof.
  intros Hnd Hsub Hperm.
  assert (lexer._multiple_token_decider acc = lexer._multiple_token_decider acc')
    as Hdec.
  { pose proof (multiple_token_decider_spec acc) as Hs.
    pose proof (multiple_token_decider_spec acc') as Hs'.
    destruct (lexer._multiple_token_decider acc) as [t|];
      destruct (lexer._multiple_token_decider acc') as [t'|].
    - destruct Hs as (Ht & _ & Hmin), Hs' as (Ht' & _ & Hmin').
      f_equal. apply (order_inj_of_NoDup all); [exact Hnd|by apply Hsub|..].
      + apply Hsub. by rewrite Hperm.
      + assert (t' ∈ acc) as Hin' by (by rewrite Hperm).
        assert (t ∈ acc') as Hin by (by rewrite <- Hperm).
        specialize (Hmin t' Hin'). specialize (Hmin' t Hin). lia.
    - destruct Hs as (Ht & Hlt & _). rewrite Hperm in Ht. apply Hs' in Ht. lia.
    - destruct Hs' as (Ht & Hlt & _). rewrite <- Hperm in Ht. apply Hs in Ht. lia.
    - reflexivity. }
  unfold result_token.
  pose proof (Permutation_length Hperm) as Hlen.
  destruct acc as [|t [|t2 acc]]; destruct acc' as [|t' [|t2' acc']];
    try discriminate; try exact Hdec.
  f_equal. apply Permutation_singleton_inj. exact Hperm.
Qed.

Lemma analyze_loop_candidates (input : pystr) (dfas : list (pystr * lexer.TokenValue))
    (acc : list lexer.TokenValue) (fin : Z) :
  lexer.analyze_loop input dfas [] 0 = Ok (acc, fin) →
  acc ⊆ dfas.*2 ∧ ∀ tv, tv ∈ acc → scan_token input tv = Ok (fin, true).
Proof.
  intros Hloop. apply analyze_loop_spec in Hloop as (_ & _ & _ & ->).
  assert (∀ tv, tv ∈ (if decide (fin = 0) then [] else []) ++
                     List.filter (scan_accepts input fin) (dfas.*2) →
                tv ∈ dfas.*2 ∧ scan_token input tv = Ok (fin, true)) as Hin.
  { intros tv Htv. destruct (decide (fin = 0)); cbn [app] in Htv;
      apply list_elem_of_In, List.filter_In in Htv as [Htv Hacc];
      (split; [by apply list_elem_of_In|by apply scan_accepts_spec]). }
  split; intros tv Htv; by apply Hin.
Qed.

(** A scan that reports an accept state reports a length inside the part
    of the input it read, and the character at that length is not a
    separator; a scan that reports none keeps the length it started
    with. *)
Lemma scan_bounds (d : dfa.DFA Z) (input : pystr) :
  ∀ i curr longest reached l r,
    lexer.scan d input i curr longest reached = Ok (l, r) →
    (r = reached ∧ l = longest) ∨
    (r = true ∧ i + 1 ≤ l ≤ i + Z.of_nat (length input) ∧
     ∃ c, input !! Z.to_nat (l - i - 1) = Some c ∧ c ≠ ch_space).
Proof.
  induction input as [|ch input IH]; intros i curr longest reached l r Hscan.
  - injection Hscan as <- <-. by left.
  - cbn [lexer.scan] in Hscan.
    assert (∀ curr' longest' reached',
              lexer.scan d input (i + 1) curr' longest' reached' = Ok (l, r) →
              (r = reached' ∧ l = longest') ∨
              (r = true ∧ i + 1 ≤ l ≤ i + Z.of_nat (length (ch :: input)) ∧
               ∃ c, (ch :: input) !! Z.to_nat (l - i - 1) = Some c ∧ c ≠ ch_space))
      as Hrest.
    { intros curr' longest' reached' Hs.
      apply IH in Hs as [Hs|(-> & Hl & c & Hc & Hne)]; [by left|right].
      split; [reflexivity|]. cbn [length]. split; [lia|].
      exists c. split; [|exact Hne].
      replace (Z.to_nat (l - i - 1)) with (S (Z.to_nat (l - (i + 1) - 1))) by lia.
      exact Hc. }
    destruct (decide (ch = ch_space)) as [Hsp|Hsp].
    + rewrite bool_decide_eq_true_2 in Hscan by exact Hsp.
      destruct reached.
      * injection Hscan as <- <-. by left.
      * by apply Hrest in Hscan.
    + rewrite bool_decide_eq_false_2 in Hscan by exact Hsp.
      destruct (dfa.transition d curr [ch]) as [next| |]; cbn [mbind res_bind] in Hscan;
        try discriminate.
      destruct (bool_decide (next = 1)).
      { injection Hscan as <- <-. by left. }
      destruct (bool_decide (next ∈ dfa.accept_states d)).
      * apply Hrest in Hscan as [[-> ->]|Hs]; [|by right].
        right. split; [reflexivity|]. cbn [length]. split; [lia|].
        exists ch. split; [|exact Hsp].
        by replace (Z.to_nat (i + 1 - i - 1)) with O by lia.
      * by apply Hrest in Hscan.
Qed.

Lemma scan_token_accepts_bounds (input : pystr) (tv : lexer.TokenValue) (l : Z) :
  scan_token input tv = Ok (l, true) →
  1 ≤ l ≤ Z.of_nat (length input) ∧
  ∃ c, input !! Z.to_nat (l - 1) = Some c ∧ c ≠ ch_space.
Proof.
  intros Hs. apply scan_bounds in Hs as [[? _]|(_ & Hl & c & Hc & Hne)];
    [discriminate|].
  split; [lia|]. exists c. split; [|exact Hne].
  by replace (l - 1) with (l - 0 - 1) by lia.
Qed.

Lemma remove_char_nonempty (c d : N) (s : pystr) :
  d ∈ s → d ≠ c → remove_char c s ≠ [].
Proof.
  intros Hd Hne Hnil. unfold remove_char in Hnil.
  assert (d ∈ List.filter (λ d, negb (bool_decide (d = c))) s) as Hin.
  { apply list_elem_of_In, List.filter_In. split; [by apply list_elem_of_In|].
    by rewrite bool_decide_eq_false_2. }
  rewrite Hnil in Hin. by apply not_elem_of_nil in Hin.
Qed.

(** X1.  When the ranks of the stored token values are pairwise different, the
    outcome of [next_token] and the input it leaves do not depend on the
    order in which the dictionary of DFAs is iterated. *)
Theorem next_token_iteration_order (data : pystr)
    (dfas dfas' : list (pystr * lexer.TokenValue)) :
  dfas ≡ₚ dfas' →
  NoDup (lexer.order <$> dfas.*2) →
  (lexer.next_token (lexer.mkLex data dfas)).1
  = (lexer.next_token (lexer.mkLex data dfas')).1 ∧
  lexer.source_file_data (lexer.next_token (lexer.mkLex data dfas)).2
  = lexer.source_file_data (lexer.next_token (lexer.mkLex data dfas')).2.
Proof.
  intros Hperm Hnd. unfold lexer.next_token, lexer._analyze_input.
  cbn [lexer.source_file_data lexer.generated_dfas].
  destruct data as [|c data]; [done|]. set (input := c :: data).
  pose proof (analyze_loop_Permutation input dfas dfas' Hperm) as Hl.
  pose proof (analyze_loop_candidates input dfas) as Hc.
  destruct (lexer.analyze_loop input dfas [] 0) as [[acc fin]|e|];
    destruct (lexer.analyze_loop input dfas' [] 0) as [[acc' fin']|e'|];
    try done; cbn [mbind res_bind].
  - destruct Hl as [<- Hacc]. destruct (Hc _ _ eq_refl) as [Hsub _].
    pose proof (result_token_Permutation _ _ _ Hnd Hsub Hacc) as Hres.
    unfold result_token in Hres. rewrite <- Hres.
    destruct (match acc with
              | [token_value] => Some token_value
              | _ => lexer._multiple_token_decider acc
              end); done.
  - subst e'. done.
Qed.

(** X2.  The tie-break rule below the constant of
    [_multiple_token_decider].  On a non-empty input on which no scan
    fails, let [fin] be the greatest length at which the scan of a
    stored DFA reports an accept state.  When the token values whose
    scans report an accept state at [fin] all have ranks below
    10000000, [next_token] returns the type of one of them of lowest
    rank, with the input up to [fin], without its separators, as
    value. *)
Theorem next_token_lowest_rank (data : pystr) (dfas : list (pystr * lexer.TokenValue))
    (fin : Z) :
  data ≠ [] →
  (∀ tv, tv ∈ dfas.*2 → ∃ r, scan_token data tv = Ok r) →
  (∃ tv, tv ∈ dfas.*2 ∧ scan_token data tv = Ok (fin, true)) →
  (∀ tv l, tv ∈ dfas.*2 → scan_token data tv = Ok (l, true) → l ≤ fin) →
  (∀ tv, tv ∈ dfas.*2 → scan_token data tv = Ok (fin, true) →
         lexer.order tv < 10000000) →
  ∃ w, w ∈ dfas.*2 ∧ scan_token data w = Ok (fin, true) ∧
       (∀ tv, tv ∈ dfas.*2 → scan_token data tv = Ok (fin, true) →
              lexer.order w ≤ lexer.order tv) ∧
       (lexer.next_token (lexer.mkLex data dfas)).1
       = Ok (lexer.type w, remove_char ch_space (take (Z.to_nat fin) data)).
Proof.
  intros Hdata Hall (tv0 & Htv0 & Hs0) Hmax Hlt.
  unfold lexer.next_token, lexer._analyze_input.
  cbn [lexer.source_file_data lexer.generated_dfas].
  pose proof (analyze_loop_outcome data dfas [] 0) as Ho.
  pose proof (analyze_loop_spec data dfas [] 0) as Hs.
  pose proof (scan_token_accepts_bounds data tv0 fin Hs0) as [Hfin _].
  destruct data as [|c data]; [done|]. set (input := c :: data) in *.
  destruct (lexer.analyze_loop input dfas [] 0) as [[acc fin']|e|]; [|..|done].
  2:{ destruct Ho as [_ Ho]. apply Exists_exists in Ho as (tv & Htv & Hr).
      destruct (Hall tv Htv) as [r Hr']. congruence. }
  destruct (Hs _ _ eq_refl) as (_ & Hmax' & Hwho & Hacc).
  assert (fin' = fin) as ->.
  { pose proof (Hmax' tv0 fin Htv0 Hs0) as Hle.
    destruct Hwho as [->|(tv & Htv & Hr)]; [lia|].
    pose proof (Hmax tv fin' Htv Hr). lia. }
  rewrite decide_False in Hacc by lia. cbn [app] in Hacc.
  assert (∀ t, t ∈ acc ↔ t ∈ dfas.*2 ∧ scan_token input t = Ok (fin, true)) as Hin.
  { intros t. rewrite Hacc, !list_elem_of_In, List.filter_In, scan_accepts_spec.
    reflexivity. }
  cbn [mbind res_bind].
  pose proof (multiple_token_decider_spec acc) as Hdec.
  assert (tv0 ∈ acc) as Hacc0 by (by apply Hin).
  destruct acc as [|t [|t2 acc]]; [by apply not_elem_of_nil in Hacc0| |].
  - assert (tv0 = t) as -> by (by apply list_elem_of_singleton in Hacc0).
    exists t. split; [exact Htv0|]. split; [exact Hs0|]. split; [|reflexivity].
    intros tv Htv Hstv. assert (tv ∈ [t]) as Ht by (by apply Hin).
    apply list_elem_of_singleton in Ht as ->. lia.
  - destruct (lexer._multiple_token_decider (t :: t2 :: acc)) as [w|].
    + destruct Hdec as (Hw & _ & Hmin). apply Hin in Hw as [Hw Hsw].
      exists w. split; [exact Hw|]. split; [exact Hsw|]. split; [|reflexivity].
      intros tv Htv Hstv. apply Hmin. by apply Hin.
    + specialize (Hdec tv0 Hacc0). specialize (Hlt tv0 Htv0 Hs0). lia.
Qed.

(** X3.  When every scan runs to its end without reaching an accept state and
    a character other than the separator remains, [next_token] raises
    [InvalidToken] and leaves the object as it was, so that the next
    call does the same. *)
Theorem next_token_no_match (data : pystr) (dfas : list (pystr * lexer.TokenValue))
    (c : N) :
  c ∈ data → c ≠ ch_space →
  (∀ tv, tv ∈ dfas.*2 → ∃ l, scan_token data tv = Ok (l, false)) →
  lexer.next_token (lexer.mkLex data dfas)
  = (Raise InvalidToken, lexer.mkLex data dfas).
Proof.
  intros Hc Hne Hscan. unfold lexer.next_token, lexer._analyze_input.
  cbn [lexer.source_file_data lexer.generated_dfas].
  pose proof (analyze_loop_outcome data dfas [] 0) as Ho.
  pose proof (analyze_loop_spec data dfas [] 0) as Hs.
  pose proof (analyze_loop_candidates data dfas) as Hcand.
  destruct data as [|c0 data]; [by apply not_elem_of_nil in Hc|].
  set (input := c0 :: data) in *.
  destruct (lexer.analyze_loop input dfas [] 0) as [[acc fin]|e|]; [|..|done].
  - destruct (Hs _ _ eq_refl) as (_ & _ & Hwho & _).
    destruct (Hcand _ _ eq_refl) as [Hsub Hacc].
    assert (fin = 0) as ->.
    { destruct Hwho as [->|(tv & Htv & Hr)]; [reflexivity|].
      destruct (Hscan tv Htv) as [l Hl]. congruence. }
    assert (acc = []) as ->.
    { destruct acc as [|t acc]; [reflexivity|].
      pose proof (Hacc t (list_elem_of_here _ _)) as Hr.
      destruct (Hscan t (Hsub t (list_elem_of_here _ _))) as [l Hl]. congruence. }
    cbn [mbind res_bind lexer._multiple_token_decider foldl fst].
    change (Z.to_nat 0) with O. rewrite drop_0.
    pose proof (remove_char_nonempty ch_space c input Hc Hne) as Hrem.
    destruct (remove_char ch_space input); [done|reflexivity].
  - destruct Ho as [_ Ho]. apply Exists_exists in Ho as (tv & Htv & Hr).
    destruct (Hscan tv Htv) as [l Hl]. congruence.
Qed.

Lemma dfa_a_over_ab_from_regex (frames : nat) :
  (self ← regex.init (1 + frames) (py "ab") (py "a");
   match regex.nfa self with
   | Some n => nfa.to_DFA n 20
   | None => Raise TypeError
   end) = Ok dfa_a_over_ab.
Proof. vm_compute. reflexivity. Qed.

(** The token type [A "a"] over the alphabet [ab] on the source text
    [b]: the scan ends in the reject state, nothing is consumed. *)
Lemma next_token_no_match_example :
  let lex := lexer.mkLex (py "b")
               [(py "A", lexer.mkTokenValue dfa_a_over_ab (py "A") 0)] in
  lexer.next_token lex = (Raise InvalidToken, lex) ∧
  lexer.next_token (lexer.next_token lex).2 = (Raise InvalidToken, lex).
Proof.
  assert (lexer.next_token
            (lexer.mkLex (py "b")
               [(py "A", lexer.mkTokenValue dfa_a_over_ab (py "A") 0)])
          = (Raise InvalidToken,
             lexer.mkLex (py "b")
               [(py "A", lexer.mkTokenValue dfa_a_over_ab (py "A") 0)])) as Hcall.
  { apply (next_token_no_match _ _ 98%N).
    - apply list_elem_of_here.
    - discriminate.
    - intros tv Htv. apply list_elem_of_singleton in Htv as ->.
      exists 0. vm_compute. reflexivity. }
  cbv zeta. rewrite Hcall. split; [reflexivity|exact Hcall].
Defined.

(** The two token types of [tie_break_example] in both iteration
    orders. *)
Lemma next_token_iteration_order_example :
  let a := lexer.mkTokenValue dfa_a (py "A") 0 in
  let b := lexer.mkTokenValue dfa_a (py "B") 1 in
  (lexer.next_token (lexer.mkLex (py "a a") [(py "A", a); (py "B", b)])).1
  = (lexer.next_token (lexer.mkLex (py "a a") [(py "B", b); (py "A", a)])).1.
Proof.
  cbv zeta. apply next_token_iteration_order.
  - apply perm_swap.
  - cbn [fmap list_fmap snd lexer.order].
    apply NoDup_cons. split; [|apply NoDup_singleton].
    intros Hin. apply list_elem_of_singleton in Hin. discriminate.
Defined.

(** The theorem on the two token types of [tie_break_example] and the
    source text [a a]: both scans report an accept state at length 1. *)
Lemma next_token_lowest_rank_example :
  let a := lexer.mkTokenValue dfa_a (py "A") 0 in
  let b := lexer.mkTokenValue dfa_a (py "B") 1 in
  ∃ w, w ∈ [b; a] ∧ scan_token (py "a a") w = Ok (1, true) ∧
       (∀ tv, tv ∈ [b; a] → scan_token (py "a a") tv = Ok (1, true) →
              lexer.order w ≤ lexer.order tv) ∧
       (lexer.next_token (lexer.mkLex (py "a a") [(py "B", b); (py "A", a)])).1
       = Ok (lexer.type w, py "a").
Proof.
  cbv zeta.
  apply (next_token_lowest_rank (py "a a")
           [(py "B", lexer.mkTokenValue dfa_a (py "B") 1);
            (py "A", lexer.mkTokenValue dfa_a (py "A") 0)] 1).
  - discriminate.
  - intros tv Htv. exists (1, true).
    apply elem_of_cons in Htv as [->|Htv];
      [|apply list_elem_of_singleton in Htv as ->]; vm_compute; reflexivity.
  - exists (lexer.mkTokenValue dfa_a (py "B") 1).
    split; [apply list_elem_of_here|vm_compute; reflexivity].
  - intros tv l Htv Hs.
    assert (scan_token (py "a a") tv = Ok (1, true)) as Hone.
    { apply elem_of_cons in Htv as [->|Htv];
        [|apply list_elem_of_singleton in Htv as ->]; vm_compute; reflexivity. }
    rewrite Hone in Hs. injection Hs as <-. lia.
  - intros tv Htv _.
    apply elem_of_cons in Htv as [->|Htv];
      [|apply list_elem_of_singleton in Htv as ->]; cbn; lia.
Defined.

(* ================================================================== *)
(** * The Kleene star of a SimpleNFA *)
(* ================================================================== *)

Lemma foldl_insert_const_lookup {V} (v : V) (l : list Z) (m : gmap Z V) (k : Z) :
  foldl (λ m s, <[ s := v ]> m) m l !! k
  = if bool_decide (k ∈ l) then Some v else m !! k.
Proof.
  revert m. induction l as [|a l IH]; intros m; cbn [foldl].
  - rewrite bool_decide_eq_false_2; [reflexivity|]. apply not_elem_of_nil.
  - rewrite IH. destruct (decide (k ∈ l)) as [Hin|Hnin].
    + rewrite !bool_decide_eq_true_2; [reflexivity| |assumption].
      by apply list_elem_of_further.
    + rewrite (bool_decide_eq_false_2 (k ∈ l)) by assumption.
      destruct (decide (k = a)) as [->|Hne].
      * rewrite bool_decide_eq_true_2 by apply list_elem_of_here.
        apply lookup_insert_eq.
      * rewrite bool_decide_eq_false_2.
        { by apply lookup_insert_ne. }
        intros Hin. apply elem_of_cons in Hin as [?|?]; contradiction.
Qed.

(** C10.  [kleene_star_to_nfa] gives every accept state of its argument
    the row that holds the single epsilon edge to the argument's start
    state, whatever row the state had: nothing of the old row is kept,
    neither an edge on another symbol nor another epsilon target. *)
Theorem C10_kleene_star_overwrites_accept_rows (X : tree.SimpleNFA) (s : Z) :
  s ∈ tree.accept_states X →
  tree.transition_function (tree.kleene_star_to_nfa X) !! s
    = Some {[ s_e := {[ tree.start_state X ]} ]} ∧
  (∀ row, tree.transition_function (tree.kleene_star_to_nfa X) !! s = Some row →
     (∀ symbol, symbol ≠ s_e → row !! symbol = None) ∧
     row !! s_e = Some {[ tree.start_state X ]}).
Proof.
  intros Hs.
  assert (tree.transition_function (tree.kleene_star_to_nfa X) !! s
          = Some {[ s_e := {[ tree.start_state X ]} ]}) as Hrow.
  { unfold tree.kleene_star_to_nfa. cbn [tree.transition_function].
    rewrite foldl_insert_const_lookup.
    by rewrite bool_decide_eq_true_2. }
  split; [exact Hrow|].
  intros row Hrow'. rewrite Hrow in Hrow'. injection Hrow' as <-.
  split.
  - intros symbol Hne. by apply lookup_singleton_ne.
  - apply lookup_singleton_eq.
Qed.

(** On [simple_nfa_loop] the edge from the accept state 2 on [a] is lost. *)
Lemma C10_witness :
  tree.transition_function simple_nfa_loop !! 2 = Some {[ py "a" := {[ 2 ]} ]} ∧
  tree.transition_function (tree.kleene_star_to_nfa simple_nfa_loop) !! 2
    = Some {[ s_e := {[ 1 ]} ]}.
Proof.
  split; [vm_compute; reflexivity|].
  apply (C10_kleene_star_overwrites_accept_rows simple_nfa_loop 2).
  apply list_elem_of_here.
Defined.

(** The rows of the other states of the argument are kept. *)
Lemma kleene_star_keeps_other_rows (X : tree.SimpleNFA) (s : Z) :
  s ∉ tree.accept_states X → s ≠ tree.last_state X + 1 →
  tree.transition_function (tree.kleene_star_to_nfa X) !! s
    = tree.transition_function X !! s.
Proof.
  intros Hs Hne. unfold tree.kleene_star_to_nfa. cbn [tree.transition_function].
  rewrite foldl_insert_const_lookup, bool_decide_eq_false_2 by assumption.
  by apply lookup_insert_ne.
Qed.

(** [concat_to_nfa] merges where [kleene_star_to_nfa] overwrites: an
    accept state of the left automaton that has an epsilon row keeps its
    targets. *)
Lemma concat_link_merges (target : Z) (tf : gmap Z (gmap pystr (gset Z)))
    (state : Z) (row : gmap pystr (gset Z)) (tgt : gset Z) :
  tf !! state = Some row → row !! s_e = Some tgt →
  tree.concat_link target tf state !! state
    = Some (<[ s_e := tgt ∪ {[ target ]} ]> row).
Proof.
  intros Hrow He. unfold tree.concat_link. rewrite Hrow, He.
  apply lookup_insert_eq.
Qed.

(* ================================================================== *)
(** * What the DFA constructor checks *)
(* ================================================================== *)

Section ReaderFacts.
Variable isspace : N → bool.
Variable isnumeric_char : N → bool.
Variable int : pystr → res Z.







(** ** The table and the transition records *)





End ReaderFacts.


(* ================================================================== *)
(** * The subset construction *)
(* ================================================================== *)

Set Warnings "-clear-no-such-hyp".

Lemma elem_of_List_filter {A} (f : A → bool) (l : list A) (x : A) :
  x ∈ List.filter f l ↔ x ∈ l ∧ f x = true.
Proof. rewrite !list_elem_of_In. apply List.filter_In. Qed.

Section ClosureFacts.
Context `{Countable K}.
Variable self : nfa.NFA K.

Lemma get_transition_targets (state : K) (symbol : pystr) :
  nfa._get_transition self state symbol ⊆ targets self.
Proof.
  unfold nfa._get_transition.
  destruct (nfa.transition_function self !! state) as [row|] eqn:Hrow;
    [|apply empty_subseteq].
  destruct (row !! symbol) as [tgt|] eqn:Hsym; [|apply empty_subseteq].
  cbn [default]. intros x Hx. unfold targets.
  apply elem_of_union_list. eexists. split.
  - apply list_elem_of_fmap. exists row. split; [reflexivity|].
    apply list_elem_of_fmap. exists (state, row). split; [reflexivity|].
    by apply elem_of_map_to_list.
  - apply elem_of_union_list. exists tgt. split; [|exact Hx].
    apply list_elem_of_fmap. exists (symbol, tgt). split; [reflexivity|].
    by apply elem_of_map_to_list.
Qed.

(** What the closure loop returns holds what was seen, what was queued,
    and otherwise only targets self of transitions. *)
Lemma closure_loop_sound (fuel : nat) :
  ∀ queue seen r,
    nfa.closure_loop self fuel queue seen = Ok r →
    seen ⊆ r ∧ (∀ x, x ∈ queue → x ∈ r) ∧
    r ⊆ seen ∪ list_to_set queue ∪ targets self.
Proof.
  induction fuel as [|fuel IH]; intros queue seen r Hr; [discriminate|].
  cbn [nfa.closure_loop] in Hr. destruct queue as [|c queue].
  - injection Hr as <-. split; [done|]. split.
    + intros x Hx. by apply not_elem_of_nil in Hx.
    + set_solver.
  - apply IH in Hr as (Hseen & Hq & Hsub). split; [set_solver|]. split.
    + intros x Hx. apply elem_of_cons in Hx as [->|Hx].
      * apply Hseen. set_solver.
      * apply Hq. apply elem_of_app. by left.
    + intros x Hx. apply Hsub in Hx.
      apply elem_of_union in Hx as [Hx|Hx]; [|set_solver].
      apply elem_of_union in Hx as [Hx|Hx]; [set_solver|].
      apply elem_of_list_to_set, elem_of_app in Hx as [Hx|Hx]; [set_solver|].
      apply elem_of_List_filter in Hx as [Hx _]. apply elem_of_elements in Hx.
      apply get_transition_targets in Hx. set_solver.
Qed.

(** The closure loop ends: neither the number of unseen states of [V]
    nor, while that number stays, the number of queued states that were
    already seen can decrease for ever. *)
Lemma closure_loop_terminates (V : gset K) :
  targets self ⊆ V →
  ∀ u a queue seen,
    size (V ∖ seen) = u →
    length (List.filter (λ x, bool_decide (x ∈ seen)) queue) = a →
    (∀ x, x ∈ queue → x ∈ V) →
    ∃ fuel0 r, ∀ fuel, (fuel0 ≤ fuel)%nat →
      nfa.closure_loop self fuel queue seen = Ok r.
Proof.
  intros HV u. induction (lt_wf u) as [u _ IHu].
  intros a. induction (lt_wf a) as [a _ IHa].
  intros queue seen Hu Ha Hq. destruct queue as [|c queue].
  - exists 1%nat, seen. intros [|fuel] Hf; [lia|reflexivity].
  - set (seen' := {[ c ]} ∪ seen).
    set (new := List.filter
                  (λ t, negb (bool_decide (t ∈ seen')))
                  (elements (nfa._get_transition self c s_e))).
    assert (∀ x, x ∈ queue ++ new → x ∈ V) as Hq'.
    { intros x Hx. apply elem_of_app in Hx as [Hx|Hx].
      - apply Hq. by apply list_elem_of_further.
      - apply elem_of_List_filter in Hx as [Hx _]. apply elem_of_elements in Hx.
        apply HV. by apply get_transition_targets in Hx. }
    assert (∃ fuel0 r, ∀ fuel, (fuel0 ≤ fuel)%nat →
              nfa.closure_loop self fuel (queue ++ new) seen' = Ok r)
      as (fuel0 & r & Hrec).
    { destruct (decide (c ∈ seen)) as [Hc|Hc].
      - assert (seen' = seen) as Hs by (unfold seen'; set_solver).
        rewrite Hs.
        eapply (IHa (length (List.filter (λ x, bool_decide (x ∈ seen))
                                (queue ++ new)))); [|exact Hu|reflexivity|].
        + rewrite <- Ha. cbn [List.filter].
          rewrite bool_decide_eq_true_2 by assumption. cbn [length].
          rewrite List.filter_app, length_app.
          assert (List.filter (λ x, bool_decide (x ∈ seen)) new = []) as ->.
          { unfold new. rewrite Hs. clear.
            induction (elements (nfa._get_transition self c s_e)) as [|t l IH];
              [reflexivity|].
            cbn [List.filter]. destruct (decide (t ∈ seen)) as [Ht|Ht].
            - rewrite (bool_decide_eq_true_2 _ Ht). cbn [negb]. exact IH.
            - rewrite (bool_decide_eq_false_2 _ Ht). cbn [negb List.filter].
              rewrite (bool_decide_eq_false_2 _ Ht). exact IH. }
          cbn [length]. lia.
        + exact Hq'.
      - eapply (IHu (size (V ∖ seen'))); [|reflexivity|reflexivity|exact Hq'].
        rewrite <- Hu. apply subset_size. unfold seen'.
        assert (c ∈ V) by (apply Hq; apply list_elem_of_here).
        set_solver. }
    exists (S fuel0), r. intros [|fuel] Hf; [lia|].
    cbn [nfa.closure_loop]. apply Hrec. lia.
Qed.

Lemma closure_loop_mono (fuel : nat) :
  ∀ fuel' queue seen r,
    nfa.closure_loop self fuel queue seen = Ok r → (fuel ≤ fuel')%nat →
    nfa.closure_loop self fuel' queue seen = Ok r.
Proof.
  induction fuel as [|fuel IH]; intros fuel' queue seen r Hr Hf; [discriminate|].
  destruct fuel' as [|fuel']; [lia|].
  cbn [nfa.closure_loop] in *. destruct queue as [|c queue]; [exact Hr|].
  apply IH; [exact Hr|lia].
Qed.

Lemma get_epsilon_closure_sound (fuel : nat) (state : K) (r : gset K) :
  nfa._get_epsilon_closure self fuel state = Ok r →
  state ∈ r ∧ r ⊆ {[ state ]} ∪ targets self.
Proof.
  intros Hr. apply closure_loop_sound in Hr as (_ & Hq & Hsub). split.
  - apply Hq, list_elem_of_here.
  - intros x Hx. apply Hsub in Hx. set_solver.
Qed.

Lemma get_epsilon_closure_total (state : K) :
  ∃ fuel0 r, ∀ fuel, (fuel0 ≤ fuel)%nat →
    nfa._get_epsilon_closure self fuel state = Ok r.
Proof.
  unfold nfa._get_epsilon_closure.
  eapply (closure_loop_terminates ({[ state ]} ∪ targets self));
    [set_solver|reflexivity|reflexivity|].
  intros x Hx. apply list_elem_of_singleton in Hx as ->. set_solver.
Qed.

Lemma closure_of_list_sound (fuel : nat) (states : list K) :
  ∀ e_states r,
    nfa.closure_of_list self fuel states e_states = Ok r →
    e_states ⊆ r ∧ (∀ x, x ∈ states → x ∈ r) ∧
    r ⊆ e_states ∪ list_to_set states ∪ targets self.
Proof.
  induction states as [|state states IH]; intros e_states r Hr.
  - injection Hr as <-. split; [done|]. split; [|set_solver].
    intros x Hx. by apply not_elem_of_nil in Hx.
  - cbn [nfa.closure_of_list] in Hr.
    destruct (nfa._get_epsilon_closure self fuel state) as [c| |] eqn:Hc;
      cbn [mbind res_bind] in Hr; try discriminate.
    apply get_epsilon_closure_sound in Hc as (Hin & Hsub).
    apply IH in Hr as (He & Hs & Hr). split; [set_solver|]. split.
    + intros x Hx. apply elem_of_cons in Hx as [->|Hx]; [set_solver|by apply Hs].
    + intros x Hx. apply Hr in Hx. set_solver.
Qed.

Lemma closure_of_list_mono (fuel fuel' : nat) (states : list K) :
  ∀ e_states r,
    nfa.closure_of_list self fuel states e_states = Ok r → (fuel ≤ fuel')%nat →
    nfa.closure_of_list self fuel' states e_states = Ok r.
Proof.
  induction states as [|state states IH]; intros e_states r Hr Hf; [exact Hr|].
  cbn [nfa.closure_of_list] in *.
  destruct (nfa._get_epsilon_closure self fuel state) as [c| |] eqn:Hc;
    cbn [mbind res_bind] in Hr; try discriminate.
  unfold nfa._get_epsilon_closure in *.
  rewrite (closure_loop_mono _ _ _ _ _ Hc Hf). cbn [mbind res_bind].
  by apply IH.
Qed.

Lemma closure_of_list_total (states : list K) :
  ∀ e_states, ∃ fuel0 r, ∀ fuel, (fuel0 ≤ fuel)%nat →
    nfa.closure_of_list self fuel states e_states = Ok r.
Proof.
  induction states as [|state states IH]; intros e_states.
  - exists O, e_states. reflexivity.
  - destruct (get_epsilon_closure_total state) as (f1 & c & Hc).
    destruct (IH (e_states ∪ c)) as (f2 & r & Hr).
    exists (f1 `max` f2)%nat, r. intros fuel Hf. cbn [nfa.closure_of_list].
    rewrite Hc by lia. cbn [mbind res_bind]. apply Hr. lia.
Qed.

Lemma get_transition_for_states_set_targets (set_of_states : gset K) (symbol : pystr) :
  nfa._get_transition_for_states_set self set_of_states symbol ⊆ targets self.
Proof.
  unfold nfa._get_transition_for_states_set.
  assert (∀ l acc, acc ⊆ targets self →
            foldl (λ dest_states state,
                     dest_states ∪ nfa._get_transition self state symbol) acc l
            ⊆ targets self) as Hfold.
  { induction l as [|x l IH]; intros acc Hacc; [exact Hacc|].
    cbn [foldl]. apply IH. apply union_least; [exact Hacc|].
    apply get_transition_targets. }
  apply Hfold, empty_subseteq.
Qed.

Lemma dest_states_sound fuel curr symbol d :
  dest_states self fuel curr symbol = Ok d → d ⊆ targets self.
Proof.
  unfold dest_states, nfa._get_epsilon_closure_for_states_set.
  destruct (nfa.closure_of_list self fuel _ ∅) as [c| |] eqn:Hc;
    cbn [mbind res_bind]; try discriminate.
  intros [= <-]. apply closure_of_list_sound in Hc as (_ & _ & Hc).
  pose proof (get_transition_for_states_set_targets curr symbol) as Ht.
  intros x Hx. apply elem_of_union in Hx as [Hx|Hx]; [by apply Ht|].
  apply Hc in Hx. rewrite list_to_set_elements_L in Hx. set_solver.
Qed.

Lemma dest_states_mono fuel fuel' curr symbol d :
  dest_states self fuel curr symbol = Ok d → (fuel ≤ fuel')%nat →
  dest_states self fuel' curr symbol = Ok d.
Proof.
  unfold dest_states, nfa._get_epsilon_closure_for_states_set. intros Hd Hf.
  destruct (nfa.closure_of_list self fuel _ ∅) as [c| |] eqn:Hc;
    cbn [mbind res_bind] in Hd; try discriminate.
  by rewrite (closure_of_list_mono _ _ _ _ _ Hc Hf).
Qed.

Lemma dest_states_total curr symbol :
  ∃ fuel0 d, ∀ fuel, (fuel0 ≤ fuel)%nat → dest_states self fuel curr symbol = Ok d.
Proof.
  unfold dest_states, nfa._get_epsilon_closure_for_states_set.
  destruct (closure_of_list_total
              (elements (nfa._get_transition_for_states_set self curr symbol)) ∅)
    as (f0 & c & Hc).
  eexists f0, _. intros fuel Hf. rewrite Hc by exact Hf. reflexivity.
Qed.

Lemma symbols_loop_cons fuel curr symbol rest transitions queue found_empty :
  nfa.symbols_loop self fuel curr (symbol :: rest) transitions queue found_empty
  = (d ← dest_states self fuel curr symbol;
     if bool_decide (d ≠ ∅)
     then nfa.symbols_loop self fuel curr rest (<[ symbol := nfa.DSet d ]> transitions)
            (queue ++ [d]) found_empty
     else nfa.symbols_loop self fuel curr rest (<[ symbol := nfa.DSet d ]> transitions)
            queue true).
Proof.
  cbn [nfa.symbols_loop]. unfold dest_states.
  destruct (nfa._get_epsilon_closure_for_states_set self fuel _); reflexivity.
Qed.

(** What the symbol loop leaves behind. *)
Lemma symbols_loop_sound fuel curr alphabet :
  ∀ transitions queue found_empty transitions' queue' found_empty',
    nfa.symbols_loop self fuel curr alphabet transitions queue found_empty
      = Ok (transitions', queue', found_empty') →
    (∀ symbol, symbol ∈ alphabet →
       ∃ d, dest_states self fuel curr symbol = Ok d ∧
            transitions' !! symbol = Some (nfa.DSet d) ∧ (d = ∅ ∨ d ∈ queue')) ∧
    (∀ symbol, symbol ∉ alphabet → transitions' !! symbol = transitions !! symbol) ∧
    (∀ s, s ∈ queue' → s ∈ queue ∨ (s ≠ ∅ ∧ s ⊆ targets self)) ∧
    (∀ s, s ∈ queue → s ∈ queue') ∧
    (found_empty' = true ↔
       found_empty = true ∨
       ∃ symbol, symbol ∈ alphabet ∧ dest_states self fuel curr symbol = Ok ∅).
Proof.
  induction alphabet as [|symbol rest IH];
    intros transitions queue found_empty transitions' queue' found_empty' Hloop.
  - injection Hloop as <- <- <-. repeat split; try done.
    + intros symbol Hs. by apply not_elem_of_nil in Hs.
    + by left.
    + by left.
    + intros [?|(symbol & Hs & _)]; [done|]. by apply not_elem_of_nil in Hs.
  - rewrite symbols_loop_cons in Hloop.
    destruct (dest_states self fuel curr symbol) as [d| |] eqn:Hd;
      cbn [mbind res_bind] in Hloop; try discriminate.
    pose proof (dest_states_sound _ _ _ _ Hd) as Hsub.
    destruct (decide (d = ∅)) as [Hemp|Hne].
    + rewrite bool_decide_eq_false_2 in Hloop by (intros Hc; by apply Hc).
      apply IH in Hloop as (Hrow & Hout & Hq & Hq' & Hfe).
      split; [|split; [|split; [|split]]].
      * intros s Hs. destruct (decide (s ∈ rest)) as [Hin|Hnin]; [by apply Hrow|].
        apply elem_of_cons in Hs as [->|Hs]; [|done].
        exists d. split; [exact Hd|]. split; [|by left].
        rewrite (Hout _ Hnin). apply lookup_insert_eq.
      * intros s Hs. apply not_elem_of_cons in Hs as [Hne Hs].
        rewrite (Hout _ Hs). by apply lookup_insert_ne.
      * exact Hq.
      * exact Hq'.
      * rewrite Hfe. split.
        -- intros [_|(s & Hs & Hds)].
           ++ right. exists symbol. split; [apply list_elem_of_here|].
              by rewrite Hd, Hemp.
           ++ right. exists s. split; [by apply list_elem_of_further|exact Hds].
        -- intros _. by left.
    + rewrite bool_decide_eq_true_2 in Hloop by exact Hne.
      apply IH in Hloop as (Hrow & Hout & Hq & Hq' & Hfe).
      split; [|split; [|split; [|split]]].
      * intros s Hs. destruct (decide (s ∈ rest)) as [Hin|Hnin]; [by apply Hrow|].
        apply elem_of_cons in Hs as [->|Hs]; [|done].
        exists d. split; [exact Hd|]. split.
        -- rewrite (Hout _ Hnin). apply lookup_insert_eq.
        -- right. apply Hq'. apply elem_of_app. right. apply list_elem_of_here.
      * intros s Hs. apply not_elem_of_cons in Hs as [Hne' Hs].
        rewrite (Hout _ Hs). by apply lookup_insert_ne.
      * intros s Hs. apply Hq in Hs as [Hs|Hs]; [|by right].
        apply elem_of_app in Hs as [Hs|Hs]; [by left|].
        apply list_elem_of_singleton in Hs as ->. by right.
      * intros s Hs. apply Hq'. apply elem_of_app. by left.
      * rewrite Hfe. split.
        -- intros [?|(s & Hs & Hds)]; [by left|].
           right. exists s. split; [by apply list_elem_of_further|exact Hds].
        -- intros [?|(s & Hs & Hds)]; [by left|].
           apply elem_of_cons in Hs as [->|Hs].
           ++ rewrite Hd in Hds. injection Hds as ->. done.
           ++ right. by exists s.
Qed.

Lemma symbols_loop_total curr alphabet :
  ∀ transitions queue found_empty,
    ∃ fuel0 r, ∀ fuel, (fuel0 ≤ fuel)%nat →
      nfa.symbols_loop self fuel curr alphabet transitions queue found_empty = Ok r.
Proof.
  induction alphabet as [|symbol rest IH]; intros transitions queue found_empty.
  - exists O. eexists. intros fuel _. reflexivity.
  - destruct (dest_states_total curr symbol) as (f1 & d & Hd).
    destruct (decide (d = ∅)) as [Hemp|Hne].
    + destruct (IH (<[ symbol := nfa.DSet d ]> transitions) queue true)
        as (f2 & r & Hr).
      exists (f1 `max` f2)%nat, r. intros fuel Hf.
      rewrite symbols_loop_cons, Hd by lia. cbn [mbind res_bind].
      rewrite bool_decide_eq_false_2 by (intros Hc; by apply Hc).
      apply Hr. lia.
    + destruct (IH (<[ symbol := nfa.DSet d ]> transitions) (queue ++ [d])
                  found_empty) as (f2 & r & Hr).
      exists (f1 `max` f2)%nat, r. intros fuel Hf.
      rewrite symbols_loop_cons, Hd by lia. cbn [mbind res_bind].
      rewrite bool_decide_eq_true_2 by exact Hne.
      apply Hr. lia.
Qed.
End ClosureFacts.

Lemma elem_of_powerlist `{Countable K} (l : list K) :
  ∀ X : gset K, X ⊆ list_to_set l → X ∈ powerlist l.
Proof.
  induction l as [|x l IH]; intros X HX; cbn [powerlist].
  - apply list_elem_of_singleton. cbn in HX. set_solver.
  - apply elem_of_app. destruct (decide (x ∈ X)) as [Hx|Hx].
    + right. apply list_elem_of_fmap. exists (X ∖ {[ x ]}). split.
      * apply set_eq. intros y. rewrite elem_of_union, elem_of_difference,
          elem_of_singleton. destruct (decide (y = x)) as [->|]; naive_solver.
      * apply IH. cbn in HX. set_solver.
    + left. apply IH. cbn in HX. set_solver.
Qed.

(** A duplicate-free list of subsets of [V] is no longer than the list
    of all subsets. *)
Lemma subsets_bound `{Countable K} (V : gset K) (l : list (gset K)) :
  NoDup l → (∀ s, s ∈ l → s ⊆ V) →
  (length l ≤ length (powerlist (elements V)))%nat.
Proof.
  intros Hnd Hsub. apply submseteq_length, NoDup_submseteq; [exact Hnd|].
  intros s Hs. apply elem_of_powerlist. rewrite list_to_set_elements_L.
  by apply Hsub.
Qed.

Section ConversionFacts.
Context `{Countable K}.
Variable self : nfa.NFA K.
Variable start : gset K.
Hypothesis start_nonempty : start ≠ ∅.

Lemma loop_inv_init :
  loop_inv self start (nfa.mkLoop [start] [] (nfa._generate_int_mapping start)
                       (nfa._generate_int_mapping_reverse start) 2 1 false ∅).
Proof.
  split; cbn [nfa.queue nfa.states_handled nfa.dfa_state_int_mapping
              nfa.dfa_state_int_mapping_reverse nfa.next_state_id
              nfa.l_number_of_states nfa.found_empty nfa.l_transition_function
              length].
  - constructor.
  - intros s Hs. by apply not_elem_of_nil in Hs.
  - intros s Hs. apply list_elem_of_singleton in Hs as ->.
    split; [exact start_nonempty|set_solver].
  - reflexivity.
  - reflexivity.
  - reflexivity.
  - intros s i. unfold nfa._generate_int_mapping. split.
    + intros Hl. destruct (decide (s = start)) as [->|Hne].
      * rewrite lookup_insert_eq in Hl. injection Hl as <-. right. by left.
      * rewrite lookup_insert_ne in Hl by done.
        destruct (decide (s = ∅)) as [->|Hne'].
        -- rewrite lookup_insert_eq in Hl. injection Hl as <-. by left.
        -- rewrite lookup_insert_ne, lookup_empty in Hl by done. discriminate.
    + intros [[-> ->]|[[-> ->]|(k & Hk & _)]].
      * rewrite lookup_insert_ne by done. apply lookup_insert_eq.
      * apply lookup_insert_eq.
      * rewrite lookup_nil in Hk. discriminate.
  - intros i s. unfold nfa._generate_int_mapping_reverse. split.
    + intros Hl. destruct (decide (i = 2)) as [->|Hne].
      * rewrite lookup_insert_eq in Hl. injection Hl as <-. right. by left.
      * rewrite lookup_insert_ne in Hl by done.
        destruct (decide (i = 1)) as [->|Hne'].
        -- rewrite lookup_insert_eq in Hl. injection Hl as <-. by left.
        -- rewrite lookup_insert_ne, lookup_empty in Hl by done. discriminate.
    + intros [[-> ->]|[[-> ->]|(k & Hk & _)]].
      * rewrite lookup_insert_ne by done. apply lookup_insert_eq.
      * apply lookup_insert_eq.
      * rewrite lookup_nil in Hk. discriminate.
  - intros i. rewrite lookup_empty. split; [intros [? ?]; discriminate|lia].
  - intros i row Hrow. rewrite lookup_empty in Hrow. discriminate.
  - split; [discriminate|]. intros (i & row & symbol & Hrow & _).
    rewrite lookup_empty in Hrow. discriminate.
Qed.

Lemma loop_inv_skip st curr rest :
  loop_inv self start st → nfa.queue st = curr :: rest → curr ∈ nfa.states_handled st →
  loop_inv self start (nfa.mkLoop rest (nfa.states_handled st) (nfa.dfa_state_int_mapping st)
              (nfa.dfa_state_int_mapping_reverse st) (nfa.next_state_id st)
              (nfa.l_number_of_states st) (nfa.found_empty st)
              (nfa.l_transition_function st)).
Proof.
  intros [Hnd Hh Hq Hfirst Hnext Hnum Hmap Hrev Hdom Hrow Hfe] Hqueue Hcurr.
  split; cbn [nfa.queue nfa.states_handled nfa.dfa_state_int_mapping
              nfa.dfa_state_int_mapping_reverse nfa.next_state_id
              nfa.l_number_of_states nfa.found_empty nfa.l_transition_function];
    try assumption.
  - intros s Hs. apply Hq. rewrite Hqueue. by apply list_elem_of_further.
  - destruct (nfa.states_handled st); [|exact Hfirst].
    by apply not_elem_of_nil in Hcurr.
  - intros i row Hi. destruct (Hrow i row Hi) as [Hsym Hent]. split; [exact Hsym|].
    intros symbol d0 Hd0. destruct (Hent symbol d0 Hd0) as (d & -> & Hd).
    exists d. split; [reflexivity|]. destruct Hd as [?|[?|Hd]]; [by left|by right; left|].
    rewrite Hqueue in Hd. apply elem_of_cons in Hd as [->|Hd].
    + right. by left.
    + right. by right.
Qed.

Lemma loop_inv_fresh st curr rest :
  loop_inv self start st → nfa.queue st = curr :: rest → curr ∉ nfa.states_handled st →
  curr ≠ ∅ ∧
  (nfa.states_handled st = [] → curr = start) ∧
  (curr = start → nfa.states_handled st = []) ∧
  2 ≤ nfa.next_state_id st ∧
  nfa.l_transition_function st !! nfa.next_state_id st = None.
Proof.
  intros [Hnd Hh Hq Hfirst Hnext Hnum Hmap Hrev Hdom Hrow Hfe] Hqueue Hcurr.
  split; [|split; [|split; [|split]]].
  - apply Hq. rewrite Hqueue. apply list_elem_of_here.
  - intros Hnil. rewrite Hnil, Hqueue in Hfirst. by injection Hfirst.
  - intros ->. destruct (nfa.states_handled st) as [|s l]; [reflexivity|].
    subst s. exfalso. apply Hcurr, list_elem_of_here.
  - lia.
  - apply eq_None_not_Some. rewrite Hdom. lia.
Qed.

Lemma set_id_eq st curr rest :
  loop_inv self start st → nfa.queue st = curr :: rest → curr ∉ nfa.states_handled st →
  match nfa.dfa_state_int_mapping st !! curr with
  | Some set_id =>
      (set_id, nfa.dfa_state_int_mapping st, nfa.dfa_state_int_mapping_reverse st)
  | None =>
      (nfa.next_state_id st,
       <[ curr := nfa.next_state_id st ]> (nfa.dfa_state_int_mapping st),
       <[ nfa.next_state_id st := curr ]> (nfa.dfa_state_int_mapping_reverse st))
  end
  = (nfa.next_state_id st,
     <[ curr := nfa.next_state_id st ]> (nfa.dfa_state_int_mapping st),
     <[ nfa.next_state_id st := curr ]> (nfa.dfa_state_int_mapping_reverse st)).
Proof.
  intros Hinv Hqueue Hcurr.
  destruct (loop_inv_fresh st curr rest Hinv Hqueue Hcurr)
    as (Hne & Hnil & Hstart & _ & _).
  destruct Hinv as [Hnd Hh Hq Hfirst Hnext Hnum Hmap Hrev Hdom Hrow Hfe].
  destruct (nfa.dfa_state_int_mapping st !! curr) as [i|] eqn:Hi; [|reflexivity].
  assert (curr = start ∧ i = 2) as [-> ->].
  { apply Hmap in Hi as [[? ?]|[[? ?]|(k & Hk & _)]]; [done|done|].
    exfalso. apply Hcurr. by eapply list_elem_of_lookup_2. }
  assert (nfa.next_state_id st = 2) as Hn.
  { rewrite Hnext, (Hstart eq_refl). reflexivity. }
  rewrite Hn. f_equal; [f_equal|].
  - symmetry. by apply insert_id.
  - symmetry. apply insert_id. apply Hrev. right. by left.
Qed.

Lemma loop_inv_handle st curr rest fuel transitions queue' found_empty' :
  loop_inv self start st → nfa.queue st = curr :: rest → curr ∉ nfa.states_handled st →
  nfa.symbols_loop self fuel curr (nfa.alphabet self) ∅ rest (nfa.found_empty st)
    = Ok (transitions, queue', found_empty') →
  loop_inv self start (nfa.mkLoop queue' (nfa.states_handled st ++ [curr])
              (<[ curr := nfa.next_state_id st ]> (nfa.dfa_state_int_mapping st))
              (<[ nfa.next_state_id st := curr ]> (nfa.dfa_state_int_mapping_reverse st))
              (nfa.next_state_id st + 1) (nfa.l_number_of_states st + 1) found_empty'
              (<[ nfa.next_state_id st := transitions ]> (nfa.l_transition_function st))).
Proof.
  intros Hinv Hqueue Hcurr Hloop.
  destruct (loop_inv_fresh st curr rest Hinv Hqueue Hcurr)
    as (Hne & Hnil & Hstart & Hge & Hfresh).
  destruct Hinv as [Hnd Hh Hq Hfirst Hnext Hnum Hmap Hrev Hdom Hrow Hfe].
  apply symbols_loop_sound in Hloop as (Hsym & Hout & Hq1 & Hq2 & Hfe').
  assert (curr ⊆ start ∪ targets self) as Hsub.
  { apply Hq. rewrite Hqueue. apply list_elem_of_here. }
  split; cbn [nfa.queue nfa.states_handled nfa.dfa_state_int_mapping
              nfa.dfa_state_int_mapping_reverse nfa.next_state_id
              nfa.l_number_of_states nfa.found_empty nfa.l_transition_function].
  - apply NoDup_app. split; [exact Hnd|]. split; [|apply NoDup_singleton].
    intros s Hs Hs'. apply list_elem_of_singleton in Hs' as ->. done.
  - intros s Hs. apply elem_of_app in Hs as [Hs|Hs]; [by apply Hh|].
    apply list_elem_of_singleton in Hs as ->. done.
  - intros s Hs. apply Hq1 in Hs as [Hs|[Hs Hs']].
    + apply Hq. rewrite Hqueue. by apply list_elem_of_further.
    + split; [exact Hs|]. set_solver.
  - destruct (nfa.states_handled st) as [|s l] eqn:Hl; cbn [app].
    + by apply Hnil.
    + exact Hfirst.
  - rewrite length_app. cbn [length]. lia.
  - rewrite length_app. cbn [length]. lia.
  - intros s i. split.
    + intros Hl. destruct (decide (s = curr)) as [->|Hne'].
      * rewrite lookup_insert_eq in Hl. injection Hl as <-. right. right.
        exists (length (nfa.states_handled st)). split; [|lia].
        apply lookup_snoc_Some. right. done.
      * rewrite lookup_insert_ne in Hl by done.
        apply Hmap in Hl as [?|[?|(k & Hk & ->)]]; [by left|by right; left|].
        right. right. exists k. split; [|reflexivity].
        apply lookup_snoc_Some. left. split; [|exact Hk].
        by eapply lookup_lt_Some.
    + intros [[-> ->]|[[-> ->]|(k & Hk & ->)]].
      * rewrite lookup_insert_ne by done. apply Hmap. by left.
      * destruct (decide (curr = start)) as [->|Hne'].
        -- rewrite lookup_insert_eq, Hnext, (Hstart eq_refl). reflexivity.
        -- rewrite lookup_insert_ne by done. apply Hmap. right. by left.
      * apply lookup_snoc_Some in Hk as [[Hlt Hk]|[-> <-]].
        -- rewrite lookup_insert_ne.
           ++ apply Hmap. right. right. by exists k.
           ++ intros ->. apply Hcurr. by eapply list_elem_of_lookup_2.
        -- rewrite lookup_insert_eq, Hnext. reflexivity.
  - intros i s. split.
    + intros Hl. destruct (decide (i = nfa.next_state_id st)) as [->|Hne'].
      * rewrite lookup_insert_eq in Hl. injection Hl as <-. right. right.
        exists (length (nfa.states_handled st)). split; [|lia].
        apply lookup_snoc_Some. right. done.
      * rewrite lookup_insert_ne in Hl by done.
        apply Hrev in Hl as [?|[?|(k & Hk & ->)]]; [by left|by right; left|].
        right. right. exists k. split; [|reflexivity].
        apply lookup_snoc_Some. left. split; [|exact Hk].
        by eapply lookup_lt_Some.
    + intros [[-> ->]|[[-> ->]|(k & Hk & ->)]].
      * rewrite lookup_insert_ne by lia. apply Hrev. by left.
      * destruct (decide (nfa.next_state_id st = 2)) as [Heq|Hne'].
        -- rewrite Heq, lookup_insert_eq. f_equal. apply Hnil.
           destruct (nfa.states_handled st); [reflexivity|].
           cbn [length] in Hnext. lia.
        -- rewrite lookup_insert_ne by done. apply Hrev. right. by left.
      * apply lookup_snoc_Some in Hk as [[Hlt Hk]|[-> <-]].
        -- rewrite lookup_insert_ne by lia.
           apply Hrev. right. right. by exists k.
        -- rewrite Hnext, lookup_insert_eq. reflexivity.
  - intros i. rewrite length_app. cbn [length].
    destruct (decide (i = nfa.next_state_id st)) as [->|Hne'].
    + rewrite lookup_insert_eq. split; [lia|eauto].
    + rewrite lookup_insert_ne by done. rewrite Hdom. lia.
  - intros i row Hi. destruct (decide (i = nfa.next_state_id st)) as [->|Hne'].
    + rewrite lookup_insert_eq in Hi. injection Hi as <-. split.
      * intros symbol. split.
        -- intros Hs. destruct (decide (symbol ∈ nfa.alphabet self)); [done|].
           rewrite Hout, lookup_empty in Hs by done. by destruct Hs.
        -- intros Hs. destruct (Hsym _ Hs) as (d & _ & -> & _). eauto.
      * intros symbol d0 Hd0.
        destruct (decide (symbol ∈ nfa.alphabet self)) as [Hs|Hs].
        -- destruct (Hsym _ Hs) as (d & _ & Hd & Hdq).
           rewrite Hd in Hd0. injection Hd0 as <-. exists d. split; [done|].
           destruct Hdq; [by left|by right; right].
        -- rewrite Hout, lookup_empty in Hd0 by done. discriminate.
    + rewrite lookup_insert_ne in Hi by done.
      destruct (Hrow i row Hi) as [Hs Hent]. split; [exact Hs|].
      intros symbol d0 Hd0. destruct (Hent symbol d0 Hd0) as (d & -> & Hd).
      exists d. split; [reflexivity|].
      destruct Hd as [?|[Hd|Hd]]; [by left| |].
      * right. left. apply elem_of_app. by left.
      * rewrite Hqueue in Hd. apply elem_of_cons in Hd as [->|Hd].
        -- right. left. apply elem_of_app. right. apply list_elem_of_here.
        -- right. right. by apply Hq2.
  - rewrite Hfe'. split.
    + intros [Hold|(symbol & Hs & Hd)].
      * apply Hfe in Hold as (i & row & symbol & Hi & Hsymb).
        exists i, row, symbol. split; [|exact Hsymb].
        rewrite lookup_insert_ne; [exact Hi|]. intros <-. congruence.
      * destruct (Hsym _ Hs) as (d & Hd' & Hrow' & _).
        rewrite Hd in Hd'. injection Hd' as <-.
        exists (nfa.next_state_id st), transitions, symbol.
        split; [apply lookup_insert_eq|exact Hrow'].
    + intros (i & row & symbol & Hi & Hsymb).
      destruct (decide (i = nfa.next_state_id st)) as [->|Hne'].
      * rewrite lookup_insert_eq in Hi. injection Hi as <-.
        destruct (decide (symbol ∈ nfa.alphabet self)) as [Hs|Hs].
        -- destruct (Hsym _ Hs) as (d & Hd & Hrow' & _).
           rewrite Hrow' in Hsymb. injection Hsymb as ->.
           right. by exists symbol.
        -- rewrite Hout, lookup_empty in Hsymb by done. discriminate.
      * rewrite lookup_insert_ne in Hi by done. left. apply Hfe. eauto.
Qed.

(** The loop keeps the invariant and ends with an empty queue. *)
Lemma conversion_loop_inv (fuel : nat) :
  ∀ st st', nfa.conversion_loop self fuel st = Ok st' →
            loop_inv self start st → loop_inv self start st' ∧ nfa.queue st' = [].
Proof.
  induction fuel as [|fuel IH]; intros st st' Hloop Hinv; [discriminate|].
  cbn [nfa.conversion_loop] in Hloop.
  destruct (nfa.queue st) as [|curr rest] eqn:Hqueue.
  - injection Hloop as <-. done.
  - destruct (decide (curr ∈ nfa.states_handled st)) as [Hin|Hnin].
    + rewrite bool_decide_eq_true_2 in Hloop by exact Hin.
      apply IH in Hloop; [exact Hloop|]. by eapply loop_inv_skip.
    + rewrite bool_decide_eq_false_2 in Hloop by exact Hnin.
      destruct (nfa.symbols_loop self (S fuel) curr (nfa.alphabet self) ∅ rest
                  (nfa.found_empty st)) as [[[tr q'] fe']| |] eqn:Hsym;
        cbn [mbind res_bind] in Hloop; try discriminate.
      rewrite (set_id_eq st curr rest Hinv Hqueue Hnin) in Hloop.
      apply IH in Hloop; [exact Hloop|]. by eapply loop_inv_handle.
Qed.

(** The loop ends: every iteration either handles a set that was not
    handled, and there are finitely many subsets of the states, or
    shortens the queue. *)
Lemma conversion_loop_terminates :
  ∀ st, loop_inv self start st →
        ∃ fuel0 st', ∀ fuel, (fuel0 ≤ fuel)%nat →
          nfa.conversion_loop self fuel st = Ok st'.
Proof.
  set (P := length (powerlist (elements (start ∪ targets self)))).
  assert (∀ u a st, loop_inv self start st →
            (P - length (nfa.states_handled st))%nat = u →
            length (nfa.queue st) = a →
            ∃ fuel0 st', ∀ fuel, (fuel0 ≤ fuel)%nat →
              nfa.conversion_loop self fuel st = Ok st') as Hgen.
  { intros u. induction (lt_wf u) as [u _ IHu].
    intros a. induction (lt_wf a) as [a _ IHa].
    intros st Hinv Hu Ha.
    destruct (nfa.queue st) as [|curr rest] eqn:Hqueue.
    - exists 1%nat, st. intros [|fuel] Hf; [lia|].
      cbn [nfa.conversion_loop]. by rewrite Hqueue.
    - destruct (decide (curr ∈ nfa.states_handled st)) as [Hin|Hnin].
      + pose proof (loop_inv_skip st curr rest Hinv Hqueue Hin) as Hinv'.
        assert (length rest < a)%nat as Hlt by (cbn [length] in Ha; lia).
        destruct (IHa (length rest) Hlt _ Hinv' Hu eq_refl) as (f0 & st' & Hrec).
        exists (S f0), st'. intros [|fuel] Hf; [lia|].
        cbn [nfa.conversion_loop]. rewrite Hqueue.
        rewrite bool_decide_eq_true_2 by exact Hin. apply Hrec. lia.
      + destruct (symbols_loop_total self curr (nfa.alphabet self) ∅ rest
                    (nfa.found_empty st)) as (f1 & [[tr q'] fe'] & Hsym).
        pose proof (loop_inv_handle st curr rest f1 tr q' fe' Hinv Hqueue Hnin
                      (Hsym f1 (le_n _))) as Hinv'.
        assert (length (nfa.states_handled st ++ [curr]) ≤ P)%nat as Hbound.
        { apply subsets_bound; [apply (inv_nodup _ _ _ Hinv')|].
          intros s Hs. by apply (inv_handled _ _ _ Hinv'). }
        rewrite length_app in Hbound. cbn [length] in Hbound.
        assert (P - S (length (nfa.states_handled st)) < u)%nat as Hlt by lia.
        destruct (IHu _ Hlt (length q') _ Hinv') as (f2 & st' & Hrec);
          [cbn [nfa.states_handled]; rewrite length_app; cbn [length]; lia
          |reflexivity|].
        exists (S (f1 `max` f2)), st'. intros [|fuel] Hf; [lia|].
        cbn [nfa.conversion_loop]. rewrite Hqueue.
        rewrite bool_decide_eq_false_2 by exact Hnin.
        rewrite Hsym by lia. cbn [mbind res_bind].
        rewrite (set_id_eq st curr rest Hinv Hqueue Hnin).
        apply Hrec. lia. }
  intros st Hinv. by eapply Hgen.
Qed.
End ConversionFacts.

Section FinalizeFacts.
Context `{Countable K}.
Variable self : nfa.NFA K.

(** ** The self-loops of state 1 *)

Lemma reject_loops_other (tf : gmap Z (gmap pystr (nfa.dest K))) (i : Z) :
  i ≠ 1 → nfa.reject_loops self tf !! i = tf !! i.
Proof.
  intros Hi. unfold nfa.reject_loops. revert tf.
  induction (nfa.alphabet self) as [|symbol rest IH]; intros tf; [reflexivity|].
  cbn [foldl]. rewrite IH.
  destruct (tf !! 1); by rewrite lookup_insert_ne.
Qed.

Lemma reject_loops_row (al : list pystr) :
  ∀ (tf : gmap Z (gmap pystr (nfa.dest K))) row0,
    tf !! 1 = Some row0 →
    ∃ row1,
      foldl (λ tf symbol,
               match tf !! 1 with
               | Some row => <[ 1 := <[ symbol := nfa.DInt 1 ]> row ]> tf
               | None => <[ 1 := {[ symbol := nfa.DInt 1 ]} ]> tf
               end) tf al !! 1 = Some row1 ∧
      ∀ symbol, row1 !! symbol
                = if decide (symbol ∈ al) then Some (nfa.DInt 1) else row0 !! symbol.
Proof.
  induction al as [|s rest IH]; intros tf row0 Hrow0.
  - exists row0. split; [exact Hrow0|]. intros symbol.
    rewrite decide_False; [reflexivity|apply not_elem_of_nil].
  - cbn [foldl]. rewrite Hrow0.
    destruct (IH (<[ 1 := <[ s := nfa.DInt 1 ]> row0 ]> tf) (<[ s := nfa.DInt 1 ]> row0))
      as (row1 & Hrow1 & Hlook); [apply lookup_insert_eq|].
    exists row1. split; [exact Hrow1|]. intros symbol. rewrite Hlook.
    destruct (decide (symbol ∈ rest)) as [Hin|Hnin].
    + rewrite decide_True; [reflexivity|by apply list_elem_of_further].
    + destruct (decide (symbol = s)) as [->|Hne].
      * rewrite lookup_insert_eq, decide_True; [reflexivity|apply list_elem_of_here].
      * rewrite lookup_insert_ne by done. rewrite decide_False; [reflexivity|].
        intros Hin. apply elem_of_cons in Hin as [?|?]; done.
Qed.

Lemma reject_loops_one (tf : gmap Z (gmap pystr (nfa.dest K))) :
  tf !! 1 = None → nfa.alphabet self ≠ [] →
  ∃ row1, nfa.reject_loops self tf !! 1 = Some row1 ∧
          ∀ symbol, row1 !! symbol
                    = if decide (symbol ∈ nfa.alphabet self)
                      then Some (nfa.DInt 1) else None.
Proof.
  intros Hnone Hal. unfold nfa.reject_loops.
  destruct (nfa.alphabet self) as [|s rest]; [done|].
  cbn [foldl]. rewrite Hnone.
  destruct (reject_loops_row rest (<[ 1 := {[ s := nfa.DInt 1 ]} ]> tf)
              {[ s := nfa.DInt 1 ]}) as (row1 & Hrow1 & Hlook);
    [apply lookup_insert_eq|].
  exists row1. split; [exact Hrow1|]. intros symbol. rewrite Hlook.
  destruct (decide (symbol ∈ rest)) as [Hin|Hnin].
  - rewrite decide_True; [reflexivity|by apply list_elem_of_further].
  - destruct (decide (symbol = s)) as [->|Hne].
    + rewrite lookup_singleton_eq, decide_True; [reflexivity|apply list_elem_of_here].
    + rewrite lookup_singleton_ne by done. rewrite decide_False; [reflexivity|].
      intros Hin. apply elem_of_cons in Hin as [?|?]; done.
Qed.

(** ** The row conversion of [_finalize_dfa] *)

(** A conversion that succeeds has visited every symbol once. *)
Lemma convert_row_sound (m : gmap (gset K) Z) (al : list pystr) :
  ∀ row row', nfa.convert_row m al row = Ok row' →
    NoDup al ∧
    (∀ symbol, symbol ∉ al → row' !! symbol = row !! symbol) ∧
    (∀ symbol, symbol ∈ al →
       ∃ d i, row !! symbol = Some (nfa.DSet d) ∧ m !! d = Some i ∧
              row' !! symbol = Some (nfa.DInt i)).
Proof.
  induction al as [|s rest IH]; intros row row' Hconv.
  - injection Hconv as <-. split; [constructor|]. split; [done|].
    intros symbol Hs. by apply not_elem_of_nil in Hs.
  - cbn [nfa.convert_row] in Hconv. unfold getitem in Hconv.
    destruct (row !! s) as [[d|n]|] eqn:Hs; cbn [mbind res_bind] in Hconv;
      try discriminate.
    destruct (m !! d) as [i|] eqn:Hd; cbn [mbind res_bind] in Hconv;
      try discriminate.
    apply IH in Hconv as (Hnd & Hout & Hin).
    assert (s ∉ rest) as Hnotin.
    { intros Hsr. destruct (Hin _ Hsr) as (d' & i' & Hc & _).
      rewrite lookup_insert_eq in Hc. discriminate. }
    split; [by constructor|]. split.
    + intros symbol Hsym. apply not_elem_of_cons in Hsym as [Hne Hsym].
      rewrite (Hout _ Hsym). by apply lookup_insert_ne.
    + intros symbol Hsym. apply elem_of_cons in Hsym as [->|Hsym].
      * exists d, i. split; [exact Hs|]. split; [exact Hd|].
        rewrite (Hout _ Hnotin). apply lookup_insert_eq.
      * destruct (Hin _ Hsym) as (d' & i' & Hrow & Hm & Hrow').
        exists d', i'. split; [|done].
        rewrite lookup_insert_ne in Hrow; [exact Hrow|]. by intros ->.
Qed.

Lemma convert_row_total (m : gmap (gset K) Z) (al : list pystr) :
  NoDup al →
  ∀ row, (∀ symbol, symbol ∈ al →
            ∃ d i, row !! symbol = Some (nfa.DSet d) ∧ m !! d = Some i) →
         ∃ row', nfa.convert_row m al row = Ok row'.
Proof.
  induction 1 as [|s rest Hs Hnd IH]; intros row Hrow.
  - by exists row.
  - destruct (Hrow s) as (d & i & Hd & Hi); [apply list_elem_of_here|].
    cbn [nfa.convert_row]. unfold getitem. rewrite Hd. cbn [mbind res_bind].
    rewrite Hi. cbn [mbind res_bind]. apply IH.
    intros symbol Hsym. destruct (Hrow symbol) as (d' & i' & Hd' & Hi');
      [by apply list_elem_of_further|].
    exists d', i'. split; [|exact Hi'].
    rewrite lookup_insert_ne; [exact Hd'|]. by intros ->.
Qed.

(** ** The state loop of [_finalize_dfa] *)

Lemma accept_state_default (q : K) :
  accept_state self q ↔ q ∈ default [] (nfa.accept_states self).
Proof.
  unfold accept_state. destruct (nfa.accept_states self) as [l|]; cbn [default from_option id].
  - split; [by intros (? & [= <-] & ?)|intros ?; by exists l].
  - split; [by intros (? & ? & ?)|intros Hq; by apply not_elem_of_nil in Hq].
Qed.

Lemma accepting_spec (s : gset K) :
  accepting self s = true ↔ ∃ q, q ∈ s ∧ accept_state self q.
Proof.
  unfold accepting. rewrite List.existsb_exists. split.
  - intros (q & Hq & Hacc). exists q. split.
    + apply elem_of_elements. by apply list_elem_of_In.
    + apply accept_state_default. by apply bool_decide_eq_true_1 in Hacc.
  - intros (q & Hq & Hacc). exists q. split.
    + apply list_elem_of_In. by apply elem_of_elements.
    + apply bool_decide_eq_true_2. by apply accept_state_default.
Qed.

(** With a list of accept states the inner loop is the membership test
    on the set; with [None] it fails at the first state it visits. *)
Lemma found_accept_state_Some (accept_states : list K) (states : list K) :
  nfa.accept_states self = Some accept_states →
  nfa.found_accept_state self states
  = Ok (existsb (λ nfa_state, bool_decide (nfa_state ∈ accept_states)) states).
Proof.
  intros Hacc. induction states as [|q states IH]; [reflexivity|].
  cbn [nfa.found_accept_state existsb]. rewrite Hacc.
  destruct (bool_decide (q ∈ accept_states)); [reflexivity|exact IH].
Qed.

Lemma found_accept_state_None (states : list K) :
  nfa.accept_states self = None →
  nfa.found_accept_state self states
  = match states with [] => Ok false | _ => Raise TypeError end.
Proof.
  intros Hacc. destruct states as [|q states]; [reflexivity|].
  cbn [nfa.found_accept_state]. by rewrite Hacc.
Qed.

Lemma found_accept_state_Ok (s : gset K) (found : bool) :
  nfa.found_accept_state self (elements s) = Ok found → found = accepting self s.
Proof.
  unfold accepting. destruct (nfa.accept_states self) as [accept_states|] eqn:Hacc.
  - rewrite (found_accept_state_Some accept_states) by exact Hacc.
    by intros [= <-].
  - rewrite found_accept_state_None by exact Hacc.
    destruct (elements s); [|discriminate]. by intros [= <-].
Qed.

Lemma finalize_loop_sound (m : gmap (gset K) Z) (r : gmap Z (gset K)) (states : list Z) :
  NoDup states →
  ∀ tf accept tf' accept',
    nfa.finalize_loop self m r states tf accept = Ok (tf', accept') →
    (∀ i, i ∉ states ∨ i = 1 → tf' !! i = tf !! i) ∧
    (∀ i, i ∈ states → i ≠ 1 →
       ∃ row row', tf !! i = Some row ∧
                   nfa.convert_row m (nfa.alphabet self) row = Ok row' ∧
                   tf' !! i = Some row') ∧
    (∀ a, a ∈ accept' ↔
          a ∈ accept ∨ (a ∈ states ∧ ∃ s, r !! a = Some s ∧ accepting self s = true)).
Proof.
  induction 1 as [|state rest Hstate Hnd IH]; intros tf accept tf' accept' Hloop.
  - injection Hloop as <- <-. split; [done|]. split.
    + intros i Hi. by apply not_elem_of_nil in Hi.
    + intros a. split; [by left|]. intros [?|[Ha _]]; [done|].
      by apply not_elem_of_nil in Ha.
  - cbn [nfa.finalize_loop] in Hloop. unfold getitem in Hloop.
    destruct (r !! state) as [s|] eqn:Hs; cbn [mbind res_bind] in Hloop;
      try discriminate.
    destruct (nfa.found_accept_state self (elements s)) as [found| |] eqn:Hfound;
      cbn [mbind res_bind] in Hloop; try discriminate.
    apply found_accept_state_Ok in Hfound. subst found.
    destruct (decide (state = 1)) as [->|Hne].
    + rewrite bool_decide_eq_false_2 in Hloop by (intros Hc; by apply Hc).
      cbn [mbind res_bind] in Hloop.
      apply IH in Hloop as (Hout & Hin & Hacc).
      split; [|split].
      * intros i [Hi|Hi]; apply Hout; [|by right].
        left. by apply not_elem_of_cons in Hi as [_ ?].
      * intros i Hi Hi1. apply elem_of_cons in Hi as [->|Hi]; [done|].
        by apply Hin.
      * intros a. rewrite Hacc. split.
        -- intros [Ha|(Ha & s' & Hs' & Hs'')].
           ++ destruct (accepting self s) eqn:Has; [|by left].
              apply elem_of_union in Ha as [Ha|Ha]; [|by left].
              apply elem_of_singleton in Ha as ->. right.
              split; [apply list_elem_of_here|eauto].
           ++ right. split; [by apply list_elem_of_further|eauto].
        -- intros [Ha|(Ha & s' & Hs' & Hs'')].
           ++ left. destruct (accepting self s); [set_solver|done].
           ++ apply elem_of_cons in Ha as [->|Ha]; [|right; eauto].
              left. rewrite Hs in Hs'. injection Hs' as <-.
              rewrite Hs''. set_solver.
    + rewrite bool_decide_eq_true_2 in Hloop by exact Hne.
      destruct (tf !! state) as [row|] eqn:Hrow; cbn [mbind res_bind] in Hloop;
        try discriminate.
      destruct (nfa.convert_row m (nfa.alphabet self) row) as [row'| |] eqn:Hconv;
        cbn [mbind res_bind] in Hloop; try discriminate.
      apply IH in Hloop as (Hout & Hin & Hacc).
      split; [|split].
      * intros i Hi. rewrite Hout.
        -- apply lookup_insert_ne. destruct Hi as [Hi| ->]; [|done].
           apply not_elem_of_cons in Hi as [? _]. done.
        -- destruct Hi as [Hi|Hi]; [|by right].
           left. by apply not_elem_of_cons in Hi as [_ ?].
      * intros i Hi Hi1. apply elem_of_cons in Hi as [->|Hi].
        -- exists row, row'. split; [exact Hrow|]. split; [exact Hconv|].
           rewrite Hout by (by left). apply lookup_insert_eq.
        -- destruct (Hin i Hi Hi1) as (row0 & row0' & Hr0 & Hc0 & Hr0').
           exists row0, row0'. split; [|done].
           rewrite lookup_insert_ne in Hr0; [exact Hr0|]. by intros ->.
      * intros a. rewrite Hacc. split.
        -- intros [Ha|(Ha & s' & Hs' & Hs'')].
           ++ destruct (accepting self s) eqn:Has; [|by left].
              apply elem_of_union in Ha as [Ha|Ha]; [|by left].
              apply elem_of_singleton in Ha as ->. right.
              split; [apply list_elem_of_here|eauto].
           ++ right. split; [by apply list_elem_of_further|eauto].
        -- intros [Ha|(Ha & s' & Hs' & Hs'')].
           ++ left. destruct (accepting self s); [set_solver|done].
           ++ apply elem_of_cons in Ha as [->|Ha]; [|right; eauto].
              left. rewrite Hs in Hs'. injection Hs' as <-.
              rewrite Hs''. set_solver.
Qed.

Lemma finalize_loop_total (m : gmap (gset K) Z) (r : gmap Z (gset K)) (states : list Z) :
  is_Some (nfa.accept_states self) →
  NoDup states →
  ∀ tf accept,
    (∀ i, i ∈ states → is_Some (r !! i)) →
    (∀ i, i ∈ states → i ≠ 1 →
       ∃ row row', tf !! i = Some row ∧
                   nfa.convert_row m (nfa.alphabet self) row = Ok row') →
    ∃ res, nfa.finalize_loop self m r states tf accept = Ok res.
Proof.
  intros [accept_states Hsome].
  induction 1 as [|state rest Hstate Hnd IH]; intros tf accept Hr Hrows.
  - eexists. reflexivity.
  - cbn [nfa.finalize_loop]. unfold getitem.
    destruct (Hr state) as [s Hs]; [apply list_elem_of_here|].
    rewrite Hs. cbn [mbind res_bind].
    rewrite (found_accept_state_Some accept_states) by exact Hsome.
    cbn [mbind res_bind].
    destruct (decide (state = 1)) as [->|Hne].
    + rewrite bool_decide_eq_false_2 by (intros Hc; by apply Hc).
      cbn [mbind res_bind]. apply IH.
      * intros i Hi. apply Hr. by apply list_elem_of_further.
      * intros i Hi Hi1. apply Hrows; [by apply list_elem_of_further|done].
    + rewrite bool_decide_eq_true_2 by exact Hne.
      destruct (Hrows state) as (row & row' & Hrow & Hconv);
        [apply list_elem_of_here|done|].
      rewrite Hrow. cbn [mbind res_bind]. rewrite Hconv. cbn [mbind res_bind].
      apply IH.
      * intros i Hi. apply Hr. by apply list_elem_of_further.
      * intros i Hi Hi1.
        destruct (Hrows i) as (row0 & row0' & Hrow0 & Hconv0);
          [by apply list_elem_of_further|done|].
        exists row0, row0'. split; [|exact Hconv0].
        rewrite lookup_insert_ne; [exact Hrow0|]. by intros ->.
Qed.

(** When the loop returns, the membership test was made on the set of
    every state and did not fail. *)
Lemma finalize_loop_tests (m : gmap (gset K) Z) (r : gmap Z (gset K)) (states : list Z) :
  ∀ tf accept res,
    nfa.finalize_loop self m r states tf accept = Ok res →
    ∀ i, i ∈ states →
         ∃ s found, r !! i = Some s ∧
                    nfa.found_accept_state self (elements s) = Ok found.
Proof.
  induction states as [|state rest IH]; intros tf accept res Hloop i Hi;
    [by apply not_elem_of_nil in Hi|].
  cbn [nfa.finalize_loop] in Hloop. unfold getitem in Hloop.
  destruct (r !! state) as [s|] eqn:Hs; cbn [mbind res_bind] in Hloop;
    try discriminate.
  destruct (nfa.found_accept_state self (elements s)) as [found| |] eqn:Hfound;
    cbn [mbind res_bind] in Hloop; try discriminate.
  apply elem_of_cons in Hi as [->|Hi]; [by exists s, found|].
  destruct (bool_decide (state ≠ 1)).
  - destruct (tf !! state) as [row|]; cbn [mbind res_bind] in Hloop;
      try discriminate.
    destruct (nfa.convert_row m (nfa.alphabet self) row) as [row'| |];
      cbn [mbind res_bind] in Hloop; try discriminate.
    by eapply IH.
  - cbn [mbind res_bind] in Hloop. by eapply IH.
Qed.

(** With [accept_states] unset the loop ends in the [TypeError] of the
    first membership test, on the first state whose set is not empty. *)
Lemma finalize_loop_None (m : gmap (gset K) Z) (r : gmap Z (gset K)) (states : list Z) :
  nfa.accept_states self = None →
  (∀ i, i ∈ states → ∃ s, r !! i = Some s ∧ (i = 1 → s = ∅) ∧ (i ≠ 1 → s ≠ ∅)) →
  (∃ i, i ∈ states ∧ i ≠ 1) →
  ∀ tf accept, nfa.finalize_loop self m r states tf accept = Raise TypeError.
Proof.
  intros Hnone. induction states as [|state rest IH]; intros Hr (i & Hi & Hne) tf accept;
    [by apply not_elem_of_nil in Hi|].
  cbn [nfa.finalize_loop]. unfold getitem.
  destruct (Hr state) as (s & Hs & Hone & Hother); [apply list_elem_of_here|].
  rewrite Hs. cbn [mbind res_bind].
  rewrite found_accept_state_None by exact Hnone.
  destruct (decide (state = 1)) as [->|Hstate].
  - rewrite (Hone eq_refl), elements_empty. cbn [mbind res_bind].
    rewrite bool_decide_eq_false_2 by (intros Hc; by apply Hc).
    cbn [mbind res_bind]. apply IH.
    + intros j Hj. apply Hr. by apply list_elem_of_further.
    + exists i. split; [|exact Hne].
      apply elem_of_cons in Hi as [->|Hi]; [done|exact Hi].
  - destruct (elements s) as [|q qs] eqn:Hel; [|reflexivity].
    apply elements_empty_inv in Hel. apply leibniz_equiv in Hel.
    by destruct (Hother Hstate).
Qed.
End FinalizeFacts.

Section SubsetConstruction.
Context `{Countable K}.
Variable self : nfa.NFA K.

Lemma loop_end_spec (start : gset K) (st : nfa.loop_state K) :
  loop_inv self start st → nfa.queue st = [] →
  nfa.states_handled st !! O = Some start ∧
  (∀ s i, nfa.dfa_state_int_mapping st !! s = Some i ↔
          (s = ∅ ∧ i = 1) ∨
          (∃ k, nfa.states_handled st !! k = Some s ∧ i = 2 + Z.of_nat k)) ∧
  (∀ i s, nfa.dfa_state_int_mapping_reverse st !! i = Some s ↔
          (i = 1 ∧ s = ∅) ∨
          (∃ k, nfa.states_handled st !! k = Some s ∧ i = 2 + Z.of_nat k)) ∧
  (∀ i row, nfa.l_transition_function st !! i = Some row →
     2 ≤ i ∧
     (∀ symbol, is_Some (row !! symbol) ↔ symbol ∈ nfa.alphabet self) ∧
     (∀ symbol d0, row !! symbol = Some d0 →
        ∃ d, d0 = nfa.DSet d ∧
             ((d = ∅ ∧ nfa.found_empty st = true) ∨ d ∈ nfa.states_handled st))).
Proof.
  intros [Hnd Hh Hq Hfirst Hnext Hnum Hmap Hrev Hdom Hrow Hfe] Hqueue.
  assert (nfa.states_handled st !! O = Some start) as H0.
  { destruct (nfa.states_handled st) as [|s l]; [|by subst s].
    rewrite Hqueue in Hfirst. discriminate. }
  split; [exact H0|]. split; [|split].
  - intros s i. rewrite Hmap. split.
    + intros [?|[[-> ->]|?]]; [by left| |by right]. right. by exists O.
    + intros [?|?]; [by left|by right; right].
  - intros i s. rewrite Hrev. split.
    + intros [?|[[-> ->]|?]]; [by left| |by right]. right. by exists O.
    + intros [?|?]; [by left|by right; right].
  - intros i row Hi. split.
    + assert (is_Some (nfa.l_transition_function st !! i)) as Hs by eauto.
      apply Hdom in Hs. lia.
    + destruct (Hrow i row Hi) as [Hsym Hent]. split; [exact Hsym|].
      intros symbol d0 Hd0. destruct (Hent symbol d0 Hd0) as (d & -> & Hd).
      exists d. split; [reflexivity|]. destruct Hd as [->|[Hd|Hd]].
      * left. split; [reflexivity|]. apply Hfe. eauto.
      * by right.
      * rewrite Hqueue in Hd. by apply not_elem_of_nil in Hd.
Qed.

Lemma nfa_conversion_of_loop (start : gset K) (st : nfa.loop_state K) :
  start ≠ ∅ → loop_inv self start st → nfa.queue st = [] →
  ∃ c,
    (if negb (nfa.found_empty st) then
       _ ← getitem (nfa.dfa_state_int_mapping st) ∅;
       _ ← getitem (nfa.dfa_state_int_mapping_reverse st) 1;
       Ok (nfa.mkConversion (2 - 1) (nfa.l_number_of_states st - 1)
             (nfa.l_transition_function st)
             (delete ∅ (nfa.dfa_state_int_mapping st))
             (delete 1 (nfa.dfa_state_int_mapping_reverse st)) false)
     else
       Ok (nfa.mkConversion 2 (nfa.l_number_of_states st)
             (nfa.reject_loops self (nfa.l_transition_function st))
             (nfa.dfa_state_int_mapping st)
             (nfa.dfa_state_int_mapping_reverse st) true)) = Ok c ∧
    conv_spec self start (nfa.states_handled st) c.
Proof.
  intros Hstart Hinv Hqueue.
  destruct (loop_end_spec start st Hinv Hqueue) as (H0 & Hmap & Hrev & Hrows).
  destruct Hinv as [Hnd Hh Hq Hfirst Hnext Hnum _ _ Hdom Hrow Hfe].
  destruct (nfa.found_empty st) eqn:Hfound; cbn [negb].
  - (* the empty set was reached *)
    assert (nfa.alphabet self ≠ []) as Hal.
    { destruct (proj1 Hfe eq_refl) as (i & row & symbol & Hi & Hs).
      destruct (Hrows i row Hi) as (_ & Hsym & _).
      assert (symbol ∈ nfa.alphabet self) as Hin by (apply Hsym; eauto).
      intros Hnil. rewrite Hnil in Hin. by apply not_elem_of_nil in Hin. }
    assert (nfa.l_transition_function st !! 1 = None) as Hnone.
    { apply eq_None_not_Some. rewrite Hdom. lia. }
    eexists. split; [reflexivity|].
    split; cbn [nfa.c_start_state nfa.c_number_of_states nfa.c_transition_function
                nfa.c_int_mapping nfa.c_int_mapping_reverse nfa.c_found_empty].
    + exact Hnd.
    + exact H0.
    + intros s Hs. by apply Hh.
    + reflexivity.
    + lia.
    + intros s i. rewrite Hmap. naive_solver.
    + intros i s. rewrite Hrev. naive_solver.
    + intros i. destruct (decide (i = 1)) as [->|Hne].
      * destruct (reject_loops_one self _ Hnone Hal) as (row1 & Hr1 & _).
        rewrite Hr1. split; [intros _; by right|eauto].
      * rewrite reject_loops_other by done. rewrite Hdom. split; [by left|].
        intros [?|[? _]]; done.
    + intros i row Hi Hrowi. rewrite reject_loops_other in Hrowi by lia.
      destruct (Hrows i row Hrowi) as (_ & Hsym & Hent). split; [exact Hsym|].
      intros symbol d0 Hd0. destruct (Hent symbol d0 Hd0) as (d & -> & Hd).
      exists d. split; [reflexivity|]. destruct Hd as [[-> _]|Hd]; [by left|by right].
    + intros _. by apply reject_loops_one.
    + split; [|done]. intros _.
      destruct (proj1 Hfe eq_refl) as (i & row & symbol & Hi & Hs).
      exists i, row, symbol. destruct (Hrows i row Hi) as (Hge & _).
      split; [exact Hge|]. split; [|exact Hs].
      rewrite reject_loops_other by lia. exact Hi.
  - (* the empty set was not reached *)
    unfold getitem.
    rewrite (proj2 (Hmap ∅ 1)) by (by left).
    rewrite (proj2 (Hrev 1 ∅)) by (by left). cbn [mbind res_bind].
    eexists. split; [reflexivity|].
    split; cbn [nfa.c_start_state nfa.c_number_of_states nfa.c_transition_function
                nfa.c_int_mapping nfa.c_int_mapping_reverse nfa.c_found_empty].
    + exact Hnd.
    + exact H0.
    + intros s Hs. by apply Hh.
    + reflexivity.
    + lia.
    + intros s i. destruct (decide (s = ∅)) as [->|Hne].
      * rewrite lookup_delete_eq. split; [discriminate|].
        intros [(_ & _ & ?)|(k & Hk & _)]; [discriminate|].
        exfalso. eapply Hh; [by eapply list_elem_of_lookup_2|reflexivity].
      * rewrite lookup_delete_ne by done. rewrite Hmap. naive_solver.
    + intros i s. destruct (decide (i = 1)) as [->|Hne].
      * rewrite lookup_delete_eq. split; [discriminate|].
        intros [(_ & _ & ?)|(k & Hk & ?)]; [discriminate|lia].
      * rewrite lookup_delete_ne by done. rewrite Hrev. naive_solver.
    + intros i. rewrite Hdom. split; [by left|]. intros [?|[_ ?]]; done.
    + intros i row Hi Hrowi.
      destruct (Hrows i row Hrowi) as (_ & Hsym & Hent). split; [exact Hsym|].
      intros symbol d0 Hd0. destruct (Hent symbol d0 Hd0) as (d & -> & Hd).
      exists d. split; [reflexivity|]. destruct Hd as [[_ ?]|Hd]; [done|by right].
    + discriminate.
    + split; [discriminate|]. intros (i & row & symbol & _ & Hi & Hs).
      apply Hfe. eauto.
Qed.

Lemma nfa_conversion_sound (fuel : nat) (start : gset K) (c : nfa.conversion K) :
  start ≠ ∅ → nfa._nfa_conversion self fuel start = Ok c →
  ∃ sets, conv_spec self start sets c.
Proof.
  intros Hstart Hc. unfold nfa._nfa_conversion in Hc.
  destruct (nfa.conversion_loop self fuel _) as [st| |] eqn:Hloop;
    cbn [mbind res_bind] in Hc; try discriminate.
  apply (conversion_loop_inv self start Hstart) in Hloop as [Hinv Hqueue];
    [|by apply loop_inv_init].
  destruct (nfa_conversion_of_loop start st Hstart Hinv Hqueue) as (c' & Hc' & Hspec).
  rewrite Hc' in Hc. injection Hc as <-. eauto.
Qed.

Lemma nfa_conversion_total (start : gset K) :
  start ≠ ∅ →
  ∃ fuel0 c, ∀ fuel, (fuel0 ≤ fuel)%nat →
    nfa._nfa_conversion self fuel start = Ok c.
Proof.
  intros Hstart.
  destruct (conversion_loop_terminates self start Hstart _
              (loop_inv_init self start Hstart)) as (fuel0 & st & Hloop).
  pose proof (Hloop fuel0 (le_n _)) as Hloop0.
  apply (conversion_loop_inv self start Hstart) in Hloop0 as [Hinv Hqueue];
    [|by apply loop_inv_init].
  destruct (nfa_conversion_of_loop start st Hstart Hinv Hqueue) as (c & Hc & _).
  exists fuel0, c. intros fuel Hf. unfold nfa._nfa_conversion.
  rewrite (Hloop fuel Hf). cbn [mbind res_bind]. exact Hc.
Qed.
End SubsetConstruction.

#[local] Instance pred_inj : Inj (=) (=) (λ state : Z, state - 1).
Proof. intros x y Hxy. lia. Qed.

Section FinalDFA.
Context `{Countable K}.
Variable self : nfa.NFA K.
Variable start : gset K.
Variable sets : list (gset K).
Variable c : nfa.conversion K.
Hypothesis Hspec : conv_spec self start sets c.

Lemma finalize_rows tf' accept' :
  nfa.finalize_loop self (nfa.c_int_mapping c) (nfa.c_int_mapping_reverse c)
    (elements (dom (nfa.c_transition_function c)))
    (nfa.c_transition_function c) ∅ = Ok (tf', accept') →
  tf' !! 1 = nfa.c_transition_function c !! 1 ∧
  (∀ i, is_Some (tf' !! i) ↔ is_Some (nfa.c_transition_function c !! i)) ∧
  (∀ i crow, 2 ≤ i → nfa.c_transition_function c !! i = Some crow →
     ∃ row', tf' !! i = Some row' ∧
       ∀ symbol,
         (symbol ∉ nfa.alphabet self → row' !! symbol = None) ∧
         (symbol ∈ nfa.alphabet self →
            ∃ dset j, crow !! symbol = Some (nfa.DSet dset) ∧
                      nfa.c_int_mapping c !! dset = Some j ∧
                      row' !! symbol = Some (nfa.DInt j))) ∧
  (∀ a, a ∈ accept' ↔
        ∃ s, 2 ≤ a ∧ nfa.c_int_mapping_reverse c !! a = Some s ∧
             accepting self s = true).
Proof.
  intros Hloop.
  apply finalize_loop_sound in Hloop as (Hout & Hin & Hacc);
    [|apply NoDup_elements].
  assert (∀ i, i ∈ elements (dom (nfa.c_transition_function c)) ↔
               is_Some (nfa.c_transition_function c !! i)) as Hkeys.
  { intros i. rewrite elem_of_elements. apply elem_of_dom. }
  assert (∀ i crow, 2 ≤ i → nfa.c_transition_function c !! i = Some crow →
     ∃ row', tf' !! i = Some row' ∧
       ∀ symbol,
         (symbol ∉ nfa.alphabet self → row' !! symbol = None) ∧
         (symbol ∈ nfa.alphabet self →
            ∃ dset j, crow !! symbol = Some (nfa.DSet dset) ∧
                      nfa.c_int_mapping c !! dset = Some j ∧
                      row' !! symbol = Some (nfa.DInt j))) as Hrows.
  { intros i crow Hi Hcrow.
    destruct (Hin i) as (row & row' & Hrow & Hconv & Hrow');
      [apply Hkeys; eauto|lia|].
    rewrite Hcrow in Hrow. injection Hrow as <-.
    exists row'. split; [exact Hrow'|].
    apply convert_row_sound in Hconv as (_ & Hnot & Hyes).
    destruct (cs_row _ _ _ _ Hspec i crow Hi Hcrow) as [Hsym _].
    intros symbol. split.
    - intros Hs. rewrite (Hnot _ Hs). apply eq_None_not_Some.
      by rewrite Hsym.
    - intros Hs. destruct (Hyes _ Hs) as (d & j & ? & ? & ?). by exists d, j. }
  split; [apply Hout; by right|]. split; [|split; [exact Hrows|]].
  - intros i. destruct (decide (i = 1)) as [->|Hne].
    + rewrite Hout; [done|by right].
    + split.
      * intros Hs. destruct (nfa.c_transition_function c !! i) eqn:Hi; [eauto|].
        rewrite Hout in Hs; [by rewrite Hi in Hs|].
        left. rewrite Hkeys, Hi. by intros [? ?].
      * intros [crow Hcrow].
        assert (2 ≤ i) as Hge.
        { assert (is_Some (nfa.c_transition_function c !! i)) as Hs by eauto.
          apply (cs_dom _ _ _ _ Hspec) in Hs as [?|[? _]]; [lia|done]. }
        destruct (Hrows i crow Hge Hcrow) as (row' & Hrow' & _). eauto.
  - intros a. rewrite Hacc. split.
    + intros [Ha|(Ha & s & Hs & Has)]; [by apply not_elem_of_empty in Ha|].
      exists s. split; [|done].
      apply Hkeys, (cs_dom _ _ _ _ Hspec) in Ha as [?|[-> Hfe]]; [lia|].
      apply (cs_rev _ _ _ _ Hspec) in Hs as [(_ & -> & _)|(k & _ & ?)]; [|lia].
      unfold accepting in Has. rewrite elements_empty in Has. discriminate.
    + intros (s & Ha & Hs & Has). right. split; [|eauto].
      apply Hkeys, (cs_dom _ _ _ _ Hspec). left.
      pose proof Hs as Hs'.
      apply (cs_rev _ _ _ _ Hspec) in Hs' as [(? & _)|(k & Hk & ->)]; [lia|].
      apply lookup_lt_Some in Hk. lia.
Qed.

Lemma row_ints_lookup (row : gmap pystr (nfa.dest K)) (symbol : pystr) :
  nfa.row_ints row !! symbol
  = match row !! symbol with
    | Some (nfa.DInt n) => Some n
    | _ => None
    end.
Proof.
  unfold nfa.row_ints. rewrite lookup_omap.
  destruct (row !! symbol) as [[?|?]|]; reflexivity.
Qed.

Lemma finalize_dfa_sound (d : dfa.DFA Z) :
  nfa._finalize_dfa self c = Ok d → dfa_spec self sets c d.
Proof.
  unfold nfa._finalize_dfa.
  destruct (nfa.finalize_loop self _ _ _ _ ∅) as [[tf' accept']| |] eqn:Hloop;
    cbn [mbind res_bind]; try discriminate.
  apply finalize_rows in Hloop as (Hone & Hdom & Hrows & Hacc).
  pose proof (cs_start _ _ _ _ Hspec) as Hstart.
  pose proof (cs_num _ _ _ _ Hspec) as Hnum.
  destruct (nfa.c_found_empty c) eqn:Hfe.
  - (* state 1 is kept *)
    destruct (cs_row1 _ _ _ _ Hspec Hfe) as (row1 & Hrow1 & Hloops).
    rewrite bool_decide_eq_false_2.
    2:{ intros Hnot. apply Hnot, elem_of_dom. rewrite Hone, Hrow1. eauto. }
    cbn [mbind res_bind]. intros [= <-].
    split; unfold shift_of; rewrite ?Hfe;
      cbn [dfa.alphabet dfa.start_state dfa.number_of_states
           dfa.transition_function dfa.accept_states].
    + reflexivity.
    + lia.
    + lia.
    + intros i. rewrite Z.add_0_r, lookup_fmap, fmap_is_Some. apply Hdom.
    + intros i crow Hi Hcrow. destruct (Hrows i crow Hi Hcrow) as (row' & Hrow' & Hsym).
      exists (nfa.row_ints row'). rewrite Z.sub_0_r, lookup_fmap, Hrow'.
      split; [reflexivity|]. intros symbol. rewrite row_ints_lookup.
      destruct (Hsym symbol) as [Hnot Hyes]. split.
      * intros Hs. by rewrite (Hnot Hs).
      * intros Hs. destruct (Hyes Hs) as (dset & j & Hc & Hm & Hr).
        exists dset, j. rewrite Hr, Z.sub_0_r. done.
    + intros _. exists (nfa.row_ints row1).
      rewrite lookup_fmap, Hone, Hrow1. split; [reflexivity|].
      intros symbol. rewrite row_ints_lookup, Hloops.
      by destruct (decide (symbol ∈ nfa.alphabet self)).
    + intros a. rewrite Z.add_0_r. apply Hacc.
  - (* state 1 is removed *)
    rewrite bool_decide_eq_true_2.
    2:{ intros Hin. apply elem_of_dom, Hdom, (cs_dom _ _ _ _ Hspec) in Hin
          as [?|[_ ?]]; [lia|congruence]. }
    unfold nfa._generate_shifted_keys_dict.
    destruct (bool_decide (map_Forall _ tf')); cbn [mbind res_bind];
      [|discriminate].
    intros [= <-].
    assert (∀ i, kmap (M1 := gmap Z) (M2 := gmap Z) (λ state : Z, state - 1)
                   ((λ row : gmap pystr (nfa.dest K), nfa.shift_dest <$> row) <$> tf')
                 !! i
                 = (λ row : gmap pystr (nfa.dest K), nfa.shift_dest <$> row)
                     <$> tf' !! (i + 1)) as Hshift.
    { intros i. replace i with ((i + 1) - 1) at 1 by lia.
      rewrite (lookup_kmap (λ state : Z, state - 1)). apply lookup_fmap. }
    split; unfold shift_of; rewrite ?Hfe;
      cbn [dfa.alphabet dfa.start_state dfa.number_of_states
           dfa.transition_function dfa.accept_states].
    + reflexivity.
    + lia.
    + lia.
    + intros i. rewrite lookup_fmap, Hshift, !fmap_is_Some. apply Hdom.
    + intros i crow Hi Hcrow. destruct (Hrows i crow Hi Hcrow) as (row' & Hrow' & Hsym).
      exists (nfa.row_ints (nfa.shift_dest <$> row')).
      rewrite lookup_fmap, Hshift. replace (i - 1 + 1) with i by lia.
      rewrite Hrow'. split; [reflexivity|].
      intros symbol. rewrite row_ints_lookup, lookup_fmap.
      destruct (Hsym symbol) as [Hnot Hyes]. split.
      * intros Hs. by rewrite (Hnot Hs).
      * intros Hs. destruct (Hyes Hs) as (dset & j & Hc & Hm & Hr).
        exists dset, j. rewrite Hr. done.
    + discriminate.
    + intros a. unfold nfa.shifted_keys_set. rewrite elem_of_map. split.
      * intros (x & -> & Hx). apply Hacc in Hx as (s & ? & ? & ?).
        exists s. replace (x - 1 + 1) with x by lia. done.
      * intros (s & Hge & Hs & Has). exists (a + 1). split; [lia|].
        apply Hacc. eauto.
Qed.

Lemma finalize_dfa_total :
  NoDup (nfa.alphabet self) → is_Some (nfa.accept_states self) →
  ∃ d, nfa._finalize_dfa self c = Ok d.
Proof.
  intros Hnd Hsome. unfold nfa._finalize_dfa.
  destruct (finalize_loop_total self (nfa.c_int_mapping c)
              (nfa.c_int_mapping_reverse c)
              (elements (dom (nfa.c_transition_function c)))
              Hsome
              (NoDup_elements _) (nfa.c_transition_function c) ∅)
    as ([tf' accept'] & Hloop).
  { intros i Hi. apply elem_of_elements, elem_of_dom, (cs_dom _ _ _ _ Hspec) in Hi.
    destruct Hi as [Hi|[-> Hfe]].
    - destruct (lookup_lt_is_Some_2 sets (Z.to_nat (i - 2))) as [s Hs]; [lia|].
      exists s. apply (cs_rev _ _ _ _ Hspec). right.
      exists (Z.to_nat (i - 2)). split; [exact Hs|lia].
    - exists ∅. apply (cs_rev _ _ _ _ Hspec). by left. }
  { intros i Hi Hne.
    apply elem_of_elements, elem_of_dom in Hi as [crow Hcrow].
    assert (2 ≤ i) as Hge.
    { assert (is_Some (nfa.c_transition_function c !! i)) as Hs by eauto.
      apply (cs_dom _ _ _ _ Hspec) in Hs as [?|[? _]]; [lia|done]. }
    destruct (cs_row _ _ _ _ Hspec i crow Hge Hcrow) as [Hsym Hent].
    destruct (convert_row_total (nfa.c_int_mapping c) (nfa.alphabet self) Hnd crow)
      as [row' Hrow']; [|eauto].
    intros symbol Hs. apply Hsym in Hs as [d0 Hd0].
    destruct (Hent symbol d0 Hd0) as (dset & -> & [[-> Hfe]|Hin]).
    - exists ∅, 1. split; [exact Hd0|]. apply (cs_map _ _ _ _ Hspec). by left.
    - apply list_elem_of_lookup in Hin as [k Hk].
      exists dset, (2 + Z.of_nat k). split; [exact Hd0|].
      apply (cs_map _ _ _ _ Hspec). right. by exists k. }
  rewrite Hloop. cbn [mbind res_bind].
  pose proof Hloop as Hrows.
  apply finalize_rows in Hrows as (Hone & Hdom & Hrows & Hacc).
  destruct (decide (1 ∈ dom tf')) as [Hin|Hnin].
  - rewrite bool_decide_eq_false_2 by (intros Hc; by apply Hc).
    cbn [mbind res_bind]. eauto.
  - rewrite bool_decide_eq_true_2 by exact Hnin.
    unfold nfa._generate_shifted_keys_dict.
    rewrite bool_decide_eq_true_2; [cbn [mbind res_bind]; eauto|].
    intros i row Hi symbol d0 Hd0.
    assert (is_Some (nfa.c_transition_function c !! i)) as [crow Hcrow]
      by (apply Hdom; eauto).
    assert (2 ≤ i) as Hge.
    { assert (is_Some (nfa.c_transition_function c !! i)) as Hs by eauto.
      apply (cs_dom _ _ _ _ Hspec) in Hs as [?|[-> _]]; [lia|].
      exfalso. apply Hnin, elem_of_dom. eauto. }
    destruct (Hrows i crow Hge Hcrow) as (row' & Hrow' & Hsym).
    rewrite Hi in Hrow'. injection Hrow' as <-.
    destruct (decide (symbol ∈ nfa.alphabet self)) as [Hs|Hs].
    + destruct (proj2 (Hsym symbol) Hs) as (dset & j & _ & _ & Hr).
      rewrite Hd0 in Hr. by injection Hr as ->.
    + rewrite (proj1 (Hsym symbol) Hs) in Hd0. discriminate.
Qed.

(** With [accept_states] unset, [_finalize_dfa] raises [TypeError]. *)
Lemma finalize_dfa_None :
  nfa.accept_states self = None → nfa._finalize_dfa self c = Raise TypeError.
Proof.
  intros Hnone. unfold nfa._finalize_dfa.
  rewrite (finalize_loop_None self); [reflexivity|exact Hnone|..].
  - intros i Hi. apply elem_of_elements, elem_of_dom, (cs_dom _ _ _ _ Hspec) in Hi.
    destruct Hi as [Hi|[-> Hfe]].
    + destruct (lookup_lt_is_Some_2 sets (Z.to_nat (i - 2))) as [s Hs]; [lia|].
      exists s. split; [|split; [lia|]].
      * apply (cs_rev _ _ _ _ Hspec). right.
        exists (Z.to_nat (i - 2)). split; [exact Hs|lia].
      * intros _. apply (cs_nonempty _ _ _ _ Hspec).
        by eapply list_elem_of_lookup_2.
    + exists ∅. split; [|done]. apply (cs_rev _ _ _ _ Hspec). by left.
  - exists 2. split; [|lia].
    apply elem_of_elements, elem_of_dom, (cs_dom _ _ _ _ Hspec). left.
    pose proof (cs_first _ _ _ _ Hspec) as H0. apply lookup_lt_Some in H0. lia.
Qed.
End FinalDFA.

Section ToDFA.
Context `{Countable K}.
Variable self : nfa.NFA K.

Lemma to_DFA_sound (fuel : nat) (d : dfa.DFA Z) :
  nfa.to_DFA self fuel = Ok d →
  ∃ start sets c,
    nfa._get_epsilon_closure self fuel (nfa.start_state self) = Ok start ∧
    nfa._nfa_conversion self fuel start = Ok c ∧
    conv_spec self start sets c ∧ dfa_spec self sets c d.
Proof.
  unfold nfa.to_DFA.
  destruct (nfa._get_epsilon_closure self fuel (nfa.start_state self))
    as [start| |] eqn:Hstart; cbn [mbind res_bind]; try discriminate.
  destruct (nfa._nfa_conversion self fuel start) as [c| |] eqn:Hc;
    cbn [mbind res_bind]; try discriminate.
  intros Hd.
  assert (start ≠ ∅) as Hne.
  { apply get_epsilon_closure_sound in Hstart as [Hin _]. set_solver. }
  destruct (nfa_conversion_sound self fuel start c Hne Hc) as (sets & Hspec).
  exists start, sets, c. split; [reflexivity|]. split; [exact Hc|].
  split; [exact Hspec|]. by eapply finalize_dfa_sound.
Qed.

Lemma to_DFA_total :
  NoDup (nfa.alphabet self) → is_Some (nfa.accept_states self) →
  ∃ fuel0 start c d, ∀ fuel, (fuel0 ≤ fuel)%nat →
    nfa._get_epsilon_closure self fuel (nfa.start_state self) = Ok start ∧
    nfa._nfa_conversion self fuel start = Ok c ∧
    nfa.to_DFA self fuel = Ok d.
Proof.
  intros Hnd Hsome.
  destruct (get_epsilon_closure_total self (nfa.start_state self))
    as (f1 & start & Hstart).
  assert (start ≠ ∅) as Hne.
  { pose proof (Hstart f1 (le_n _)) as Hs.
    apply get_epsilon_closure_sound in Hs as [Hin _]. set_solver. }
  destruct (nfa_conversion_total self start Hne) as (f2 & c & Hc).
  destruct (nfa_conversion_sound self f2 start c Hne (Hc f2 (le_n _)))
    as (sets & Hspec).
  destruct (finalize_dfa_total self start sets c Hspec Hnd Hsome) as (d & Hd).
  exists (f1 `max` f2)%nat, start, c, d. intros fuel Hf.
  assert (nfa._get_epsilon_closure self fuel (nfa.start_state self) = Ok start)
    as Hs by (apply Hstart; lia).
  assert (nfa._nfa_conversion self fuel start = Ok c) as Hc' by (apply Hc; lia).
  split; [exact Hs|]. split; [exact Hc'|].
  unfold nfa.to_DFA. rewrite Hs. cbn [mbind res_bind]. rewrite Hc'. exact Hd.
Qed.

(** A DFA whose alphabet is listed with a repetition is never returned. *)
Lemma to_DFA_needs_NoDup (fuel : nat) (d : dfa.DFA Z) :
  nfa.to_DFA self fuel = Ok d → NoDup (nfa.alphabet self).
Proof.
  unfold nfa.to_DFA.
  destruct (nfa._get_epsilon_closure self fuel (nfa.start_state self))
    as [start| |] eqn:Hstart; cbn [mbind res_bind]; try discriminate.
  destruct (nfa._nfa_conversion self fuel start) as [c| |] eqn:Hc;
    cbn [mbind res_bind]; try discriminate.
  assert (start ≠ ∅) as Hne.
  { apply get_epsilon_closure_sound in Hstart as [Hin _]. set_solver. }
  destruct (nfa_conversion_sound self fuel start c Hne Hc) as (sets & Hspec).
  unfold nfa._finalize_dfa.
  destruct (nfa.finalize_loop self _ _ _ _ ∅) as [[tf' accept']| |] eqn:Hloop;
    cbn [mbind res_bind]; try discriminate.
  intros _.
  apply finalize_loop_sound in Hloop as (_ & Hin & _); [|apply NoDup_elements].
  destruct (Hin 2) as (row & row' & _ & Hconv & _); [|lia|].
  - apply elem_of_elements, elem_of_dom, (cs_dom _ _ _ _ Hspec). left.
    pose proof (cs_first _ _ _ _ Hspec) as H0. apply lookup_lt_Some in H0. lia.
  - by apply convert_row_sound in Hconv as (? & _).
Qed.

(** With [accept_states] unset, [to_DFA] raises [TypeError] once the
    fuel suffices for its loops. *)
Lemma to_DFA_None_TypeError :
  nfa.accept_states self = None →
  ∃ fuel0, ∀ fuel, (fuel0 ≤ fuel)%nat → nfa.to_DFA self fuel = Raise TypeError.
Proof.
  intros Hnone.
  destruct (get_epsilon_closure_total self (nfa.start_state self))
    as (f1 & start & Hstart).
  assert (start ≠ ∅) as Hne.
  { pose proof (Hstart f1 (le_n _)) as Hs.
    apply get_epsilon_closure_sound in Hs as [Hin _]. set_solver. }
  destruct (nfa_conversion_total self start Hne) as (f2 & c & Hc).
  destruct (nfa_conversion_sound self f2 start c Hne (Hc f2 (le_n _)))
    as (sets & Hspec).
  exists (f1 `max` f2)%nat. intros fuel Hf. unfold nfa.to_DFA.
  rewrite Hstart by lia. cbn [mbind res_bind].
  rewrite Hc by lia. cbn [mbind res_bind].
  by eapply finalize_dfa_None.
Qed.

(** A DFA is never returned for an NFA whose [accept_states] is unset. *)
Lemma to_DFA_needs_accept_states (fuel : nat) (d : dfa.DFA Z) :
  nfa.to_DFA self fuel = Ok d → is_Some (nfa.accept_states self).
Proof.
  unfold nfa.to_DFA.
  destruct (nfa._get_epsilon_closure self fuel (nfa.start_state self))
    as [start| |] eqn:Hstart; cbn [mbind res_bind]; try discriminate.
  destruct (nfa._nfa_conversion self fuel start) as [c| |] eqn:Hc;
    cbn [mbind res_bind]; try discriminate.
  assert (start ≠ ∅) as Hne.
  { apply get_epsilon_closure_sound in Hstart as [Hin _]. set_solver. }
  destruct (nfa_conversion_sound self fuel start c Hne Hc) as (sets & Hspec).
  destruct (nfa.accept_states self) as [l|] eqn:Hacc; [by eexists|].
  by rewrite (finalize_dfa_None self start sets c Hspec Hacc).
Qed.

Section Wf.
Variable start : gset K.
Variable sets : list (gset K).
Variable c : nfa.conversion K.
Variable d : dfa.DFA Z.
Hypothesis Hc : conv_spec self start sets c.
Hypothesis Hd : dfa_spec self sets c d.

Lemma sets_nonempty : (0 < length sets)%nat.
Proof. pose proof (cs_first _ _ _ _ Hc) as H0. by apply lookup_lt_Some in H0. Qed.

Lemma dfa_keys_contiguous (i : Z) :
  is_Some (dfa.transition_function d !! i) ↔ 1 ≤ i ≤ dfa.number_of_states d.
Proof.
  rewrite (ds_dom _ _ _ _ Hd), (cs_dom _ _ _ _ Hc), (ds_num _ _ _ _ Hd).
  unfold shift_of. destruct (nfa.c_found_empty c); split.
  - intros [?|[? _]]; lia.
  - intros Hi. destruct (decide (i = 1)) as [->|?]; [by right|left; lia].
  - intros [?|[_ ?]]; [lia|done].
  - intros Hi. left. lia.
Qed.

Lemma dfa_start_in_range :
  1 ≤ dfa.start_state d ≤ dfa.number_of_states d.
Proof.
  rewrite (ds_start _ _ _ _ Hd), (ds_num _ _ _ _ Hd).
  pose proof sets_nonempty. unfold shift_of. destruct (nfa.c_found_empty c); lia.
Qed.


Lemma dfa_transition_of_conversion i crow symbol dset :
  2 ≤ i → nfa.c_transition_function c !! i = Some crow →
  crow !! symbol = Some (nfa.DSet dset) →
  ∃ j, nfa.c_int_mapping c !! dset = Some j ∧
       dfa.transition d (i - shift_of c) symbol = Ok (j - shift_of c) ∧
       1 ≤ j - shift_of c ≤ dfa.number_of_states d.
Proof.
  intros Hi Hcrow Hsym.
  destruct (ds_row _ _ _ _ Hd i crow Hi Hcrow) as (row & Hrow & Hent).
  assert (symbol ∈ nfa.alphabet self) as Hin.
  { apply (cs_row _ _ _ _ Hc i crow Hi Hcrow). eauto. }
  destruct (proj2 (Hent symbol) Hin) as (dset' & j & Hc' & Hj & Hr).
  rewrite Hsym in Hc'. injection Hc' as <-.
  exists j. split; [exact Hj|]. split.
  - unfold dfa.transition, getitem. rewrite Hrow. cbn [mbind res_bind].
    by rewrite Hr.
  - rewrite (ds_num _ _ _ _ Hd).
    apply (cs_map _ _ _ _ Hc) in Hj as [(_ & -> & Hfe)|(k & Hk & ->)].
    + pose proof sets_nonempty. unfold shift_of. rewrite Hfe. lia.
    + apply lookup_lt_Some in Hk. unfold shift_of.
      destruct (nfa.c_found_empty c); lia.
Qed.

Lemma dfa_reject_loop (symbol : pystr) :
  nfa.c_found_empty c = true → symbol ∈ nfa.alphabet self →
  dfa.transition d 1 symbol = Ok 1.
Proof.
  intros Hfe Hs. destruct (ds_row1 _ _ _ _ Hd Hfe) as (row1 & Hrow1 & Hloops).
  unfold dfa.transition, getitem. rewrite Hrow1. cbn [mbind res_bind].
  rewrite Hloops. by rewrite decide_True.
Qed.

Lemma dfa_reject_only_loops (symbol : pystr) (t : Z) :
  nfa.c_found_empty c = true → dfa.transition d 1 symbol = Ok t → t = 1.
Proof.
  intros Hfe. destruct (ds_row1 _ _ _ _ Hd Hfe) as (row1 & Hrow1 & Hloops).
  unfold dfa.transition, getitem. rewrite Hrow1. cbn [mbind res_bind].
  rewrite Hloops. destruct (decide (symbol ∈ nfa.alphabet self)); [|discriminate].
  by intros [= <-].
Qed.

Lemma dfa_reject_not_accepting :
  nfa.c_found_empty c = true → 1 ∉ dfa.accept_states d.
Proof.
  intros Hfe. rewrite (ds_accept _ _ _ _ Hd). unfold shift_of. rewrite Hfe.
  intros (s & ? & _). lia.
Qed.

Lemma dfa_total (i : Z) (symbol : pystr) :
  1 ≤ i ≤ dfa.number_of_states d → symbol ∈ nfa.alphabet self →
  ∃ t, dfa.transition d i symbol = Ok t ∧ 1 ≤ t ≤ dfa.number_of_states d.
Proof.
  intros Hi Hs. pose proof Hi as Hkey. apply dfa_keys_contiguous in Hkey.
  rewrite (ds_dom _ _ _ _ Hd) in Hkey.
  destruct (decide (2 ≤ i + shift_of c)) as [Hge|Hlt].
  - destruct Hkey as [crow Hcrow].
    destruct (cs_row _ _ _ _ Hc _ crow Hge Hcrow) as [Hsym Hent].
    destruct (proj2 (Hsym symbol) Hs) as [d0 Hd0].
    destruct (Hent symbol d0 Hd0) as (dset & -> & _).
    destruct (dfa_transition_of_conversion _ crow symbol dset Hge Hcrow Hd0)
      as (j & _ & Htr & Hrange).
    replace (i + shift_of c - shift_of c) with i in Htr by lia. eauto.
  - assert (nfa.c_found_empty c = true ∧ i = 1) as [Hfe ->].
    { unfold shift_of in *. destruct (nfa.c_found_empty c); split; try done; lia. }
    exists 1. split; [by apply dfa_reject_loop|lia].
Qed.
End Wf.
End ToDFA.

(** [NFA.to_DFA] numbers the start state 2 exactly when it keeps state 1
    for the empty set. *)
Lemma reject_state_present_iff `{Countable K} (self : nfa.NFA K) (fuel : nat)
    (d : dfa.DFA Z) :
  nfa.to_DFA self fuel = Ok d →
  (dfa.start_state d = 1 ∨ dfa.start_state d = 2) ∧
  (dfa.start_state d = 2 ↔
   ∃ start c, nfa._get_epsilon_closure self fuel (nfa.start_state self) = Ok start ∧
              nfa._nfa_conversion self fuel start = Ok c ∧
              nfa.c_found_empty c = true).
Proof.
  intros Hto. destruct (to_DFA_sound self fuel d Hto)
    as (start & sets & c & Hstart & Hc & Hspec & Hd).
  pose proof (ds_start _ _ _ _ Hd) as Hs. unfold shift_of in Hs. split.
  - destruct (nfa.c_found_empty c); lia.
  - split.
    + intros H2. exists start, c. split; [done|]. split; [done|].
      destruct (nfa.c_found_empty c); [done|lia].
    + intros (start' & c' & Hstart' & Hc' & Hfe).
      rewrite Hstart in Hstart'. injection Hstart' as <-.
      rewrite Hc in Hc'. injection Hc' as <-. rewrite Hfe in Hs. lia.
Qed.

(** C6.  In a DFA returned by [NFA.to_DFA] that has the reject state
    (the start state is then numbered 2), state 1 goes to itself on every
    symbol of the alphabet and has no other transition, so the loop of
    [simulate], once in state 1, stays there on every string over the
    alphabet and can end in no other state on any string; and state 1 is
    not an accept state. *)
Theorem C6_reject_state_absorbing `{Countable K} (self : nfa.NFA K) (fuel : nat)
    (d : dfa.DFA Z) :
  nfa.to_DFA self fuel = Ok d → dfa.start_state d = 2 →
  (∀ symbol, symbol ∈ dfa.alphabet d → dfa.transition d 1 symbol = Ok 1) ∧
  (∀ symbol t, dfa.transition d 1 symbol = Ok t → t = 1) ∧
  (∀ str, Forall (λ ch, [ch] ∈ dfa.alphabet d) str → dfa.run d 1 str = Ok 1) ∧
  (∀ str q, dfa.run d 1 str = Ok q → q = 1) ∧
  1 ∉ dfa.accept_states d.
Proof.
  intros Hto H2. destruct (to_DFA_sound self fuel d Hto)
    as (start & sets & c & Hstart & Hc & Hspec & Hd).
  assert (nfa.c_found_empty c = true) as Hfe.
  { pose proof (ds_start _ _ _ _ Hd) as Hs. unfold shift_of in Hs.
    destruct (nfa.c_found_empty c); [done|lia]. }
  assert (∀ symbol, symbol ∈ dfa.alphabet d → dfa.transition d 1 symbol = Ok 1)
    as Hloop.
  { intros symbol Hs. rewrite (ds_alphabet _ _ _ _ Hd) in Hs.
    by eapply dfa_reject_loop. }
  assert (∀ symbol t, dfa.transition d 1 symbol = Ok t → t = 1) as Honly.
  { intros symbol t. by eapply dfa_reject_only_loops. }
  split; [exact Hloop|]. split; [exact Honly|]. split; [|split].
  - induction 1 as [|ch str Hch _ IH]; [reflexivity|].
    cbn [dfa.run]. rewrite (Hloop _ Hch). exact IH.
  - induction str as [|ch str IH]; intros q; cbn [dfa.run].
    + by intros [= <-].
    + destruct (dfa.transition d 1 [ch]) as [t| |] eqn:Ht; cbn [mbind res_bind];
        try discriminate.
      apply Honly in Ht as ->. apply IH.
  - by eapply dfa_reject_not_accepting.
Qed.

(** The theorem on the DFA of the regular expression [a]. *)
Lemma C6_witness :
  (∀ symbol, symbol ∈ dfa.alphabet dfa_a → dfa.transition dfa_a 1 symbol = Ok 1) ∧
  (∀ symbol t, dfa.transition dfa_a 1 symbol = Ok t → t = 1) ∧
  (∀ str, Forall (λ ch, [ch] ∈ dfa.alphabet dfa_a) str → dfa.run dfa_a 1 str = Ok 1) ∧
  (∀ str q, dfa.run dfa_a 1 str = Ok q → q = 1) ∧
  1 ∉ dfa.accept_states dfa_a.
Proof.
  apply (C6_reject_state_absorbing nfa_a 20 dfa_a).
  - vm_compute. reflexivity.
  - reflexivity.
Defined.




(** An NFA description whose line of accept states is blank: the reader
    stores [None] for [accept_states], and [_finalize_dfa] fails at its
    first membership test. *)
Lemma read_nfa_blank_accept_TypeError :
  ∃ n, nfa.init dfa.isspace_latin1 dfa.int_latin1
         (text_of_lines [py "2"; py "a"; py "1 'a' 2"; py ""; py "1"; py ""]) = Ok n ∧
       nfa.alphabet n = [py "a"] ∧ nfa.accept_states n = None ∧
       nfa.to_DFA n 20 = Raise TypeError.
Proof. eexists. split; [vm_compute; reflexivity|]. repeat split. Qed.

(** Without the reject state, state 1 is the start state: for [a*] over
    the alphabet [a] it accepts (the empty string is accepted) and is
    left on [a]. *)
Lemma pruned_state_1_is_start (frames : nat) :
  ∃ d, (self ← regex.init (2 + frames) (py "a") (py "a*");
        match regex.nfa self with
        | Some n => nfa.to_DFA n 20
        | None => Raise TypeError
        end) = Ok d ∧
       dfa.start_state d = 1 ∧ dfa.simulate d [] = Ok true ∧
       dfa.transition d 1 (py "a") = Ok 2.
Proof.
  eexists. split; [vm_compute; reflexivity|].
  repeat split; vm_compute; reflexivity.
Qed.

(* ================================================================== *)
(** * More fuel does not change a result *)
(* ================================================================== *)

Section FuelMono.
Context `{Countable K}.
Variable self : nfa.NFA K.

Lemma symbols_loop_mono (fuel fuel' : nat) curr alphabet :
  (fuel ≤ fuel')%nat →
  ∀ transitions queue found_empty r,
    nfa.symbols_loop self fuel curr alphabet transitions queue found_empty = Ok r →
    nfa.symbols_loop self fuel' curr alphabet transitions queue found_empty = Ok r.
Proof.
  intros Hf. induction alphabet as [|symbol rest IH];
    intros transitions queue found_empty r Hr; [exact Hr|].
  rewrite symbols_loop_cons in *.
  destruct (dest_states self fuel curr symbol) as [d| |] eqn:Hd;
    cbn [mbind res_bind] in Hr; try discriminate.
  rewrite (dest_states_mono self fuel fuel' curr symbol d Hd Hf).
  cbn [mbind res_bind]. destruct (bool_decide (d ≠ ∅)); by apply IH.
Qed.

Lemma conversion_loop_mono (fuel : nat) :
  ∀ fuel' st st', (fuel ≤ fuel')%nat →
    nfa.conversion_loop self fuel st = Ok st' →
    nfa.conversion_loop self fuel' st = Ok st'.
Proof.
  induction fuel as [|fuel IH]; intros fuel' st st' Hf Hloop; [discriminate|].
  destruct fuel' as [|fuel']; [lia|].
  cbn [nfa.conversion_loop] in *.
  destruct (nfa.queue st) as [|curr rest]; [exact Hloop|].
  destruct (bool_decide (curr ∈ nfa.states_handled st)).
  - apply IH; [lia|exact Hloop].
  - destruct (nfa.symbols_loop self (S fuel) curr (nfa.alphabet self) ∅ rest
                (nfa.found_empty st)) as [[[tr q'] fe']| |] eqn:Hsym;
      cbn [mbind res_bind] in Hloop; try discriminate.
    rewrite (symbols_loop_mono (S fuel) (S fuel') curr _ Hf _ _ _ _ Hsym).
    cbn [mbind res_bind].
    destruct (nfa.dfa_state_int_mapping st !! curr); apply IH; (lia || exact Hloop).
Qed.

(** A DFA returned with some fuel is returned with any larger fuel. *)
Lemma to_DFA_mono (fuel fuel' : nat) (d : dfa.DFA Z) :
  (fuel ≤ fuel')%nat →
  nfa.to_DFA self fuel = Ok d → nfa.to_DFA self fuel' = Ok d.
Proof.
  intros Hf. unfold nfa.to_DFA, nfa._get_epsilon_closure.
  destruct (nfa.closure_loop self fuel [nfa.start_state self] ∅)
    as [start| |] eqn:Hstart; cbn [mbind res_bind]; try discriminate.
  rewrite (closure_loop_mono self fuel fuel' _ _ _ Hstart Hf). cbn [mbind res_bind].
  unfold nfa._nfa_conversion.
  destruct (nfa.conversion_loop self fuel _) as [st| |] eqn:Hloop;
    cbn [mbind res_bind]; try discriminate.
  by rewrite (conversion_loop_mono fuel fuel' _ st Hf Hloop).
Qed.
End FuelMono.

Lemma matches_mono (frames fuel fuel' : nat) (alphabet_str regex_str str : pystr)
    (b : bool) :
  (fuel ≤ fuel')%nat →
  regex.matches frames fuel alphabet_str regex_str str = Ok b →
  regex.matches frames fuel' alphabet_str regex_str str = Ok b.
Proof.
  intros Hf. unfold regex.matches, regex.simulate.
  destruct (regex.init frames alphabet_str regex_str) as [self| |];
    cbn [mbind res_bind]; try discriminate.
  destruct (regex.invalid self); [done|].
  destruct (regex.nfa self) as [n|]; [|done].
  destruct (nfa.to_DFA n fuel) as [d| |] eqn:Hd; cbn [mbind res_bind];
    try discriminate.
  by rewrite (to_DFA_mono n fuel fuel' d Hf Hd).
Qed.

(** The rejections of the concatenations and of the nested star do not
    depend on the fuel. *)
Lemma regex_rejections_any_fuel (frames fuel : nat) :
  (50 ≤ fuel)%nat →
  regex.matches (2 + frames) fuel (py "ab") (py "ab") (py "ab") = Ok false ∧
  regex.matches (6 + frames) fuel (py "ab") (py "(a|b)*abb") (py "abb") = Ok false ∧
  regex.matches (3 + frames) fuel (py "a") (py "(a*)*") (py "a") = Ok false.
Proof.
  intros Hf. repeat split; apply (matches_mono _ 50 fuel); try exact Hf;
    vm_compute; reflexivity.
Qed.

(* ================================================================== *)
(** * Tokens and implied concatenations *)
(* ================================================================== *)

Lemma insert_concat_cons (token : pystr) (rest alphabet : list pystr) :
  helper_functions.insert_concat (token :: rest) alphabet
  = token ::
    match rest with
    | next_token :: _ =>
        if helper_functions.concat_after alphabet token next_token
        then s_concat :: helper_functions.insert_concat rest alphabet
        else helper_functions.insert_concat rest alphabet
    | [] => []
    end.
Proof. by destruct rest. Qed.

(** X4.  Round trip.  [insert_concat] only adds concatenation markers:
    taking the markers out of its result gives the tokens it was given
    (themselves without markers), the tokens it was given appear in the
    result in their order, and the result has at most one token more per
    pair of neighbours. *)
Theorem insert_concat_round_trip (tokens alphabet : list pystr) :
  without_concat (helper_functions.insert_concat tokens alphabet)
  = without_concat tokens ∧
  tokens `sublist_of` helper_functions.insert_concat tokens alphabet ∧
  (length tokens ≤ length (helper_functions.insert_concat tokens alphabet)
   ≤ 2 * length tokens - 1 ∨ tokens = [])%nat ∧
  head (helper_functions.insert_concat tokens alphabet) = head tokens ∧
  last (helper_functions.insert_concat tokens alphabet) = last tokens.
Proof.
  induction tokens as [|token rest IH]; [by repeat split; try right|].
  destruct IH as (Hf & Hsub & Hlen & Hhd & Hlast).
  rewrite insert_concat_cons. unfold without_concat in *.
  destruct rest as [|next rest].
  { repeat split; try reflexivity; left; cbn; lia. }
  destruct Hlen as [Hlen|?]; [|done].
  set (out := helper_functions.insert_concat (next :: rest) alphabet) in *.
  assert (∀ x, last (x :: out) = last out) as Hlast_out.
  { intros x. destruct out; [cbn in Hlen; lia|reflexivity]. }
  assert (last (token :: next :: rest) = last (next :: rest)) as -> by reflexivity.
  destruct (helper_functions.concat_after alphabet token next).
  - split; [|split; [|split; [|split]]].
    + cbn [List.filter]. rewrite (bool_decide_eq_true_2 (s_concat = s_concat)) by done.
      cbn [negb]. destruct (negb (bool_decide (token = s_concat))); by rewrite Hf.
    + apply sublist_skip, sublist_cons. exact Hsub.
    + left. cbn [length] in *. lia.
    + reflexivity.
    + change (last (token :: s_concat :: out)) with (last (s_concat :: out)).
      by rewrite Hlast_out.
  - split; [|split; [|split; [|split]]].
    + cbn [List.filter].
      destruct (negb (bool_decide (token = s_concat))); by rewrite Hf.
    + apply sublist_skip. exact Hsub.
    + left. cbn [length] in *. lia.
    + reflexivity.
    + by rewrite Hlast_out.
Qed.

(** The characters the last class of the token pattern is built from. *)
Lemma elem_of_alphabet_class (alphabet : list pystr) (c : N) :
  c ∈ helper_functions.alphabet_class alphabet ↔
  ∃ char, char ∈ alphabet ∧ c ∈ char ∧ str_in char (py "eN|*()") = false.
Proof.
  unfold helper_functions.alphabet_class.
  rewrite list_elem_of_In, List.in_concat. split.
  - intros (char & Hin & Hc). apply List.filter_In in Hin as [Hin Hf].
    exists char. split; [by apply list_elem_of_In|].
    split; [by apply list_elem_of_In|]. by apply negb_true_iff in Hf.
  - intros (char & Hin & Hc & Hf). exists char. split; [|by apply list_elem_of_In].
    apply List.filter_In. split; [by apply list_elem_of_In|].
    by apply negb_true_iff.
Qed.

Lemma findall_shape (cls : list N) (s : pystr) :
  ∀ skip t, t ∈ helper_functions.findall cls s skip → token_shape cls t.
Proof.
  induction s as [|c rest IH]; intros skip t Ht.
  - by apply not_elem_of_nil in Ht.
  - cbn [helper_functions.findall] in Ht. destruct skip; [by eapply IH|].
    assert (t ∈ (if bool_decide (c ∈ py "eN|*()") || bool_decide (c ∈ cls)
                 then [c] :: helper_functions.findall cls rest false
                 else helper_functions.findall cls rest false) →
            token_shape cls t) as Hsingle.
    { destruct (bool_decide (c ∈ py "eN|*()") || bool_decide (c ∈ cls)) eqn:Hc;
        [|by apply IH].
      intros Hin. apply elem_of_cons in Hin as [->|Hin]; [|by eapply IH].
      left. exists c. split; [reflexivity|].
      apply orb_true_iff in Hc as [Hc|Hc]; apply bool_decide_eq_true_1 in Hc; eauto. }
    destruct rest as [|d rest']; [by apply Hsingle|].
    destruct (bool_decide (c = ch_backslash) &&
              (bool_decide (d ∈ py "N|()*") || bool_decide (d = ch_backslash)))
      eqn:Hesc; [|by apply Hsingle].
    apply elem_of_cons in Ht as [->|Ht]; [|by eapply IH].
    apply andb_true_iff in Hesc as [Hc Hd]. apply bool_decide_eq_true_1 in Hc as ->.
    right. exists d. split; [reflexivity|].
    apply orb_true_iff in Hd as [Hd|Hd]; apply bool_decide_eq_true_1 in Hd; eauto.
Qed.

(** The characters of the tokens, in order, are characters of the
    expression: [findall] passes over what matches no alternative and
    adds nothing. *)
Lemma findall_sublist (cls : list N) (s : pystr) :
  (concat (helper_functions.findall cls s false) `sublist_of` s) ∧
  (concat (helper_functions.findall cls s true) `sublist_of` drop 1 s) ∧
  (∀ c rest, s = c :: rest →
     concat (helper_functions.findall cls s true)
     = concat (helper_functions.findall cls rest false)).
Proof.
  induction s as [|c rest IH].
  - repeat split; try constructor. intros; discriminate.
  - destruct IH as (IHf & IHt & IHeq).
    assert (concat (helper_functions.findall cls (c :: rest) true)
            = concat (helper_functions.findall cls rest false)) as Hskip
      by reflexivity.
    split; [|split].
    + cbn [helper_functions.findall].
      assert (concat (if bool_decide (c ∈ py "eN|*()") || bool_decide (c ∈ cls)
                      then [c] :: helper_functions.findall cls rest false
                      else helper_functions.findall cls rest false)
              `sublist_of` c :: rest) as Hsingle.
      { destruct (bool_decide (c ∈ py "eN|*()") || bool_decide (c ∈ cls)).
        - cbn [concat app]. by apply sublist_skip.
        - by apply sublist_cons. }
      destruct rest as [|d rest']; [exact Hsingle|].
      destruct (bool_decide (c = ch_backslash) &&
                (bool_decide (d ∈ py "N|()*") || bool_decide (d = ch_backslash)));
        [|exact Hsingle].
      cbn [concat app]. apply sublist_skip.
      rewrite (IHeq d rest' eq_refl).
      apply sublist_skip.
      rewrite (IHeq d rest' eq_refl) in IHt. exact IHt.
    + rewrite Hskip. cbn [drop]. exact IHf.
    + intros c' rest'' [= <- <-]. exact Hskip.
Qed.

(** X5.  Tokens.  Every token [tokenize] returns is one character of the
    alphabet class or of [e N | * ( )], or a backslash followed by one
    of [N | ( ) * \]; and the characters of the tokens, in order, are
    characters of the expression in their order (what matches no
    alternative of the pattern is passed over, nothing is added). *)
Theorem tokenize_tokens (expression : pystr) (alphabet tokens : list pystr) :
  helper_functions.tokenize expression alphabet = Ok tokens →
  (∀ t, t ∈ tokens → token_shape (helper_functions.alphabet_class alphabet) t) ∧
  concat tokens `sublist_of` expression.
Proof.
  unfold helper_functions.tokenize.
  destruct (helper_functions.alphabet_class alphabet) as [|c0 cls] eqn:Hcls;
    [discriminate|].
  intros [= <-]. split.
  - intros t Ht. by eapply findall_shape.
  - apply findall_sublist.
Qed.

(** The theorem on the expression [a?\*] over the alphabet [a]: the
    question mark is passed over, the escaped star is one token. *)
Lemma tokenize_tokens_witness :
  helper_functions.tokenize (py "a?\*") [py "a"] = Ok [py "a"; py "\*"] ∧
  concat [py "a"; py "\*"] `sublist_of` py "a?\*".
Proof.
  split; [vm_compute; reflexivity|].
  apply (tokenize_tokens (py "a?\*") [py "a"] [py "a"; py "\*"]).
  vm_compute. reflexivity.
Defined.

Lemma findall_plain (cls : list N) (s : pystr) :
  (∀ c, c ∈ s → c ≠ ch_backslash ∧ (c ∈ py "eN|*()" ∨ c ∈ cls)) →
  helper_functions.findall cls s false = List.map (λ c, [c]) s.
Proof.
  induction s as [|c rest IH]; intros Hs; [reflexivity|].
  cbn [helper_functions.findall List.map].
  destruct (Hs c (list_elem_of_here _ _)) as [Hb Hc].
  rewrite (bool_decide_eq_false_2 (c = ch_backslash)) by exact Hb. cbn [andb].
  assert (bool_decide (c ∈ py "eN|*()") || bool_decide (c ∈ cls) = true) as ->.
  { apply orb_true_iff. destruct Hc; [left|right]; by apply bool_decide_eq_true_2. }
  rewrite IH; [by destruct rest|].
  intros c' Hc'. apply Hs. by apply list_elem_of_further.
Qed.

(** X6.  Plain expressions.  When some character of the alphabet is
    outside [e N | * ( )] and the expression holds no backslash and only
    characters of the alphabet class or of [e N | * ( )], [tokenize]
    returns its characters one by one. *)
Theorem tokenize_plain (expression : pystr) (alphabet : list pystr) :
  helper_functions.alphabet_class alphabet ≠ [] →
  (∀ c, c ∈ expression →
        c ≠ ch_backslash ∧
        (c ∈ py "eN|*()" ∨ c ∈ helper_functions.alphabet_class alphabet)) →
  helper_functions.tokenize expression alphabet = Ok (List.map (λ c, [c]) expression).
Proof.
  intros Hcls Hs. unfold helper_functions.tokenize.
  destruct (helper_functions.alphabet_class alphabet) eqn:Heq; [done|].
  by rewrite findall_plain.
Qed.

Lemma tokenize_plain_witness :
  helper_functions.tokenize (py "(a|b)*") [py "a"; py "b"]
  = Ok [py "("; py "a"; py "|"; py "b"; py ")"; py "*"].
Proof.
  apply (tokenize_plain (py "(a|b)*") [py "a"; py "b"]).
  - discriminate.
  - intros c Hc. vm_compute in Hc.
    repeat (apply elem_of_cons in Hc as [->|Hc];
            [split; [discriminate|vm_compute; set_solver]|]).
    by apply not_elem_of_nil in Hc.
Defined.

(** X7.  The alphabet class.  When every character of the alphabet is one
    of [e N | * ( )] (in particular when the alphabet is empty) the
    pattern of [tokenize] does not compile, and the [re.error] leaves
    [RegEx.__init__], which catches [InvalidExpression] only. *)
Theorem init_ReError (frames : nat) (alphabet_str regex_str : pystr) :
  (∀ c, c ∈ alphabet_str → c ∈ py "eN|*()") →
  regex.init frames alphabet_str regex_str = Raise ReError.
Proof.
  intros Hal. unfold regex.init, regex.parse, regex._parse_regex,
    helper_functions.tokenize.
  assert (helper_functions.alphabet_class (List.map (λ ch, [ch]) alphabet_str) = [])
    as ->; [|reflexivity].
  unfold helper_functions.alphabet_class.
  induction alphabet_str as [|c rest IH]; [reflexivity|].
  cbn [List.map List.filter].
  assert (str_in [c] (py "eN|*()") = true) as ->.
  { specialize (Hal c (list_elem_of_here _ _)). vm_compute in Hal.
    repeat (apply elem_of_cons in Hal as [->|Hal]; [vm_compute; reflexivity|]).
    by apply not_elem_of_nil in Hal. }
  cbn [negb]. apply IH. intros c' Hc'. apply Hal. by apply list_elem_of_further.
Qed.

Lemma init_ReError_witness :
  regex.init 1000 (py "e") (py "e") = Raise ReError.
Proof.
  apply init_ReError. intros c Hc. apply list_elem_of_singleton in Hc as ->.
  vm_compute. set_solver.
Defined.

(* ================================================================== *)
(** * The definition file of a regular expression *)
(* ================================================================== *)

Lemma find_not_in (c : N) (s : pystr) : c ∉ s → find c s = -1.
Proof.
  induction s as [|d s IH]; intros Hc; [reflexivity|].
  cbn [find]. rewrite bool_decide_eq_false_2.
  - rewrite IH; [reflexivity|]. intros Hin. apply Hc. by apply list_elem_of_further.
  - intros ->. apply Hc, list_elem_of_here.
Qed.

Lemma find_first (c : N) (pre rest : pystr) :
  c ∉ pre → find c (pre ++ c :: rest) = Z.of_nat (length pre).
Proof.
  induction pre as [|d pre IH]; intros Hc.
  - cbn [app find length]. by rewrite bool_decide_eq_true_2.
  - cbn [app find length]. rewrite bool_decide_eq_false_2.
    + rewrite IH.
      * rewrite bool_decide_eq_false_2 by lia. lia.
      * intros Hin. apply Hc. by apply list_elem_of_further.
    + intros ->. apply Hc, list_elem_of_here.
Qed.

Lemma rfind_not_in (c : N) (s : pystr) : c ∉ s → rfind c s = -1.
Proof.
  induction s as [|d s IH]; intros Hc; [reflexivity|].
  cbn [rfind]. rewrite IH.
  - rewrite bool_decide_eq_true_2 by reflexivity.
    rewrite bool_decide_eq_false_2; [reflexivity|].
    intros ->. apply Hc, list_elem_of_here.
  - intros Hin. apply Hc. by apply list_elem_of_further.
Qed.

Lemma rfind_last (c : N) (pre post : pystr) :
  c ∉ post → rfind c (pre ++ c :: post) = Z.of_nat (length pre).
Proof.
  intros Hc. induction pre as [|d pre IH].
  - cbn [app rfind length]. rewrite (rfind_not_in c post Hc).
    rewrite bool_decide_eq_true_2 by reflexivity.
    by rewrite bool_decide_eq_true_2.
  - cbn [app rfind length]. rewrite IH.
    rewrite bool_decide_eq_false_2 by lia. lia.
Qed.

Lemma slice_middle (a b c : pystr) :
  slice (a ++ b ++ c) (Z.of_nat (length a)) (Z.of_nat (length a + length b)) = b.
Proof.
  unfold slice. rewrite !length_app.
  rewrite !bool_decide_eq_false_2 by lia. rewrite !Z.min_l by lia.
  rewrite Nat2Z.id, drop_app_length.
  replace (Z.to_nat (Z.of_nat (length a + length b) - Z.of_nat (length a)))
    with (length b) by lia.
  by rewrite take_app_length.
Qed.

(** X8.  Between the quotes.  From a line of the definition file
    [_initialize_from_file] takes what stands between the first and the
    last double quote, further double quotes included; from a line with
    one double quote it takes nothing; from a line without any it takes
    the line without its last character. *)
Theorem between_quotes_cases (line : pystr) :
  (∀ pre body post,
     line = pre ++ ch_dquote :: body ++ ch_dquote :: post →
     ch_dquote ∉ pre → ch_dquote ∉ post →
     regex.between_quotes line = body) ∧
  (∀ pre post,
     line = pre ++ ch_dquote :: post → ch_dquote ∉ pre → ch_dquote ∉ post →
     regex.between_quotes line = []) ∧
  (ch_dquote ∉ line →
   regex.between_quotes line = take (length line - 1) line).
Proof.
  unfold regex.between_quotes. split; [|split].
  - intros pre body post -> Hpre Hpost.
    rewrite (find_first ch_dquote pre _ Hpre).
    replace (pre ++ ch_dquote :: body ++ ch_dquote :: post)
      with ((pre ++ ch_dquote :: body) ++ ch_dquote :: post)
      by (by rewrite <- app_assoc).
    rewrite (rfind_last ch_dquote _ post Hpost).
    replace ((pre ++ ch_dquote :: body) ++ ch_dquote :: post)
      with ((pre ++ [ch_dquote]) ++ body ++ ch_dquote :: post)
      by (by rewrite <- !app_assoc).
    replace (Z.of_nat (length pre) + 1) with (Z.of_nat (length (pre ++ [ch_dquote])))
      by (rewrite length_app; cbn [length]; lia).
    replace (Z.of_nat (length (pre ++ ch_dquote :: body)))
      with (Z.of_nat (length (pre ++ [ch_dquote]) + length body))
      by (rewrite !length_app; cbn [length]; lia).
    apply slice_middle.
  - intros pre post -> Hpre Hpost.
    rewrite (find_first ch_dquote pre _ Hpre), (rfind_last ch_dquote pre post Hpost).
    unfold slice. rewrite length_app. cbn [length].
    rewrite !bool_decide_eq_false_2 by lia.
    rewrite !Z.min_l by lia.
    assert (∀ n : Z, Z.to_nat (n - (n + 1)) = O) as -> by (intros n; lia).
    reflexivity.
  - intros Hnone. rewrite (find_not_in _ _ Hnone), (rfind_not_in _ _ Hnone).
    unfold slice. change (-1 + 1) with 0. cbv zeta beta.
    rewrite (bool_decide_eq_false_2 (0 < 0)) by lia.
    rewrite (bool_decide_eq_true_2 (-1 < 0)) by lia. rewrite Z.min_l by lia.
    change (Z.to_nat 0) with O. rewrite drop_0. f_equal. lia.
Qed.

(** The theorem on three lines that end in a newline: [ab] between two
    double quotes, [ab] followed by one double quote, and [ab] alone. *)
Lemma between_quotes_cases_witness :
  regex.between_quotes [34; 97; 98; 34; 10]%N = [97; 98]%N ∧
  regex.between_quotes [97; 98; 34; 10]%N = [] ∧
  regex.between_quotes [97; 98; 10]%N = [97; 98]%N.
Proof.
  split; [|split].
  - apply (proj1 (between_quotes_cases [34; 97; 98; 34; 10]%N) [] [97; 98]%N [10]%N).
    + reflexivity.
    + apply not_elem_of_nil.
    + intros Hin. apply list_elem_of_singleton in Hin. discriminate.
  - apply (proj1 (proj2 (between_quotes_cases [97; 98; 34; 10]%N)) [97; 98]%N [10]%N).
    + reflexivity.
    + intros Hin. apply elem_of_cons in Hin as [?|Hin]; [discriminate|].
      apply list_elem_of_singleton in Hin. discriminate.
    + intros Hin. apply list_elem_of_singleton in Hin. discriminate.
  - apply (proj2 (proj2 (between_quotes_cases [97; 98; 10]%N))).
    intros Hin. apply elem_of_cons in Hin as [?|Hin]; [discriminate|].
    apply elem_of_cons in Hin as [?|Hin]; [discriminate|].
    apply list_elem_of_singleton in Hin. discriminate.
Defined.

(* ================================================================== *)
(** * The parser *)
(* ================================================================== *)

Lemma Node_ind (P : tree.Node → Prop) :
  (∀ v cs t sym, Forall P cs → P (tree.mkNode v cs t sym)) → ∀ n, P n.
Proof.
  intros Hstep. fix IH 1. intros [v cs t sym]. apply Hstep.
  induction cs as [|c cs IHcs]; constructor; [apply IH|exact IHcs].
Qed.

Lemma operator_arity (operator : pystr) (n : Z) :
  regex.operator_operand_mapping !! operator = Some n →
  (operator = s_star ∧ n = 1) ∨ (operator = s_bar ∧ n = 2) ∨
  (operator = s_concat ∧ n = 2).
Proof.
  unfold regex.operator_operand_mapping. intros Hn.
  apply lookup_insert_Some in Hn as [ [? ?] | [_ Hn] ]; [subst|]; [by right; right|].
  apply lookup_insert_Some in Hn as [ [? ?] | [_ Hn] ]; [subst|]; [by left|].
  apply lookup_insert_Some in Hn as [ [? ?] | [_ Hn] ]; [subst|]; [by right; left|].
  by rewrite lookup_empty in Hn.
Qed.

Lemma stack_operator_arity (operator : pystr) :
  stack_operator operator → operator ≠ s_lparen →
  ∃ n, getitem regex.operator_operand_mapping operator = Ok n ∧ (n = 1 ∨ n = 2) ∧
       regex.operator_operand_mapping !! operator = Some n.
Proof.
  intros [-> | [-> | [-> | ->] ] ] Hne; [done|..].
  - exists 1. split; [by vm_compute|]. split; [by left|by vm_compute].
  - exists 2. split; [by vm_compute|]. split; [by right|by vm_compute].
  - exists 2. split; [by vm_compute|]. split; [by right|by vm_compute].
Qed.

(** On a well-formed tree [depth_first_recursive] returns an automaton
    when the depth of calls allowed is at least the height of the tree,
    and raises [RecursionError] when it is less; it raises nothing
    else. *)
Lemma depth_first_recursive_well_formed (n : tree.Node) :
  well_formed n = true →
  ∀ frames last,
    ((height n ≤ frames)%nat → ∃ nfa, tree.depth_first_recursive frames n last = Ok nfa) ∧
    ((frames < height n)%nat →
     tree.depth_first_recursive frames n last = Raise RecursionError).
Proof.
  induction n as [v cs t sym IH] using Node_ind. intros Hwf frames last.
  cbn [well_formed] in Hwf. apply andb_true_iff in Hwf as [Hcs Hshape].
  destruct frames as [|frames].
  { split; [cbn [height]; lia|reflexivity]. }
  cbn [tree.depth_first_recursive].
  destruct cs as [|operand cs'].
  { cbn [height List.map foldr]. split; [|lia]. intros _.
    destruct sym; [by eexists|].
    destruct (bool_decide (v = s_N)); [by eexists|].
    destruct (bool_decide (v = s_e)); by eexists. }
  destruct (bool_decide (t = 0)); [done|].
  apply andb_true_iff in Hshape as [Hsym Harity].
  apply negb_true_iff in Hsym as ->.
  apply bool_decide_eq_true_1 in Harity.
  cbn [forallb] in Hcs. apply andb_true_iff in Hcs as [Hop Hcs'].
  apply Forall_cons in IH as [IHop IHcs'].
  assert (∀ left_nfa, ∃ nfa,
            (if bool_decide (s_concat = s_concat_tree)
             then Ok (tree.concat_to_nfa left_nfa left_nfa)
             else Ok (tree.base_node_to_nfa (tree.mkNode v (operand :: cs') t false) last))
            = Ok nfa) as _ by (intros ?; destruct (bool_decide _); by eexists).
  apply operator_arity in Harity as [[-> Hlen]|[[-> Hlen]|[-> Hlen]]].
  - destruct cs' as [|? ?]; [|cbn [length] in Hlen; lia].
    cbn [height List.map foldr]. rewrite Nat.max_0_r.
    rewrite bool_decide_eq_true_2 by reflexivity.
    destruct (IHop Hop frames last) as [Hok Hdeep]. split.
    + intros Hh. destruct Hok as [nfa ->]; [lia|]. cbn [mbind res_bind]. by eexists.
    + intros Hh. rewrite Hdeep by lia. reflexivity.
  - rewrite bool_decide_eq_false_2 by discriminate.
    destruct cs' as [|right_operand [|? ?]]; try (cbn [length] in Hlen; lia).
    cbn [forallb] in Hcs'. apply andb_true_iff in Hcs' as [Hr _].
    apply Forall_cons in IHcs' as [IHr _].
    cbn [height List.map foldr]. rewrite Nat.max_0_r.
    destruct (IHop Hop frames last) as [Hok Hdeep]. split.
    + intros Hh. destruct Hok as [left_nfa ->]; [lia|]. cbn [mbind res_bind].
      destruct (IHr Hr frames (tree.last_state left_nfa)) as [[right_nfa ->] _]; [lia|].
      cbn [mbind res_bind]. rewrite bool_decide_eq_true_2 by reflexivity. by eexists.
    + intros Hh. destruct (decide (frames < height operand)%nat) as [Hl|Hl].
      * rewrite Hdeep by exact Hl. reflexivity.
      * destruct Hok as [left_nfa ->]; [lia|]. cbn [mbind res_bind].
        destruct (IHr Hr frames (tree.last_state left_nfa)) as [_ Hdeepr].
        rewrite Hdeepr by lia. reflexivity.
  - rewrite bool_decide_eq_false_2 by discriminate.
    destruct cs' as [|right_operand [|? ?]]; try (cbn [length] in Hlen; lia).
    cbn [forallb] in Hcs'. apply andb_true_iff in Hcs' as [Hr _].
    apply Forall_cons in IHcs' as [IHr _].
    cbn [height List.map foldr]. rewrite Nat.max_0_r.
    destruct (IHop Hop frames last) as [Hok Hdeep]. split.
    + intros Hh. destruct Hok as [left_nfa ->]; [lia|]. cbn [mbind res_bind].
      destruct (IHr Hr frames (tree.last_state left_nfa)) as [[right_nfa ->] _]; [lia|].
      cbn [mbind res_bind]. rewrite bool_decide_eq_false_2 by discriminate.
      destruct (bool_decide (s_concat = s_concat_tree)); by eexists.
    + intros Hh. destruct (decide (frames < height operand)%nat) as [Hl|Hl].
      * rewrite Hdeep by exact Hl. reflexivity.
      * destruct Hok as [left_nfa ->]; [lia|]. cbn [mbind res_bind].
        destruct (IHr Hr frames (tree.last_state left_nfa)) as [_ Hdeepr].
        rewrite Hdeepr by lia. reflexivity.
Qed.

(** Popping [k] operands onto a node puts them in front of its
    children, the operand popped last first. *)
Lemma pop_operands_spec (k : nat) :
  ∀ stack v cs t sym node stack',
    regex.pop_operands k stack (tree.mkNode v cs t sym) = Ok (node, stack') →
    ∃ popped, stack = popped ++ stack' ∧ length popped = k ∧
              node = tree.mkNode v (rev popped ++ cs) t sym.
Proof.
  induction k as [|k IH]; intros stack v cs t sym node stack' Hpop.
  - injection Hpop as <- <-. by exists [].
  - cbn [regex.pop_operands] in Hpop. destruct stack as [|operand stack];
      [discriminate|].
    assert (tree.add_child (tree.mkNode v cs t sym) operand true
            = tree.mkNode v (operand :: cs) t sym) as Hadd by (by destruct cs).
    rewrite Hadd in Hpop. apply IH in Hpop as (popped & -> & <- & ->).
    exists (operand :: popped). split; [reflexivity|]. split; [reflexivity|].
    cbn [rev]. by rewrite <- app_assoc.
Qed.

Lemma pop_operands_enough (k : nat) :
  ∀ stack node, (k ≤ length stack)%nat →
    ∃ r, regex.pop_operands k stack node = Ok r.
Proof.
  induction k as [|k IH]; intros stack node Hlen; [by eexists|].
  destruct stack as [|operand stack]; [cbn in Hlen; lia|].
  cbn [regex.pop_operands]. apply IH. cbn [length] in Hlen. lia.
Qed.

(** The node an operator of the stack is reduced to is well formed when
    the operands it takes are. *)
Lemma reduce_well_formed (operator : pystr) (n : Z) (stack stack' : list tree.Node)
    (node : tree.Node) :
  regex.operator_operand_mapping !! operator = Some n →
  Forall (λ x, well_formed x = true) stack →
  regex.pop_operands (Z.to_nat n) stack (tree.mkNode operator [] 1 false)
    = Ok (node, stack') →
  Forall (λ x, well_formed x = true) (node :: stack').
Proof.
  intros Hn Hstack Hpop.
  apply pop_operands_spec in Hpop as (popped & -> & Hlen & ->).
  apply Forall_app in Hstack as [Hpopped Hstack']. constructor; [|exact Hstack'].
  cbn [well_formed]. rewrite app_nil_r. apply andb_true_iff. split.
  - apply forallb_forall. intros x Hx. apply List.in_rev, list_elem_of_In in Hx.
    rewrite Forall_forall in Hpopped. by apply Hpopped.
  - rewrite bool_decide_eq_false_2 by lia. cbn [negb andb].
    apply bool_decide_eq_true_2. rewrite Hn. f_equal.
    rewrite length_rev, Hlen.
    apply operator_arity in Hn as [[_ ->]|[[_ ->]|[_ ->]]]; reflexivity.
Qed.

Lemma stack_operator_prescedence (operator : pystr) :
  stack_operator operator →
  ∃ p, getitem regex.prescedence_mapping operator = Ok p.
Proof. intros [-> | [-> | [-> | ->] ] ]; eexists; vm_compute; reflexivity. Qed.

Lemma pop_operands_outcome (k : nat) (stack : list tree.Node) (node : tree.Node) :
  match regex.pop_operands k stack node with
  | Ok _ => True
  | Raise e => e = IndexError
  | NoFuel => False
  end.
Proof.
  revert stack node. induction k as [|k IH]; intros stack node; [exact I|].
  cbn [regex.pop_operands]. destruct stack; [reflexivity|apply IH].
Qed.

Lemma reduce_higher_outcome (token : pystr) (operator_stack : list pystr) :
  stack_operator token →
  ∀ operand_stack, stacks_ok operand_stack operator_stack →
    parser_outcome (regex.reduce_higher token operator_stack operand_stack).
Proof.
  intros Htoken. induction operator_stack as [|top rest IH];
    intros operand_stack [Hoperands Hoperators].
  - split; [exact Hoperands|constructor].
  - cbn [regex.reduce_higher]. apply Forall_cons in Hoperators as [Htop Hrest].
    unfold regex._check_operator_prescedence.
    destruct (stack_operator_prescedence token Htoken) as [p1 ->].
    destruct (stack_operator_prescedence top Htop) as [p2 ->].
    cbn [mbind res_bind].
    assert (∀ higher_pres : pystr,
              parser_outcome
                (if bool_decide (higher_pres = top) && bool_decide (top ≠ s_lparen)
                 then
                   num_operands ← getitem regex.operator_operand_mapping top;
                   if bool_decide (Z.of_nat (length operand_stack) < num_operands)
                   then Raise InvalidExpression
                   else
                     '(operator_node, operand_stack) ←
                        regex.pop_operands (Z.to_nat num_operands) operand_stack
                          (tree.mkNode top [] 1 false);
                     regex.reduce_higher token rest (operator_node :: operand_stack)
                 else Ok (operand_stack, top :: rest))) as Hbody.
    { intros higher_pres.
      destruct (bool_decide (higher_pres = top) && bool_decide (top ≠ s_lparen))
        eqn:Hcond; [|by split; [|constructor]].
      apply andb_true_iff in Hcond as [_ Hne]. apply bool_decide_eq_true_1 in Hne.
      destruct (stack_operator_arity top Htop Hne) as (n & -> & _ & Hn).
      cbn [mbind res_bind].
      destruct (bool_decide (Z.of_nat (length operand_stack) < n)); [by left|].
      pose proof (pop_operands_outcome (Z.to_nat n) operand_stack
                    (tree.mkNode top [] 1 false)) as Hpop.
      destruct (regex.pop_operands (Z.to_nat n) operand_stack _)
        as [[node stack']|e|] eqn:Heq; cbn [mbind res_bind]; [|by right|done].
      apply IH. split; [|exact Hrest]. by eapply reduce_well_formed. }
    destruct (bool_decide (p1 ≤ p2)); apply Hbody.
Qed.

Lemma close_paren_outcome (operator_stack : list pystr) :
  ∀ operator operand_stack,
    stack_operator operator → stacks_ok operand_stack operator_stack →
    parser_outcome (regex.close_paren operator_stack operator operand_stack).
Proof.
  induction operator_stack as [|next rest IH];
    intros operator operand_stack Hop [Hoperands Hoperators].
  - cbn [regex.close_paren].
    destruct (decide (operator = s_lparen)) as [->|Hne].
    { rewrite bool_decide_eq_false_2 by (intros Hn; by apply Hn). by split. }
    rewrite bool_decide_eq_true_2 by exact Hne.
    destruct (stack_operator_arity operator Hop Hne) as (n & -> & _ & Hn).
    cbn [mbind res_bind].
    pose proof (pop_operands_outcome (Z.to_nat n) operand_stack
                  (tree.mkNode operator [] 1 false)) as Hpop.
    destruct (regex.pop_operands (Z.to_nat n) operand_stack _)
      as [[node stack']|e|]; cbn [mbind res_bind]; [by left|by right|done].
  - cbn [regex.close_paren].
    destruct (decide (operator = s_lparen)) as [->|Hne].
    { rewrite bool_decide_eq_false_2 by (intros Hn; by apply Hn). by split. }
    rewrite bool_decide_eq_true_2 by exact Hne.
    destruct (stack_operator_arity operator Hop Hne) as (n & -> & _ & Hn).
    cbn [mbind res_bind].
    pose proof (pop_operands_outcome (Z.to_nat n) operand_stack
                  (tree.mkNode operator [] 1 false)) as Hpop.
    destruct (regex.pop_operands (Z.to_nat n) operand_stack _)
      as [[node stack']|e|] eqn:Heq; cbn [mbind res_bind]; [|by right|done].
    apply Forall_cons in Hoperators as [Hnext Hrest].
    apply IH; [exact Hnext|]. split; [|exact Hrest]. by eapply reduce_well_formed.
Qed.

Lemma parse_token_outcome (alphabet : list pystr) (token : pystr)
    (operand_stack : list tree.Node) (operator_stack : list pystr) :
  stacks_ok operand_stack operator_stack →
  parser_outcome (regex.parse_token alphabet token operand_stack operator_stack).
Proof.
  intros [Hoperands Hoperators]. unfold regex.parse_token.
  destruct (_ || _ || _ || _).
  { split; [|exact Hoperators]. constructor; [|exact Hoperands].
    cbn [well_formed forallb]. by rewrite bool_decide_eq_true_2. }
  destruct (decide (token = s_lparen)) as [->|Hl].
  { rewrite bool_decide_eq_true_2 by reflexivity.
    split; [exact Hoperands|]. constructor; [by left|exact Hoperators]. }
  rewrite bool_decide_eq_false_2 by exact Hl.
  destruct (bool_decide (token = s_rparen)).
  { destruct operator_stack as [|operator rest]; [by split|].
    apply Forall_cons in Hoperators as [Hop Hrest].
    by apply close_paren_outcome. }
  destruct (bool_decide (token = s_star) || bool_decide (token = s_bar)
            || bool_decide (token = s_concat)) eqn:Hop; [|by split].
  assert (stack_operator token) as Htoken.
  { apply orb_true_iff in Hop as [Hop|Hop];
      [apply orb_true_iff in Hop as [Hop|Hop]|];
      apply bool_decide_eq_true_1 in Hop; unfold stack_operator; tauto. }
  pose proof (reduce_higher_outcome token operator_stack Htoken operand_stack
                (conj Hoperands Hoperators)) as Hred.
  destruct (regex.reduce_higher token operator_stack operand_stack)
    as [[operands' operators']|e|]; cbn [mbind res_bind]; [|exact Hred|done].
  destruct Hred as [Ho1 Ho2]. split; [exact Ho1|]. by constructor.
Qed.

Lemma parse_tokens_outcome (alphabet : list pystr) (tokens : list pystr) :
  ∀ operand_stack operator_stack,
    stacks_ok operand_stack operator_stack →
    parser_outcome (regex.parse_tokens alphabet tokens operand_stack operator_stack).
Proof.
  induction tokens as [|token rest IH]; intros operand_stack operator_stack Hok;
    [exact Hok|].
  cbn [regex.parse_tokens].
  pose proof (parse_token_outcome alphabet token _ _ Hok) as Hstep.
  destruct (regex.parse_token alphabet token operand_stack operator_stack)
    as [[operands' operators']|e|]; cbn [mbind res_bind]; [|exact Hstep|done].
  by apply IH.
Qed.

(** [_empty_operator_stack] compares the number of operands with the
    arity before it pops: its loop ends in a stack of well-formed trees
    or in [InvalidExpression]. *)
Lemma empty_loop_outcome (operator_stack : list pystr) :
  ∀ operand_stack, stacks_ok operand_stack operator_stack →
    match regex.empty_loop operator_stack operand_stack with
    | Ok operand_stack' =>
        Forall (λ x, well_formed x = true) operand_stack' ∧
        s_lparen ∉ operator_stack
    | Raise e => e = InvalidExpression
    | NoFuel => False
    end.
Proof.
  induction operator_stack as [|operator rest IH];
    intros operand_stack [Hoperands Hoperators].
  - split; [exact Hoperands|apply not_elem_of_nil].
  - cbn [regex.empty_loop]. apply Forall_cons in Hoperators as [Hop Hrest].
    destruct (decide (operator = s_lparen)) as [->|Hne].
    { by rewrite bool_decide_eq_true_2. }
    rewrite bool_decide_eq_false_2 by exact Hne.
    destruct (stack_operator_arity operator Hop Hne) as (n & -> & Hn12 & Hn).
    cbn [mbind res_bind].
    destruct (decide (Z.of_nat (length operand_stack) < n)) as [Hlt|Hge].
    { by rewrite bool_decide_eq_true_2. }
    rewrite bool_decide_eq_false_2 by exact Hge.
    destruct (pop_operands_enough (Z.to_nat n) operand_stack
                (tree.mkNode operator [] 1 false)) as [[node stack'] Hpop]; [lia|].
    rewrite Hpop. cbn [mbind res_bind].
    specialize (IH (node :: stack')).
    destruct (regex.empty_loop rest (node :: stack')) as [operands'|e|].
    + destruct IH as [Hwf Hnot].
      { split; [|exact Hrest]. by eapply reduce_well_formed. }
      split; [exact Hwf|]. intros Hin. apply elem_of_cons in Hin as [Heq|Hin]; [|done].
      by apply Hne.
    + apply IH. split; [|exact Hrest]. by eapply reduce_well_formed.
    + apply IH. split; [|exact Hrest]. by eapply reduce_well_formed.
Qed.

(** What [parse] ends in. *)
Lemma parse_outcome (regex_str : pystr) (alphabet : list pystr) :
  match regex.parse regex_str alphabet with
  | Ok root => well_formed root = true
  | Raise e => e = InvalidExpression ∨ e = IndexError ∨ e = ReError
  | NoFuel => False
  end.
Proof.
  unfold regex.parse, regex._parse_regex, helper_functions.tokenize.
  destruct (helper_functions.alphabet_class alphabet) as [|c0 cls];
    [right; right; reflexivity|].
  cbn [mbind res_bind].
  pose proof (parse_tokens_outcome alphabet
                (helper_functions.insert_concat
                   (helper_functions.findall (c0 :: cls) regex_str false) alphabet)
                [] [] (conj (List.Forall_nil _) (List.Forall_nil _))) as Hloop.
  destruct (regex.parse_tokens alphabet _ [] []) as [[operands operators]|e|];
    cbn [mbind res_bind]; [|destruct Hloop; [by left|right; by left]|done].
  unfold regex._empty_operator_stack.
  pose proof (empty_loop_outcome operators operands Hloop) as Hend.
  destruct (regex.empty_loop operators operands) as [operands'|e|];
    cbn [mbind res_bind]; [|by left|done].
  destruct operands' as [|root ?]; [right; by left|].
  destruct Hend as [Hwf _]. by apply Forall_cons in Hwf as [? _].
Qed.

(** X9.  Parsed trees.  The tree [parse] returns is well formed (every
    operator node has as many children as its operator takes, operands
    have none).  On it the depth-first construction, whatever the last
    state used so far, returns an automaton when the interpreter allows
    at least as many nested calls as the tree has levels, and raises
    [RecursionError] when it allows fewer; it raises nothing else. *)
Theorem parse_well_formed (regex_str : pystr) (alphabet : list pystr)
    (root : tree.Node) :
  regex.parse regex_str alphabet = Ok root →
  well_formed root = true ∧
  ∀ frames last,
    ((height root ≤ frames)%nat →
     ∃ nfa, tree.depth_first_recursive frames root last = Ok nfa) ∧
    ((frames < height root)%nat →
     tree.depth_first_recursive frames root last = Raise RecursionError).
Proof.
  intros Hparse. pose proof (parse_outcome regex_str alphabet) as Hout.
  rewrite Hparse in Hout. split; [exact Hout|].
  by apply depth_first_recursive_well_formed.
Qed.

(** The theorem on the regular expression [(a|b)*a], whose tree has four
    levels: with four nested calls the automaton is built, with three
    the construction ends in [RecursionError]. *)
Lemma parse_well_formed_witness :
  ∃ root, regex.parse (py "(a|b)*a") [py "a"; py "b"] = Ok root ∧
          well_formed root = true ∧
          (∃ nfa, tree.depth_first_recursive 4 root 0 = Ok nfa) ∧
          tree.depth_first_recursive 3 root 0 = Raise RecursionError.
Proof.
  eexists. split; [vm_compute; reflexivity|].
  destruct (parse_well_formed (py "(a|b)*a") [py "a"; py "b"] _ eq_refl)
    as [Hwf Hdepth].
  split; [exact Hwf|]. split.
  - apply (proj1 (Hdepth 4%nat 0)). vm_compute. lia.
  - apply (proj2 (Hdepth 3%nat 0)). vm_compute. lia.
Defined.

(** X10.  What the constructor raises.  [RegEx.__init__] returns an object
    (marked invalid when the parser raised [InvalidExpression]) or lets
    an [IndexError], a [re.error] or a [RecursionError] escape, and
    nothing else: no lookup in the operator tables fails, and the
    construction of the automaton from a parsed tree fails only when
    the tree has more levels than the interpreter allows nested
    calls. *)
Theorem init_failures (frames : nat) (alphabet_str regex_str : pystr) :
  match regex.init frames alphabet_str regex_str with
  | Ok self => regex.invalid self = true ↔ regex.nfa self = None
  | Raise e =>
      e = IndexError ∨ e = ReError ∨
      (e = RecursionError ∧
       ∃ root, regex.parse regex_str (List.map (λ ch, [ch]) alphabet_str) = Ok root ∧
               (frames < height root)%nat)
  | NoFuel => False
  end.
Proof.
  unfold regex.init, regex.to_nfa, tree.depth_first.
  pose proof (parse_outcome regex_str (List.map (λ ch, [ch]) alphabet_str)) as Hout.
  destruct (regex.parse regex_str _) as [root|e|]; cbn [mbind res_bind]; [| |done].
  - destruct (depth_first_recursive_well_formed root Hout frames 0) as [Hok Hdeep].
    destruct (decide (height root ≤ frames)%nat) as [Hle|Hgt].
    + destruct (Hok Hle) as [nfa ->].
      cbn [mbind res_bind regex.invalid regex.nfa]. split; discriminate.
    + rewrite Hdeep by lia. cbn [mbind res_bind]. right. right.
      split; [reflexivity|]. exists root. split; [reflexivity|lia].
  - destruct Hout as [-> | [-> | ->] ]; [|by left|right; by left].
    cbn [regex.invalid regex.nfa]. done.
Qed.

(** X11.  An unmatched left parenthesis.  When the token loop of
    [_parse_regex] ends with a left parenthesis on the operator stack,
    [_empty_operator_stack] raises [InvalidExpression], whatever else
    the stacks hold. *)
Theorem unmatched_lparen_InvalidExpression (regex_str : pystr)
    (alphabet : list pystr) (operand_stack : list tree.Node)
    (operator_stack : list pystr) :
  regex._parse_regex regex_str alphabet = Ok (operand_stack, operator_stack) →
  s_lparen ∈ operator_stack →
  regex.parse regex_str alphabet = Raise InvalidExpression.
Proof.
  intros Hparse Hin. unfold regex.parse. rewrite Hparse. cbn [mbind res_bind].
  assert (stacks_ok operand_stack operator_stack) as Hok.
  { unfold regex._parse_regex in Hparse.
    destruct (helper_functions.tokenize regex_str alphabet) as [tokens|e|];
      cbn [mbind res_bind] in Hparse; try discriminate.
    pose proof (parse_tokens_outcome alphabet
                  (helper_functions.insert_concat tokens alphabet) [] []
                  (conj (List.Forall_nil _) (List.Forall_nil _))) as Hloop.
    by rewrite Hparse in Hloop. }
  unfold regex._empty_operator_stack.
  pose proof (empty_loop_outcome operator_stack operand_stack Hok) as Hend.
  destruct (regex.empty_loop operator_stack operand_stack) as [operands'|e|];
    cbn [mbind res_bind]; [|by subst e|done].
  by destruct Hend as [_ Hnot].
Qed.

(** The theorem on the regular expression [(a|b]. *)
Lemma unmatched_lparen_witness :
  regex.parse (py "(a|b") [py "a"; py "b"] = Raise InvalidExpression.
Proof.
  apply (unmatched_lparen_InvalidExpression (py "(a|b") [py "a"; py "b"]
           [tree.mkNode (py "b") [] 0 true; tree.mkNode (py "a") [] 0 true]
           [s_bar; s_lparen]).
  - vm_compute. reflexivity.
  - apply list_elem_of_further, list_elem_of_here.
Defined.

(** X12.  No operand.  When [tokenize] finds no token in the regular
    expression (in particular in the empty string), the operand stack is
    empty at the end and [RegEx.__init__] ends in the [IndexError] of
    [operand_stack.pop()]. *)
Theorem init_no_token_IndexError (frames : nat) (alphabet_str regex_str : pystr) :
  helper_functions.tokenize regex_str (List.map (λ ch, [ch]) alphabet_str) = Ok [] →
  regex.init frames alphabet_str regex_str = Raise IndexError.
Proof.
  intros Htok. unfold regex.init, regex.parse, regex._parse_regex.
  rewrite Htok. reflexivity.
Qed.

Lemma init_no_token_witness :
  regex.init 1000 (py "ab") (py "") = Raise IndexError.
Proof. apply init_no_token_IndexError. vm_compute. reflexivity. Defined.

(* ================================================================== *)
(** * The numbering of the states *)
(* ================================================================== *)

Lemma table_within_weaken (lo lo' hi hi' : Z) (tf : gmap Z (gmap pystr (gset Z))) :
  lo' ≤ lo → hi ≤ hi' → table_within lo hi tf → table_within lo' hi' tf.
Proof.
  intros Hlo Hhi Htf s row Hrow. destruct (Htf s row Hrow) as [Hs Hrow'].
  split; [lia|]. intros symbol tgt t Htgt Ht.
  specialize (Hrow' symbol tgt t Htgt Ht). lia.
Qed.

Lemma table_within_empty (lo hi : Z) : table_within lo hi ∅.
Proof. intros s row Hrow. by rewrite lookup_empty in Hrow. Qed.

Lemma table_within_insert (lo hi : Z) (tf : gmap Z (gmap pystr (gset Z)))
    (s : Z) (row : gmap pystr (gset Z)) :
  table_within lo hi tf → lo < s ≤ hi →
  (∀ symbol tgt t, row !! symbol = Some tgt → t ∈ tgt → lo < t ≤ hi) →
  table_within lo hi (<[ s := row ]> tf).
Proof.
  intros Htf Hs Hrow s' row' Hlook.
  apply lookup_insert_Some in Hlook as [[<- <-]|[_ Hlook]]; [by split|].
  by apply Htf.
Qed.

Lemma table_within_update2 (lo hi : Z) (l r : gmap Z (gmap pystr (gset Z))) :
  table_within lo hi l → table_within lo hi r → table_within lo hi (tree.update2 l r).
Proof.
  intros Hl Hr s row Hrow. unfold tree.update2 in Hrow.
  apply lookup_union_Some_raw in Hrow as [Hrow|[_ Hrow]]; [by apply Hr|by apply Hl].
Qed.

Lemma singleton_row_within (lo hi target : Z) (symbol0 : pystr) :
  lo < target ≤ hi →
  ∀ symbol tgt t,
    ({[ symbol0 := {[ target ]} ]} : gmap pystr (gset Z)) !! symbol = Some tgt →
    t ∈ tgt → lo < t ≤ hi.
Proof.
  intros Ht symbol tgt t Hrow Hin.
  apply lookup_singleton_Some in Hrow as [_ <-].
  apply elem_of_singleton in Hin as ->. exact Ht.
Qed.

Lemma table_within_star_loop (lo hi target : Z) (accept : list Z) :
  lo < target ≤ hi → (∀ a, a ∈ accept → lo < a ≤ hi) →
  ∀ tf : gmap Z (gmap pystr (gset Z)), table_within lo hi tf →
    table_within lo hi
      (foldl (λ tf state, <[ state := {[ s_e := {[ target ]} ]} ]> tf) tf accept).
Proof.
  intros Ht. induction accept as [|a accept IH]; intros Hacc tf Htf; [exact Htf|].
  cbn [foldl]. apply IH.
  - intros a' Ha'. apply Hacc. by apply list_elem_of_further.
  - apply table_within_insert; [exact Htf|apply Hacc, list_elem_of_here|].
    by apply singleton_row_within.
Qed.

Lemma table_within_concat_link (lo hi target state : Z)
    (tf : gmap Z (gmap pystr (gset Z))) :
  lo < target ≤ hi → lo < state ≤ hi → table_within lo hi tf →
  table_within lo hi (tree.concat_link target tf state).
Proof.
  intros Ht Hs Htf. unfold tree.concat_link.
  destruct (tf !! state) as [row|] eqn:Hrow.
  - destruct (Htf state row Hrow) as [_ Hrow'].
    destruct (row !! s_e) as [tgt|] eqn:He.
    + apply table_within_insert; [exact Htf|exact Hs|].
      intros symbol tgt' t Hlook Hin.
      apply lookup_insert_Some in Hlook as [[<- <-]|[_ Hlook]].
      * apply elem_of_union in Hin as [Hin|Hin]; [by eapply Hrow'|].
        apply elem_of_singleton in Hin as ->. exact Ht.
      * by eapply Hrow'.
    + apply table_within_insert; [exact Htf|exact Hs|].
      by apply singleton_row_within.
  - apply table_within_insert; [exact Htf|exact Hs|].
    by apply singleton_row_within.
Qed.

Lemma table_within_concat_loop (lo hi target : Z) (accept : list Z) :
  lo < target ≤ hi → (∀ a, a ∈ accept → lo < a ≤ hi) →
  ∀ tf : gmap Z (gmap pystr (gset Z)), table_within lo hi tf →
    table_within lo hi (foldl (tree.concat_link target) tf accept).
Proof.
  intros Ht. induction accept as [|a accept IH]; intros Hacc tf Htf; [exact Htf|].
  cbn [foldl]. apply IH.
  - intros a' Ha'. apply Hacc. by apply list_elem_of_further.
  - apply table_within_concat_link; [exact Ht|apply Hacc, list_elem_of_here|exact Htf].
Qed.

Lemma base_node_within (node : tree.Node) (last : Z) :
  states_within last (tree.base_node_to_nfa node last).
Proof.
  unfold states_within, tree.base_node_to_nfa.
  cbn [tree.start_state tree.last_state tree.accept_states tree.transition_function].
  split; [lia|]. split.
  - intros a Ha. apply list_elem_of_singleton in Ha as ->. lia.
  - apply table_within_insert; [apply table_within_empty|lia|].
    apply singleton_row_within. lia.
Qed.

Lemma kleene_star_within (last : Z) (nfa : tree.SimpleNFA) :
  states_within last nfa → states_within last (tree.kleene_star_to_nfa nfa).
Proof.
  intros (Hstart & Hacc & Htf). unfold states_within, tree.kleene_star_to_nfa.
  cbn [tree.start_state tree.last_state tree.accept_states tree.transition_function].
  split; [lia|]. split.
  - intros a Ha. apply elem_of_app in Ha as [Ha|Ha]; [apply Hacc in Ha; lia|].
    apply list_elem_of_singleton in Ha as ->. lia.
  - apply table_within_star_loop; [lia|intros a Ha; apply Hacc in Ha; lia|].
    apply table_within_insert; [|lia|apply singleton_row_within; lia].
    eapply table_within_weaken; [| |exact Htf]; lia.
Qed.

Lemma union_within (last : Z) (left_nfa right_nfa : tree.SimpleNFA) :
  states_within last left_nfa →
  states_within (tree.last_state left_nfa) right_nfa →
  states_within last (tree.union_to_nfa left_nfa right_nfa).
Proof.
  intros (Hsl & Hal & Htl) (Hsr & Har & Htr).
  unfold states_within, tree.union_to_nfa.
  cbn [tree.start_state tree.last_state tree.accept_states tree.transition_function].
  split; [lia|]. split.
  - intros a Ha. apply elem_of_app in Ha as [Ha|Ha];
      [apply Hal in Ha|apply Har in Ha]; lia.
  - apply table_within_insert; [|lia|].
    + apply table_within_update2; eapply table_within_weaken; try eassumption; lia.
    + intros symbol tgt t Hrow Hin. apply lookup_singleton_Some in Hrow as [_ <-].
      apply elem_of_union in Hin as [Hin|Hin]; apply elem_of_singleton in Hin as ->;
        lia.
Qed.

Lemma concat_within (last : Z) (left_nfa right_nfa : tree.SimpleNFA) :
  states_within last left_nfa →
  states_within (tree.last_state left_nfa) right_nfa →
  states_within last (tree.concat_to_nfa left_nfa right_nfa).
Proof.
  intros (Hsl & Hal & Htl) (Hsr & Har & Htr).
  unfold states_within, tree.concat_to_nfa.
  cbn [tree.start_state tree.last_state tree.accept_states tree.transition_function].
  split; [lia|]. split.
  - intros a Ha. apply Har in Ha. lia.
  - apply table_within_concat_loop; [lia|intros a Ha; apply Hal in Ha; lia|].
    apply table_within_update2; eapply table_within_weaken; try eassumption; lia.
Qed.

(** X13.  Fresh states.  The automaton [depth_first_recursive] builds for a
    node, when [last] was the last state in use, has its start state,
    its accept states and every state of its table above [last] and at
    most its own [last_state]; the automata of the two operands of a
    binary node therefore share no state, and the automaton of a whole
    tree has its states in 1..last_state. *)
Theorem depth_first_recursive_fresh_states (node : tree.Node) :
  ∀ frames last nfa, tree.depth_first_recursive frames node last = Ok nfa →
                     states_within last nfa.
Proof.
  induction node as [v cs t sym IH] using Node_ind. intros frames last nfa Hnfa.
  destruct frames as [|frames]; [discriminate|].
  cbn [tree.depth_first_recursive] in Hnfa.
  destruct sym; [injection Hnfa as <-; apply base_node_within|].
  destruct cs as [|operand cs'].
  { destruct (bool_decide (v = s_N)).
    { injection Hnfa as <-. unfold states_within, tree.empty_set_to_nfa.
      cbn [tree.start_state tree.last_state tree.accept_states
           tree.transition_function].
      split; [lia|]. split; [|apply table_within_empty].
      intros a Ha. by apply not_elem_of_nil in Ha. }
    destruct (bool_decide (v = s_e)); [|injection Hnfa as <-; apply base_node_within].
    injection Hnfa as <-. unfold states_within, tree.epsilon_node_to_nfa.
    cbn [tree.start_state tree.last_state tree.accept_states tree.transition_function].
    split; [lia|]. split; [|apply table_within_empty].
    intros a Ha. apply list_elem_of_singleton in Ha as ->. lia. }
  apply Forall_cons in IH as [IHop IHcs'].
  destruct (bool_decide (v = s_star)).
  { destruct (tree.depth_first_recursive frames operand last)
      as [operand_nfa| |] eqn:Hop; cbn [mbind res_bind] in Hnfa; try discriminate.
    injection Hnfa as <-. apply kleene_star_within. by eapply IHop. }
  destruct cs' as [|right_operand cs'']; [discriminate|].
  apply Forall_cons in IHcs' as [IHr _].
  destruct (tree.depth_first_recursive frames operand last) as [left_nfa| |] eqn:Hl;
    cbn [mbind res_bind] in Hnfa; try discriminate.
  destruct (tree.depth_first_recursive frames right_operand (tree.last_state left_nfa))
    as [right_nfa| |] eqn:Hr; cbn [mbind res_bind] in Hnfa; try discriminate.
  apply IHop in Hl. apply IHr in Hr.
  destruct (bool_decide (v = s_bar)); [injection Hnfa as <-; by apply union_within|].
  destruct (bool_decide (v = s_concat_tree));
    injection Hnfa as <-; [by apply concat_within|apply base_node_within].
Qed.

(** The theorem on the tree of the union of [a] and [b]. *)
Lemma depth_first_recursive_fresh_states_witness :
  ∃ nfa,
    tree.depth_first 1000
      (tree.mkNode s_bar [tree.mkNode (py "a") [] 0 true;
                          tree.mkNode (py "b") [] 0 true] 1 false) = Ok nfa ∧
    states_within 0 nfa.
Proof.
  eexists. split; [vm_compute; reflexivity|].
  apply (depth_first_recursive_fresh_states
           (tree.mkNode s_bar [tree.mkNode (py "a") [] 0 true;
                               tree.mkNode (py "b") [] 0 true] 1 false) 1000 0).
  vm_compute. reflexivity.
Defined.

(* ================================================================== *)
(** * The table of a concatenation *)
(* ================================================================== *)

Lemma concat_link_lookup (target : Z) (tf : gmap Z (gmap pystr (gset Z)))
    (state s : Z) :
  tree.concat_link target tf state !! s
  = if decide (s = state) then Some (linked_row target (tf !! state)) else tf !! s.
Proof.
  unfold tree.concat_link, linked_row.
  destruct (decide (s = state)) as [->|Hne].
  - destruct (tf !! state) as [row|]; [destruct (row !! s_e)|];
      by rewrite lookup_insert_eq.
  - destruct (tf !! state) as [row|]; [destruct (row !! s_e)|];
      by rewrite lookup_insert_ne.
Qed.

Lemma linked_row_idem (target : Z) (row : option (gmap pystr (gset Z))) :
  linked_row target (Some (linked_row target row)) = linked_row target row.
Proof.
  unfold linked_row at 1.
  assert (∃ tgt, linked_row target row !! s_e = Some tgt ∧ tgt ∪ {[ target ]} = tgt)
    as (tgt & Htgt & Hidem).
  { unfold linked_row. destruct row as [row|].
    - destruct (row !! s_e) as [tgt|].
      + exists (tgt ∪ {[ target ]}). rewrite lookup_insert_eq. split; [done|set_solver].
      + exists {[ target ]}. rewrite lookup_singleton_eq. split; [done|set_solver].
    - exists {[ target ]}. rewrite lookup_singleton_eq. split; [done|set_solver]. }
  rewrite Htgt, Hidem. by apply insert_id.
Qed.

Lemma concat_loop_lookup (target : Z) (accept : list Z) :
  ∀ (tf : gmap Z (gmap pystr (gset Z))) (s : Z),
    foldl (tree.concat_link target) tf accept !! s
    = if bool_decide (s ∈ accept) then Some (linked_row target (tf !! s)) else tf !! s.
Proof.
  induction accept as [|a accept IH]; intros tf s; [reflexivity|].
  cbn [foldl]. rewrite IH, !concat_link_lookup.
  destruct (decide (s = a)) as [->|Hne].
  - rewrite (bool_decide_eq_true_2 (a ∈ a :: accept)) by apply list_elem_of_here.
    destruct (bool_decide (a ∈ accept)); [|reflexivity].
    by rewrite linked_row_idem.
  - destruct (decide (s ∈ accept)) as [Hin|Hnin].
    + rewrite !bool_decide_eq_true_2; [reflexivity|by apply list_elem_of_further|done].
    + rewrite !bool_decide_eq_false_2; [reflexivity| |done].
      intros Hin. apply elem_of_cons in Hin as [?|?]; done.
Qed.

(** X14.  The table of a concatenation.  [concat_to_nfa] first joins the
    two tables (an entry of the right automaton wins).  The row of a
    state that is no accept state of the left automaton stays as joined.
    For an accept state of the left automaton: when its row has an
    entry under ['e'], the start state of the right automaton is added
    to that entry and the rest of the row is kept; when it has a row
    without such an entry, or no row, the row becomes the single entry
    ['e'] to the start state of the right automaton, and what the row
    held is dropped. *)
Theorem concat_to_nfa_table (left_nfa right_nfa : tree.SimpleNFA) (s : Z) :
  let joined := tree.update2 (tree.transition_function left_nfa)
                             (tree.transition_function right_nfa) in
  let result := tree.transition_function (tree.concat_to_nfa left_nfa right_nfa) in
  (s ∉ tree.accept_states left_nfa → result !! s = joined !! s) ∧
  (s ∈ tree.accept_states left_nfa →
   ∀ row tgt, joined !! s = Some row → row !! s_e = Some tgt →
     result !! s = Some (<[ s_e := tgt ∪ {[ tree.start_state right_nfa ]} ]> row)) ∧
  (s ∈ tree.accept_states left_nfa →
   (joined !! s = None ∨ ∃ row, joined !! s = Some row ∧ row !! s_e = None) →
   result !! s = Some {[ s_e := {[ tree.start_state right_nfa ]} ]}).
Proof.
  cbv zeta. unfold tree.concat_to_nfa. cbn [tree.transition_function].
  rewrite concat_loop_lookup. split; [|split].
  - intros Hnin. by rewrite bool_decide_eq_false_2.
  - intros Hin row tgt Hrow Htgt. rewrite bool_decide_eq_true_2 by exact Hin.
    rewrite Hrow. unfold linked_row. by rewrite Htgt.
  - intros Hin Hrow. rewrite bool_decide_eq_true_2 by exact Hin.
    destruct Hrow as [->|(row & -> & Hnone)]; [reflexivity|].
    unfold linked_row. by rewrite Hnone.
Qed.

(** The theorem on the automaton [simple_nfa_loop], whose accept state
    2 has a row without an entry under ['e'], concatenated with
    itself renumbered: the edge on [a] out of state 2 is dropped. *)
Lemma concat_to_nfa_table_witness :
  tree.transition_function
    (tree.concat_to_nfa simple_nfa_loop
       (tree.mkSimpleNFA {[ 3 := {[ py "a" := {[ 4 ]} ]} ]} [4] 3 4)) !! 2
  = Some {[ s_e := {[ 3 ]} ]}.
Proof.
  refine (proj2 (proj2 (concat_to_nfa_table simple_nfa_loop
            (tree.mkSimpleNFA {[ 3 := {[ py "a" := {[ 4 ]} ]} ]} [4] 3 4) 2)) _ _).
  - apply list_elem_of_here.
  - right. exists {[ py "a" := {[ 2 ]} ]}. split; vm_compute; reflexivity.
Defined.

(* ================================================================== *)
(** * The table of a DFA read from a file *)
(* ================================================================== *)

(** X15.  Store and look up.  After [_store_transition] has stored the
    record (state_from, transition_char, state_to), [transition] returns
    [state_to] for that pair, whatever was stored for it before, and
    what it returned before for every other pair. *)
Theorem store_transition_lookup (d : dfa.DFA pystr)
    (state_from state_to transition_char state symbol : pystr) :
  dfa.transition
    (dfa.mkDFA (dfa.alphabet d) (dfa.number_of_states d)
       (dfa._store_transition (dfa.transition_function d)
          state_from state_to transition_char)
       (dfa.start_state d) (dfa.accept_states d))
    state symbol
  = if decide (state = state_from ∧ symbol = transition_char)
    then Ok state_to
    else dfa.transition d state symbol.
Proof.
  unfold dfa.transition, dfa._store_transition, getitem.
  cbn [dfa.transition_function].
  destruct (decide (state = state_from)) as [->|Hs].
  - destruct (dfa.transition_function d !! state_from) as [row|] eqn:Hrow;
      rewrite lookup_insert_eq; cbn [mbind res_bind].
    + destruct (decide (symbol = transition_char)) as [->|Hc].
      * rewrite lookup_insert_eq. by rewrite decide_True.
      * rewrite lookup_insert_ne by done. rewrite decide_False by tauto.
        reflexivity.
    + destruct (decide (symbol = transition_char)) as [->|Hc].
      * rewrite lookup_singleton_eq. by rewrite decide_True.
      * rewrite lookup_singleton_ne by done. rewrite decide_False by tauto.
        reflexivity.
  - rewrite decide_False by tauto.
    destruct (dfa.transition_function d !! state_from);
      by rewrite lookup_insert_ne.
Qed.

(** Composition.  Running the loop of [simulate] over a string in
    two parts is running it over the first part and then, from the state
    reached, over the second; in particular a failed lookup in the first
    part is the outcome of the whole. *)
Lemma run_app `{Countable Q} (d : dfa.DFA Q) (s1 s2 : pystr) (q : Q) :
  dfa.run d q (s1 ++ s2) = (q' ← dfa.run d q s1; dfa.run d q' s2).
Proof.
  revert q. induction s1 as [|ch s1 IH]; intros q; [reflexivity|].
  cbn [app dfa.run].
  destruct (dfa.transition d q [ch]) as [next| |]; cbn [mbind res_bind];
    [apply IH|reflexivity..].
Qed.

Section ReaderErrors.
Variable isspace : N → bool.
Variable isnumeric_char : N → bool.
Variable int : pystr → res Z.

Lemma validate_state_failure n state :
  match dfa._validate_state isnumeric_char int n state with
  | Ok _ => True
  | Raise e => ∃ s, int s = Raise e
  | NoFuel => ∃ s, int s = NoFuel
  end.
Proof.
  unfold dfa._validate_state. destruct (negb (dfa.isnumeric isnumeric_char state));
    [exact I|].
  destruct (int state) as [v|e|] eqn:Hint; cbn [mbind res_bind]; [|eauto..].
  by destruct (negb (bool_decide (1 ≤ v ≤ n))).
Qed.

Lemma validate_transition_failure n alphabet i o c :
  match dfa._validate_transition isnumeric_char int n alphabet i o c with
  | Ok _ => True
  | Raise e => ∃ s, int s = Raise e
  | NoFuel => ∃ s, int s = NoFuel
  end.
Proof.
  unfold dfa._validate_transition.
  pose proof (validate_state_failure n i) as Hi.
  pose proof (validate_state_failure n o) as Ho.
  destruct (dfa._validate_state isnumeric_char int n i) as [vi| |];
    cbn [mbind res_bind]; try exact Hi.
  destruct vi; cbn [mbind res_bind]; [|exact I].
  destruct (dfa._validate_state isnumeric_char int n o) as [vo| |];
    cbn [mbind res_bind]; try exact Ho.
  by destruct (negb (true && vo) || negb (mem c alphabet)).
Qed.

Lemma validate_accept_states_failure n l :
  ∀ acc, match dfa._validate_accept_states isnumeric_char int n acc l with
         | Ok _ => True
         | Raise e => ∃ s, int s = Raise e
         | NoFuel => ∃ s, int s = NoFuel
         end.
Proof.
  induction l as [|state l IH]; intros acc; [exact I|].
  cbn [dfa._validate_accept_states].
  pose proof (validate_state_failure n state) as Hs.
  destruct (dfa._validate_state isnumeric_char int n state) as [v| |];
    cbn [mbind res_bind]; try exact Hs.
  destruct v; cbn [negb]; [apply IH|exact I].
Qed.

Lemma read_transitions_failure n alphabet f :
  ∀ tf transition_data,
    reader_failure int
      (dfa.read_transitions isspace isnumeric_char int n alphabet tf transition_data f).
Proof.
  induction f as [|l ls IH]; intros tf transition_data.
  - destruct transition_data as [|s [|c [|t [|? ?]]]]; try exact I.
    cbn [dfa.read_transitions].
    pose proof (validate_transition_failure n alphabet s t (remove_char ch_quote c))
      as Hv.
    destruct (dfa._validate_transition isnumeric_char int n alphabet s t _)
      as [v| |]; cbn [mbind res_bind reader_failure]; [|eauto..].
    destruct v; cbn [negb reader_failure]; [exact I|by left].
  - destruct transition_data as [|s [|c [|t [|? ?]]]]; try exact I.
    cbn [dfa.read_transitions].
    pose proof (validate_transition_failure n alphabet s t (remove_char ch_quote c))
      as Hv.
    destruct (dfa._validate_transition isnumeric_char int n alphabet s t _)
      as [v| |]; cbn [mbind res_bind reader_failure]; [|eauto..].
    destruct v; cbn [negb]; [apply IH|by left].
Qed.

(** X16.  What the constructor raises.  Reading a description ends in a
    DFA, in [FileFormatError], in the [IndexError] of the empty line
    where the start state is expected, or in what [int] raises on a
    string that passed [isnumeric]; no lookup fails. *)
Theorem read_dfa_failures (text : pystr) :
  reader_failure int (dfa._read_dfa_data_from_file isspace isnumeric_char int text).
Proof.
  unfold dfa._read_dfa_data_from_file.
  destruct (dfa.readline (dfa.lines_of text)) as [line1 f1].
  destruct (negb (dfa.isnumeric isnumeric_char (dfa.strip isspace line1))
            || bool_decide (dfa.strip isspace line1 = [])); [by left|].
  destruct (int (dfa.strip isspace line1)) as [n|e|] eqn:Hint;
    cbn [mbind res_bind reader_failure]; [|eauto..].
  destruct (dfa.readline f1) as [line2 f2].
  destruct (dfa.readline f2) as [line3 f3].
  pose proof (read_transitions_failure n
                (List.map (λ ch, [ch]) (dfa.strip isspace line2)) f3 ∅
                (dfa.split isspace (dfa.strip isspace line3))) as Hloop.
  destruct (dfa.read_transitions isspace isnumeric_char int n _ ∅ _ f3)
    as [[[tf td] f4]| |]; cbn [mbind res_bind]; try exact Hloop.
  destruct td as [|start_state td]; [right; by left|].
  pose proof (validate_state_failure n start_state) as Hs.
  destruct (dfa._validate_state isnumeric_char int n start_state) as [v| |];
    cbn [mbind res_bind reader_failure]; [|eauto..].
  destruct v; cbn [negb]; [|by left].
  destruct (dfa.readline f4) as [line5 f5].
  pose proof (validate_accept_states_failure n
                (dfa.split isspace (dfa.strip isspace line5)) ∅) as Ha.
  destruct (dfa._validate_accept_states isnumeric_char int n ∅ _) as [acc| |];
    cbn [mbind res_bind reader_failure]; [|eauto..].
  destruct acc as [acc|]; [|by left].
  destruct (dfa.readline f5) as [line6 f6].
  destruct line6; [exact I|by left].
Qed.
End ReaderErrors.

(* ================================================================== *)
(** * The subset construction preserves the language *)
(* ================================================================== *)

Section ClosureExact.
Context `{Countable K}.
Variable self : nfa.NFA K.

Lemma closure_loop_closed (fuel : nat) :
  ∀ queue seen r,
    nfa.closure_loop self fuel queue seen = Ok r →
    (∀ x y, x ∈ seen → eps_step self x y → y ∈ seen ∨ y ∈ queue) →
    ∀ x y, x ∈ r → eps_step self x y → y ∈ r.
Proof.
  induction fuel as [|fuel IH]; intros queue seen r Hloop Hinv; [discriminate|].
  cbn [nfa.closure_loop] in Hloop. destruct queue as [|curr queue].
  - injection Hloop as <-. intros x y Hx Hstep.
    destruct (Hinv x y Hx Hstep) as [Hy|Hy]; [exact Hy|by apply not_elem_of_nil in Hy].
  - apply (IH _ _ _ Hloop).
    intros x y Hx Hstep.
    destruct (decide (y ∈ ({[curr]} ∪ seen : gset K))) as [Hy|Hy]; [by left|right].
    apply elem_of_app. apply elem_of_union in Hx as [Hx|Hx].
    + apply elem_of_singleton in Hx as ->. right.
      apply elem_of_List_filter. split; [by apply elem_of_elements|].
      by rewrite bool_decide_eq_false_2.
    + destruct (Hinv x y Hx Hstep) as [Hy'|Hy']; [set_solver|].
      apply elem_of_cons in Hy' as [->|Hy']; [set_solver|by left].
Qed.

Lemma closure_loop_reach (fuel : nat) :
  ∀ queue seen r,
    nfa.closure_loop self fuel queue seen = Ok r →
    ∀ q, q ∈ r → q ∈ seen ∨ ∃ p, p ∈ queue ∧ eps_reach self p q.
Proof.
  induction fuel as [|fuel IH]; intros queue seen r Hloop q Hq; [discriminate|].
  cbn [nfa.closure_loop] in Hloop. destruct queue as [|curr queue].
  - injection Hloop as <-. by left.
  - destruct (IH _ _ _ Hloop q Hq) as [Hseen|(p & Hp & Hreach)].
    + apply elem_of_union in Hseen as [Hc|Hs]; [|by left].
      apply elem_of_singleton in Hc as ->. right. exists curr.
      split; [apply list_elem_of_here|apply rtc_refl].
    + right. apply elem_of_app in Hp as [Hp|Hp].
      * exists p. split; [by apply list_elem_of_further|exact Hreach].
      * apply elem_of_List_filter in Hp as [Hp _]. apply elem_of_elements in Hp.
        exists curr. split; [apply list_elem_of_here|].
        by eapply rtc_l.
Qed.

(** [_get_epsilon_closure] returns the states reached by epsilon steps. *)
Lemma get_epsilon_closure_exact (fuel : nat) (state : K) (r : gset K) :
  nfa._get_epsilon_closure self fuel state = Ok r →
  ∀ q, q ∈ r ↔ eps_reach self state q.
Proof.
  intros Hr q. split.
  - intros Hq. destruct (closure_loop_reach _ _ _ _ Hr q Hq) as [Hq'|(p & Hp & Hreach)].
    + by apply elem_of_empty in Hq'.
    + by apply list_elem_of_singleton in Hp as ->.
  - intros Hreach.
    assert (state ∈ r) as Hstate by (by apply get_epsilon_closure_sound in Hr as [? _]).
    assert (∀ x y, x ∈ r → eps_step self x y → y ∈ r) as Hclosed.
    { apply (closure_loop_closed _ _ _ _ Hr). intros x y Hx. by apply elem_of_empty in Hx. }
    clear Hr. induction Hreach as [|x y z Hstep _ IH]; [exact Hstate|].
    apply IH. by eapply Hclosed.
Qed.

Lemma closure_of_list_exact (fuel : nat) (states : list K) :
  ∀ e_states r,
    nfa.closure_of_list self fuel states e_states = Ok r →
    ∀ q, q ∈ r ↔ q ∈ e_states ∨ ∃ p, p ∈ states ∧ eps_reach self p q.
Proof.
  induction states as [|state rest IH]; intros e_states r Hr q.
  - injection Hr as <-. split; [by left|].
    intros [Hq|(p & Hp & _)]; [exact Hq|by apply not_elem_of_nil in Hp].
  - cbn [nfa.closure_of_list] in Hr.
    destruct (nfa._get_epsilon_closure self fuel state) as [e_closure| |] eqn:Hc;
      cbn [mbind res_bind] in Hr; try discriminate.
    rewrite (IH _ _ Hr q), elem_of_union, (get_epsilon_closure_exact _ _ _ Hc q).
    split.
    + intros [[Hq|Hq]|(p & Hp & Hreach)]; [by left|right..].
      * exists state. split; [apply list_elem_of_here|exact Hq].
      * exists p. split; [by apply list_elem_of_further|exact Hreach].
    + intros [Hq|(p & Hp & Hreach)]; [by left; left|].
      apply elem_of_cons in Hp as [->|Hp]; [by left; right|].
      right. by exists p.
Qed.

Lemma get_transition_for_states_set_exact (set_of_states : gset K) (symbol : pystr)
    (q : K) :
  q ∈ nfa._get_transition_for_states_set self set_of_states symbol ↔
  ∃ p, p ∈ set_of_states ∧ q ∈ nfa._get_transition self p symbol.
Proof.
  unfold nfa._get_transition_for_states_set.
  assert (∀ (l : list K) (acc : gset K),
            q ∈ foldl (λ dest_states state,
                         dest_states ∪ nfa._get_transition self state symbol) acc l ↔
            q ∈ acc ∨ ∃ p, p ∈ l ∧ q ∈ nfa._get_transition self p symbol) as Hfold.
  { induction l as [|x l IH]; intros acc; cbn [foldl].
    - split; [by left|]. intros [?|(p & Hp & _)]; [done|by apply not_elem_of_nil in Hp].
    - rewrite IH, elem_of_union. split.
      + intros [[?|?]|(p & Hp & Hq)]; [by left|right..].
        * exists x. split; [apply list_elem_of_here|done].
        * exists p. split; [by apply list_elem_of_further|done].
      + intros [?|(p & Hp & Hq)]; [by left; left|].
        apply elem_of_cons in Hp as [->|Hp]; [by left; right|right; by exists p]. }
  rewrite Hfold. split.
  - intros [Hq|(p & Hp & Hq)]; [by apply elem_of_empty in Hq|].
    exists p. split; [by apply elem_of_elements|exact Hq].
  - intros (p & Hp & Hq). right. exists p. split; [by apply elem_of_elements|exact Hq].
Qed.

(** The destination set of the symbol loop is the set [step_set]
    describes. *)
Lemma dest_states_exact (fuel : nat) (curr : gset K) (symbol : pystr) (d : gset K) :
  dest_states self fuel curr symbol = Ok d →
  ∀ q, q ∈ d ↔ step_set self curr symbol q.
Proof.
  unfold dest_states, nfa._get_epsilon_closure_for_states_set.
  destruct (nfa.closure_of_list self fuel _ ∅) as [e| |] eqn:He;
    cbn [mbind res_bind]; try discriminate.
  intros [= <-] q. rewrite elem_of_union, (closure_of_list_exact _ _ _ _ He q).
  unfold step_set. split.
  - intros [Hq|[Hq|(q0 & Hq0 & Hreach)]].
    + apply get_transition_for_states_set_exact in Hq as (p & Hp & Hq).
      exists p, q. split; [exact Hp|]. split; [exact Hq|apply rtc_refl].
    + by apply elem_of_empty in Hq.
    + apply elem_of_elements, get_transition_for_states_set_exact in Hq0
        as (p & Hp & Hq0).
      by exists p, q0.
  - intros (p & q0 & Hp & Hq0 & Hreach). right. right. exists q0.
    split; [|exact Hreach].
    apply elem_of_elements, get_transition_for_states_set_exact. by exists p.
Qed.
End ClosureExact.

Section RowsExact.
Context `{Countable K}.
Variable self : nfa.NFA K.
Variable start : gset K.
Hypothesis start_nonempty : start ≠ ∅.

Lemma conversion_loop_rows_exact (fuel : nat) :
  ∀ st st', nfa.conversion_loop self fuel st = Ok st' →
    loop_inv self start st →
    rows_exact self (nfa.l_transition_function st)
               (nfa.dfa_state_int_mapping_reverse st) →
    rows_exact self (nfa.l_transition_function st')
               (nfa.dfa_state_int_mapping_reverse st').
Proof.
  induction fuel as [|fuel IH]; intros st st' Hloop Hinv Hrows; [discriminate|].
  cbn [nfa.conversion_loop] in Hloop.
  destruct (nfa.queue st) as [|curr rest] eqn:Hqueue.
  - injection Hloop as <-. exact Hrows.
  - destruct (decide (curr ∈ nfa.states_handled st)) as [Hin|Hnin].
    + rewrite bool_decide_eq_true_2 in Hloop by exact Hin.
      apply IH in Hloop; [exact Hloop|by eapply loop_inv_skip|exact Hrows].
    + rewrite bool_decide_eq_false_2 in Hloop by exact Hnin.
      destruct (nfa.symbols_loop self (S fuel) curr (nfa.alphabet self) ∅ rest
                  (nfa.found_empty st)) as [[[tr q'] fe']| |] eqn:Hsym;
        cbn [mbind res_bind] in Hloop; try discriminate.
      rewrite (set_id_eq self start st curr rest Hinv Hqueue Hnin) in Hloop.
      apply IH in Hloop; [exact Hloop|by eapply loop_inv_handle|].
      cbn [nfa.l_transition_function nfa.dfa_state_int_mapping_reverse].
      destruct (loop_inv_fresh self start st curr rest Hinv Hqueue Hnin)
        as (_ & _ & _ & _ & Hfresh).
      apply symbols_loop_sound in Hsym as (Hin_al & Hnot_al & _).
      intros i row Hrow Hi.
      apply lookup_insert_Some in Hrow as [[<- <-]|[Hne Hrow]].
      * exists curr. split; [by rewrite lookup_insert_eq|].
        intros symbol d Hd.
        destruct (decide (symbol ∈ nfa.alphabet self)) as [Hal|Hal].
        -- destruct (Hin_al symbol Hal) as (d' & Hdest & Hd' & _).
           rewrite Hd in Hd'. injection Hd' as <-.
           by eapply dest_states_exact.
        -- rewrite (Hnot_al symbol Hal), lookup_empty in Hd. discriminate.
      * destruct (Hrows i row Hrow Hi) as (s & Hs & Hexact).
        exists s. split; [|exact Hexact]. by rewrite lookup_insert_ne.
Qed.

Lemma nfa_conversion_rows_exact (fuel : nat) (c : nfa.conversion K) :
  nfa._nfa_conversion self fuel start = Ok c →
  rows_exact self (nfa.c_transition_function c) (nfa.c_int_mapping_reverse c).
Proof.
  unfold nfa._nfa_conversion.
  destruct (nfa.conversion_loop self fuel _) as [st| |] eqn:Hloop;
    cbn [mbind res_bind]; try discriminate.
  pose proof (conversion_loop_rows_exact fuel _ st Hloop
                (loop_inv_init self start start_nonempty)) as Hrows.
  cbn [nfa.l_transition_function nfa.dfa_state_int_mapping_reverse] in Hrows.
  assert (rows_exact self (nfa.l_transition_function st)
            (nfa.dfa_state_int_mapping_reverse st)) as Hst.
  { apply Hrows. intros i row Hrow. by rewrite lookup_empty in Hrow. }
  destruct (nfa.found_empty st); cbn [negb].
  - intros [= <-]. cbn [nfa.c_transition_function nfa.c_int_mapping_reverse].
    intros i row Hrow Hi. rewrite reject_loops_other in Hrow by lia.
    by apply Hst.
  - destruct (getitem (nfa.dfa_state_int_mapping st) ∅) as [?| |];
      cbn [mbind res_bind]; try discriminate.
    destruct (getitem (nfa.dfa_state_int_mapping_reverse st) 1) as [?| |];
      cbn [mbind res_bind]; try discriminate.
    intros [= <-]. cbn [nfa.c_transition_function nfa.c_int_mapping_reverse].
    intros i row Hrow Hi. destruct (Hst i row Hrow Hi) as (s & Hs & Hexact).
    exists s. split; [|exact Hexact]. rewrite lookup_delete_ne by lia. exact Hs.
Qed.
End RowsExact.

Section Simulation.
Context `{Countable K}.
Variable self : nfa.NFA K.

Lemma nfa_path_eps_l (p p' q : K) (str : pystr) :
  eps_reach self p p' → nfa_path self p' str q → nfa_path self p str q.
Proof.
  intros Hreach Hpath. destruct Hpath as [p' q Hq|p' p1 p2 ch str q Hp1 Hp2 Hrest].
  - apply path_stop. by etrans.
  - eapply path_read; [|exact Hp2|exact Hrest]. by etrans.
Qed.

Lemma step_set_closed (S S' : gset K) (symbol : pystr) :
  (∀ q, q ∈ S' ↔ step_set self S symbol q) → eps_closed self S'.
Proof.
  intros HS' p q Hp Hreach. apply HS'. apply HS' in Hp as (p0 & q0 & Hp0 & Hq0 & Hr).
  exists p0, q0. split; [exact Hp0|]. split; [exact Hq0|]. by etrans.
Qed.

Variable start : gset K.
Variable sets : list (gset K).
Variable c : nfa.conversion K.
Variable d : dfa.DFA Z.
Hypothesis Hc : conv_spec self start sets c.
Hypothesis Hd : dfa_spec self sets c d.
Hypothesis Hrows : rows_exact self (nfa.c_transition_function c)
                              (nfa.c_int_mapping_reverse c).

Lemma state_set_of_mapping (dset : gset K) (j : Z) :
  nfa.c_int_mapping c !! dset = Some j → state_set c (j - shift_of c) dset.
Proof.
  intros Hj. unfold state_set. replace (j - shift_of c + shift_of c) with j by lia.
  apply (cs_rev _ _ _ _ Hc). apply (cs_map _ _ _ _ Hc) in Hj as [(-> & -> & Hfe)|Hk].
  - by left.
  - by right.
Qed.

Lemma dfa_step (x : Z) (S : gset K) (symbol : pystr) :
  state_set c x S → symbol ∈ nfa.alphabet self →
  ∃ y S', dfa.transition d x symbol = Ok y ∧ state_set c y S' ∧
          ∀ q, q ∈ S' ↔ step_set self S symbol q.
Proof.
  intros HS Hsym. unfold state_set in HS.
  pose proof HS as Hrev. apply (cs_rev _ _ _ _ Hc) in Hrev as [(Hx & -> & Hfe)|(k & Hk & Hx)].
  - assert (x = 1) as -> by (unfold shift_of in Hx; rewrite Hfe in Hx; lia).
    exists 1, ∅. split; [by eapply dfa_reject_loop|]. split; [exact HS|].
    intros q. split; [intros Hq; by apply elem_of_empty in Hq|].
    intros (p & _ & Hp & _). by apply elem_of_empty in Hp.
  - assert (2 ≤ x + shift_of c) as Hge by lia.
    assert (is_Some (nfa.c_transition_function c !! (x + shift_of c))) as [crow Hcrow].
    { apply (cs_dom _ _ _ _ Hc). left. apply lookup_lt_Some in Hk. lia. }
    destruct (cs_row _ _ _ _ Hc _ crow Hge Hcrow) as [Hdom Hent].
    destruct (proj2 (Hdom symbol) Hsym) as [d0 Hd0].
    destruct (Hent symbol d0 Hd0) as (dset & -> & _).
    destruct (dfa_transition_of_conversion self start sets c d Hc Hd _ crow symbol dset
                Hge Hcrow Hd0) as (j & Hj & Htr & _).
    replace (x + shift_of c - shift_of c) with x in Htr by lia.
    exists (j - shift_of c), dset. split; [exact Htr|].
    split; [by apply state_set_of_mapping|].
    destruct (Hrows _ crow Hcrow Hge) as (S' & HS' & Hexact).
    rewrite HS in HS'. injection HS' as <-. by apply Hexact.
Qed.

Lemma dfa_run (str : pystr) :
  Forall (λ ch, [ch] ∈ nfa.alphabet self) str →
  ∀ x S, state_set c x S → eps_closed self S →
    ∃ y S', dfa.run d x str = Ok y ∧ state_set c y S' ∧
            ∀ q, q ∈ S' ↔ ∃ p, p ∈ S ∧ nfa_path self p str q.
Proof.
  induction 1 as [|ch str Hch _ IH]; intros x S HS Hclosed.
  - exists x, S. split; [reflexivity|]. split; [exact HS|].
    intros q. split.
    + intros Hq. exists q. split; [exact Hq|]. apply path_stop, rtc_refl.
    + intros (p & Hp & Hpath). inversion Hpath; subst. by eapply Hclosed.
  - destruct (dfa_step x S [ch] HS Hch) as (y1 & S1 & Htr & HS1 & Hexact).
    destruct (IH y1 S1 HS1 (step_set_closed S S1 [ch] Hexact))
      as (y & S' & Hrun & HS' & Hpaths).
    exists y, S'. cbn [dfa.run]. rewrite Htr. cbn [mbind res_bind].
    split; [exact Hrun|]. split; [exact HS'|].
    intros q. rewrite Hpaths. split.
    + intros (p1 & Hp1 & Hpath). apply Hexact in Hp1 as (p & q0 & Hp & Hq0 & Hreach).
      exists p. split; [exact Hp|].
      eapply path_read; [apply rtc_refl|exact Hq0|].
      by eapply nfa_path_eps_l.
    + intros (p & Hp & Hpath). inversion Hpath as [|? p1 p2 ? ? ? Hp1 Hp2 Hrest]; subst.
      exists p2. split; [|exact Hrest]. apply Hexact.
      exists p1, p2. split; [by eapply Hclosed|]. split; [exact Hp2|apply rtc_refl].
Qed.

Lemma dfa_accepting (y : Z) (S : gset K) :
  state_set c y S →
  (y ∈ dfa.accept_states d ↔ ∃ q, q ∈ S ∧ accept_state self q).
Proof.
  intros HS. rewrite (ds_accept _ _ _ _ Hd). unfold state_set in HS. split.
  - intros (s & _ & Hs & Hacc). rewrite HS in Hs. injection Hs as <-.
    by apply accepting_spec.
  - intros Hacc. exists S. split; [|split; [exact HS|by apply accepting_spec]].
    apply (cs_rev _ _ _ _ Hc) in HS as [(_ & -> & _)|(k & _ & ->)]; [|lia].
    destruct Hacc as (q & Hq & _). by apply elem_of_empty in Hq.
Qed.

Lemma dfa_start_set : state_set c (dfa.start_state d) start.
Proof.
  unfold state_set. rewrite (ds_start _ _ _ _ Hd).
  replace (2 - shift_of c + shift_of c) with 2 by lia.
  apply (cs_rev _ _ _ _ Hc). right. exists O. split; [|reflexivity].
  apply (cs_first _ _ _ _ Hc).
Qed.
End Simulation.

(** X17.  The language.  The DFA [NFA.to_DFA] returns accepts exactly the
    strings over the alphabet that the NFA accepts: on such a string
    [simulate] fails on no lookup, and it returns [True] exactly when
    the NFA has a path from its start state to an accept state that
    reads the string, with epsilon steps in between. *)
Theorem to_DFA_language `{Countable K} (self : nfa.NFA K) (fuel : nat)
    (d : dfa.DFA Z) (str : pystr) :
  nfa.to_DFA self fuel = Ok d →
  Forall (λ ch, [ch] ∈ nfa.alphabet self) str →
  ∃ b, dfa.simulate d str = Ok b ∧ (b = true ↔ nfa_accepts self str).
Proof.
  intros Hto Hstr. destruct (to_DFA_sound self fuel d Hto)
    as (start & sets & c & Hstart & Hconv & Hc & Hd).
  assert (start ≠ ∅) as Hne.
  { apply get_epsilon_closure_sound in Hstart as [Hin _]. set_solver. }
  pose proof (nfa_conversion_rows_exact self start Hne fuel c Hconv) as Hrows.
  pose proof (get_epsilon_closure_exact self fuel _ _ Hstart) as Hstart_exact.
  assert (eps_closed self start) as Hclosed.
  { intros p q Hp Hreach. apply Hstart_exact. apply Hstart_exact in Hp. by etrans. }
  destruct (dfa_run self start sets c d Hc Hd Hrows str Hstr _ start
              (dfa_start_set self start sets c d Hc Hd) Hclosed)
    as (y & S' & Hrun & HS' & Hpaths).
  exists (bool_decide (y ∈ dfa.accept_states d)). split.
  { unfold dfa.simulate. rewrite Hrun. reflexivity. }
  rewrite bool_decide_eq_true, (dfa_accepting self start sets c d Hc Hd y S' HS').
  unfold nfa_accepts. split.
  - intros (q & Hq & Hacc). exists q. split; [|exact Hacc].
    apply Hpaths in Hq as (p & Hp & Hpath).
    eapply nfa_path_eps_l; [|exact Hpath]. by apply Hstart_exact.
  - intros (q & Hpath & Hacc). exists q. split; [|exact Hacc].
    apply Hpaths. exists (nfa.start_state self). split; [|exact Hpath].
    apply Hstart_exact, rtc_refl.
Qed.

(** The theorem on the NFA of the regular expression [a] and the string
    [a]. *)
Lemma to_DFA_language_witness :
  ∃ b, dfa.simulate dfa_a (py "a") = Ok b ∧ (b = true ↔ nfa_accepts nfa_a (py "a")).
Proof.
  apply (to_DFA_language nfa_a 20 dfa_a (py "a")).
  - vm_compute. reflexivity.
  - constructor; [apply list_elem_of_here|constructor].
Defined.

(* ================================================================== *)
(** * The epsilon closure and the conversion *)
(* ================================================================== *)

(** X18.  The epsilon closure.  The loop of [_get_epsilon_closure] ends for
    every NFA and every state, and the set it returns holds exactly the
    states that epsilon steps reach from the state (the state itself
    among them, also when it has no row in the table). *)
Theorem get_epsilon_closure_reachable `{Countable K} (self : nfa.NFA K) (state : K) :
  ∃ fuel0 r,
    (∀ fuel, (fuel0 ≤ fuel)%nat → nfa._get_epsilon_closure self fuel state = Ok r) ∧
    ∀ q, q ∈ r ↔ eps_reach self state q.
Proof.
  destruct (get_epsilon_closure_total self state) as (fuel0 & r & Hr).
  exists fuel0, r. split; [exact Hr|].
  apply (get_epsilon_closure_exact self fuel0). apply Hr. lia.
Qed.

(** X19.  When [to_DFA] returns.  [NFA.to_DFA] returns a DFA (for every
    fuel that suffices for its loops) exactly when the alphabet of the
    NFA lists no symbol twice and its [accept_states] is not [None];
    with a repeated symbol, or with [accept_states] unset, no fuel makes
    it return one. *)
Theorem to_DFA_returns_iff_NoDup `{Countable K} (self : nfa.NFA K) :
  (∃ fuel0 d, ∀ fuel, (fuel0 ≤ fuel)%nat → nfa.to_DFA self fuel = Ok d) ↔
  NoDup (nfa.alphabet self) ∧ nfa.accept_states self ≠ None.
Proof.
  split.
  - intros (fuel0 & d & Hd). specialize (Hd fuel0 (le_n _)). split.
    + by apply (to_DFA_needs_NoDup self fuel0 d).
    + destruct (to_DFA_needs_accept_states self fuel0 d Hd) as [l ->]. discriminate.
  - intros [Hnd Hsome].
    assert (is_Some (nfa.accept_states self)) as Hsome'
      by (by destruct (nfa.accept_states self); [eexists|]).
    destruct (to_DFA_total self Hnd Hsome') as (fuel0 & start & c & d & Hrun).
    exists fuel0, d. intros fuel Hf. by apply Hrun.
Qed.

(* ================================================================== *)
(** * The table of an NFA read from a file *)
(* ================================================================== *)

(** X20.  Store and look up.  After [NFA._store_transition] has stored the
    record (state_from, transition_char, state_to), [_get_transition]
    returns for that pair the set it returned before with [state_to]
    added, and for every other pair the set it returned before. *)
Theorem nfa_store_transition_lookup `{Countable K} (self : nfa.NFA K)
    (state_from state_to : K) (transition_char : pystr) (state : K) (symbol : pystr) :
  nfa._get_transition
    (nfa.mkNFA (nfa.alphabet self) (nfa.number_of_states self)
       (nfa._store_transition (nfa.transition_function self)
          state_from state_to transition_char)
       (nfa.start_state self) (nfa.accept_states self))
    state symbol
  = if decide (state = state_from ∧ symbol = transition_char)
    then nfa._get_transition self state symbol ∪ {[ state_to ]}
    else nfa._get_transition self state symbol.
Proof.
  unfold nfa._get_transition, nfa._store_transition.
  cbn [nfa.transition_function].
  destruct (decide (state = state_from)) as [->|Hs].
  - destruct (decide (symbol = transition_char)) as [->|Hc].
    + rewrite decide_True by done.
      destruct (nfa.transition_function self !! state_from) as [row|] eqn:Hrow.
      * destruct (row !! transition_char) as [tgt|] eqn:Htgt;
          rewrite !lookup_insert_eq; cbn [default]; set_solver.
      * rewrite lookup_insert_eq, lookup_singleton_eq. cbn [default]. set_solver.
    + rewrite decide_False by tauto.
      assert (transition_char ≠ symbol) as Hc' by congruence.
      destruct (nfa.transition_function self !! state_from) as [row|] eqn:Hrow.
      * destruct (row !! transition_char) as [tgt|] eqn:Htgt;
          rewrite lookup_insert_eq, lookup_insert_ne by exact Hc'; reflexivity.
      * rewrite lookup_insert_eq, lookup_singleton_ne by exact Hc'. reflexivity.
  - rewrite decide_False by tauto.
    assert (state_from ≠ state) as Hs' by congruence.
    destruct (nfa.transition_function self !! state_from) as [row|];
      [destruct (row !! transition_char)|]; by rewrite lookup_insert_ne.
Qed.

Section NfaReaderErrors.
Variable isspace : N → bool.
Variable int : pystr → res Z.

Lemma extract_transitions_failure (file : list pystr) :
  ∀ td line,
    match nfa.extract_transitions isspace td line file with
    | Ok _ => True
    | Raise e => e = ValueError
    | NoFuel => False
    end.
Proof.
  induction file as [|l ls IH]; intros td line.
  - destruct line as [|c line]; [exact I|]. cbn [nfa.extract_transitions].
    by destruct (dfa.split isspace (c :: line)) as [|s [|ch [|t [|? ?]]]].
  - destruct line as [|c line]; [exact I|]. cbn [nfa.extract_transitions].
    destruct (dfa.split isspace (c :: line)) as [|s [|ch [|t [|? ?]]]]; try done.
    apply IH.
Qed.

(** X21.  What the NFA reader raises.  Reading an NFA description ends in
    the data of the automaton, in the [ValueError] of a record that does
    not split into three fields, or in what [int] raises on the first
    line; the reader checks neither states nor symbols. *)
Theorem read_nfa_failures (text : pystr) :
  match nfa._read_nfa_data_from_file isspace int text with
  | Ok _ => True
  | Raise e => e = ValueError ∨ ∃ s, int s = Raise e
  | NoFuel => ∃ s, int s = NoFuel
  end.
Proof.
  unfold nfa._read_nfa_data_from_file, nfa._extract_nfa_data_from_file.
  destruct (dfa.readline (dfa.lines_of text)) as [line1 f1].
  destruct (int (dfa.strip isspace line1)) as [n|e|] eqn:Hint;
    cbn [mbind res_bind]; [|eauto..].
  destruct (dfa.readline f1) as [line2 f2].
  destruct (dfa.readline f2) as [line3 f3].
  pose proof (extract_transitions_failure f3 ∅ (dfa.strip isspace line3)) as Hloop.
  destruct (nfa.extract_transitions isspace ∅ (dfa.strip isspace line3) f3)
    as [[td f4]|e|]; cbn [mbind res_bind]; [|by left|done].
  destruct (dfa.readline f4) as [line4 f5].
  destruct (dfa.readline f5) as [line5 f6]. exact I.
Qed.
End NfaReaderErrors.

(* ================================================================== *)
(** * What a call of [next_token] consumes *)
(* ================================================================== *)

(** The token value chosen among the candidates is one of them. *)
Lemma result_token_elem (acc : list lexer.TokenValue) (t : lexer.TokenValue) :
  result_token acc = Some t → t ∈ acc.
Proof.
  unfold result_token. pose proof (multiple_token_decider_spec acc) as Hdec.
  destruct acc as [|t1 [|t2 acc]]; intros Hres.
  - rewrite Hres in Hdec. by destruct Hdec.
  - injection Hres as <-. apply list_elem_of_here.
  - rewrite Hres in Hdec. by destruct Hdec.
Qed.

(** [next_token] in terms of the loop over the DFAs: the three outcomes
    of a call on a non-empty input. *)
Lemma next_token_unfold (data : pystr) (dfas : list (pystr * lexer.TokenValue)) :
  data ≠ [] →
  lexer.next_token (lexer.mkLex data dfas)
  = match lexer.analyze_loop data dfas [] 0 with
    | Ok (acc, fin) =>
        let rest := drop (Z.to_nat fin) data in
        let rest := match remove_char ch_space rest with [] => [] | _ => rest end in
        let outcome :=
          match result_token acc with
          | Some t => Ok (lexer.type t,
                          remove_char ch_space (take (Z.to_nat fin) data))
          | None => Raise InvalidToken
          end in
        (outcome, lexer.mkLex rest dfas)
    | Raise e => (Raise e, lexer.mkLex data dfas)
    | NoFuel => (NoFuel, lexer.mkLex data dfas)
    end.
Proof.
  intros Hdata. unfold lexer.next_token, lexer._analyze_input.
  cbn [lexer.source_file_data lexer.generated_dfas].
  destruct data as [|c data]; [done|].
  destruct (lexer.analyze_loop (c :: data) dfas [] 0) as [[acc fin]|e|];
    cbn [mbind res_bind]; try reflexivity.
  unfold result_token.
  destruct (match acc with
            | [token_value] => Some token_value
            | _ => lexer._multiple_token_decider acc
            end); destruct (remove_char ch_space (drop (Z.to_nat fin) (c :: data)));
    reflexivity.
Qed.

(** X22.  Progress.  A call of [next_token] that returns a token has
    consumed at least one character: the remaining input is strictly
    shorter, the value returned is not empty and holds no separator, the
    type returned is the type of one of the stored token values, and the
    stored DFAs are left as they were. *)
Theorem next_token_progress (lex : lexer.Lex) (ty v : pystr) :
  (lexer.next_token lex).1 = Ok (ty, v) →
  (length (lexer.source_file_data (lexer.next_token lex).2)
   < length (lexer.source_file_data lex))%nat ∧
  v ≠ [] ∧ (ch_space ∉ v) ∧
  (∃ t, t ∈ (lexer.generated_dfas lex).*2 ∧ ty = lexer.type t) ∧
  lexer.generated_dfas (lexer.next_token lex).2 = lexer.generated_dfas lex.
Proof.
  destruct lex as [data dfas]. cbn [lexer.source_file_data lexer.generated_dfas].
  destruct (decide (data = [])) as [->|Hdata]; [discriminate|].
  rewrite (next_token_unfold data dfas Hdata).
  pose proof (analyze_loop_candidates data dfas) as Hcand.
  destruct (lexer.analyze_loop data dfas [] 0) as [[acc fin]|e|]; try discriminate.
  cbn [fst snd lexer.source_file_data lexer.generated_dfas].
  destruct (result_token acc) as [t|] eqn:Hres; [|discriminate].
  intros [= <- <-]. apply result_token_elem in Hres.
  destruct (Hcand _ _ eq_refl) as [Hsub Hacc].
  destruct (scan_token_accepts_bounds data t fin (Hacc t Hres))
    as (Hfin & c & Hc & Hne).
  split; [|split; [|split; [|split]]].
  - assert (length (drop (Z.to_nat fin) data) < length data)%nat
      by (rewrite length_drop; lia).
    destruct (remove_char ch_space (drop (Z.to_nat fin) data)); [|done].
    cbn [length]. lia.
  - apply (remove_char_nonempty ch_space c); [|exact Hne].
    apply list_elem_of_lookup. exists (Z.to_nat (fin - 1)).
    rewrite lookup_take_lt by lia. exact Hc.
  - unfold remove_char. intros Hin.
    apply list_elem_of_In, List.filter_In in Hin as [_ Hin].
    by rewrite bool_decide_eq_true_2 in Hin.
  - exists t. split; [by apply Hsub|reflexivity].
  - reflexivity.
Qed.

(** The theorem on the source text [a a] with one token type [A "a"]. *)
Lemma next_token_progress_witness :
  (lexer.next_token
     (lexer.mkLex (py "a a") [(py "A", lexer.mkTokenValue dfa_a (py "A") 0)])).1
  = Ok (py "A", py "a") ∧
  (length (lexer.source_file_data
             (lexer.next_token
                (lexer.mkLex (py "a a")
                   [(py "A", lexer.mkTokenValue dfa_a (py "A") 0)])).2)
   < length (py "a a"))%nat.
Proof.
  split; [vm_compute; reflexivity|].
  apply (next_token_progress
           (lexer.mkLex (py "a a") [(py "A", lexer.mkTokenValue dfa_a (py "A") 0)])
           (py "A") (py "a")).
  vm_compute. reflexivity.
Defined.

(** [EOFError] is the outcome of the empty input and of no other. *)
Lemma next_token_EOFError_iff (lex : lexer.Lex) :
  (lexer.next_token lex).1 = Raise EOFError ↔ lexer.source_file_data lex = [].
Proof.
  destruct lex as [data dfas]. cbn [lexer.source_file_data]. split.
  - intros Heof. destruct (decide (data = [])) as [->|Hdata]; [reflexivity|].
    rewrite (next_token_unfold data dfas Hdata) in Heof.
    pose proof (analyze_loop_outcome data dfas [] 0) as Ho.
    destruct (lexer.analyze_loop data dfas [] 0) as [[acc fin]|e|]; [|..|done].
    + cbn [fst] in Heof. by destruct (result_token acc).
    + destruct Ho as [-> _]. discriminate.
  - intros ->. reflexivity.
Qed.

(** X23.  Exceptions.  [next_token] ends in a token, in [EOFError], in
    [InvalidToken] or in the [KeyError] of a missing table entry, and in
    nothing else; [EOFError] is raised exactly on the empty input; and
    a call that ends in [EOFError] or [KeyError] leaves the object as it
    was. *)
Theorem next_token_exceptions (lex : lexer.Lex) :
  match (lexer.next_token lex).1 with
  | Ok _ => lexer.source_file_data lex ≠ []
  | Raise e =>
      (e = EOFError ∧ lexer.source_file_data lex = [] ∧ (lexer.next_token lex).2 = lex) ∨
      (e = KeyError ∧ lexer.source_file_data lex ≠ [] ∧ (lexer.next_token lex).2 = lex) ∨
      (e = InvalidToken ∧ lexer.source_file_data lex ≠ [])
  | NoFuel => False
  end.
Proof.
  destruct lex as [data dfas]. cbn [lexer.source_file_data].
  destruct (decide (data = [])) as [->|Hdata].
  { left. done. }
  rewrite (next_token_unfold data dfas Hdata).
  pose proof (analyze_loop_outcome data dfas [] 0) as Ho.
  destruct (lexer.analyze_loop data dfas [] 0) as [[acc fin]|e|]; [|..|done].
  - cbn [fst snd]. destruct (result_token acc); [exact Hdata|].
    right. right. done.
  - destruct Ho as [-> _]. right. left. done.
Qed.

(** X24.  End of input.  After a call that returned a token or raised
    [InvalidToken], the remaining input is empty or holds a character
    that is no separator; the next call therefore raises [EOFError]
    exactly when nothing but separators is left. *)
Theorem next_token_then_EOFError (lex : lexer.Lex) :
  (∃ tok, (lexer.next_token lex).1 = Ok tok) ∨
  (lexer.next_token lex).1 = Raise InvalidToken →
  (lexer.source_file_data (lexer.next_token lex).2 = [] ∨
   remove_char ch_space (lexer.source_file_data (lexer.next_token lex).2) ≠ []) ∧
  ((lexer.next_token (lexer.next_token lex).2).1 = Raise EOFError ↔
   remove_char ch_space (lexer.source_file_data (lexer.next_token lex).2) = []).
Proof.
  intros Hcall.
  assert (lexer.source_file_data (lexer.next_token lex).2 = [] ∨
          remove_char ch_space (lexer.source_file_data (lexer.next_token lex).2) ≠ [])
    as Hnorm.
  { destruct lex as [data dfas].
    destruct (decide (data = [])) as [->|Hdata].
    { destruct Hcall as [[tok Hc]|Hc]; discriminate. }
    rewrite (next_token_unfold data dfas Hdata) in *.
    pose proof (analyze_loop_outcome data dfas [] 0) as Ho.
    destruct (lexer.analyze_loop data dfas [] 0) as [[acc fin]|e|]; [|..|done].
    - cbn [fst snd lexer.source_file_data].
      destruct (remove_char ch_space (drop (Z.to_nat fin) data)) eqn:Hrem;
        [by left|right]. by rewrite Hrem.
    - destruct Ho as [-> _].
      destruct Hcall as [[tok Hc]|Hc]; discriminate. }
  split; [exact Hnorm|].
  rewrite next_token_EOFError_iff. split.
  - intros ->. reflexivity.
  - intros Hrem. destruct Hnorm as [Hnil|Hne]; done.
Qed.

(** The theorem on the source text [a] followed by two spaces. *)
Lemma next_token_then_EOFError_witness :
  (lexer.next_token
     (lexer.next_token
        (lexer.mkLex (py "a  ") [(py "A", lexer.mkTokenValue dfa_a (py "A") 0)])).2).1
  = Raise EOFError.
Proof.
  apply (next_token_then_EOFError
           (lexer.mkLex (py "a  ") [(py "A", lexer.mkTokenValue dfa_a (py "A") 0)])).
  - left. exists (py "A", py "a"). vm_compute. reflexivity.
  - vm_compute. reflexivity.
Defined.

(* ------------------------------------------------------------------ *)
(** ** Separators in front of a token *)

Lemma scan_shift (d : dfa.DFA Z) (k : Z) (input : pystr) :
  ∀ (i curr longest : Z) (reached : bool),
    lexer.scan d input (i + k) curr (if reached then longest + k else longest) reached
    = shift_scan k (lexer.scan d input i curr longest reached).
Proof.
  induction input as [|ch input IH]; intros i curr longest reached.
  - cbn [lexer.scan shift_scan]. by destruct reached.
  - cbn [lexer.scan].
    replace (i + k + 1) with (i + 1 + k) by lia.
    destruct (bool_decide (ch = ch_space)).
    + destruct reached; [reflexivity|]. apply (IH (i + 1) curr longest false).
    + destruct (dfa.transition d curr [ch]) as [next| |]; cbn [mbind res_bind];
        try reflexivity.
      destruct (bool_decide (next = 1)); [by destruct reached|].
      destruct (bool_decide (next ∈ dfa.accept_states d)).
      * apply (IH (i + 1) next (i + 1) true).
      * apply IH.
Qed.

Lemma scan_skip_spaces (d : dfa.DFA Z) (n : nat) (input : pystr) :
  ∀ i curr longest,
    lexer.scan d (replicate n ch_space ++ input) i curr longest false
    = lexer.scan d input (i + Z.of_nat n) curr longest false.
Proof.
  induction n as [|n IH]; intros i curr longest.
  - cbn [replicate app]. by replace (i + Z.of_nat 0) with i by lia.
  - cbn [replicate app lexer.scan]. rewrite bool_decide_eq_true_2 by reflexivity.
    rewrite IH. f_equal. lia.
Qed.

Lemma scan_token_skip_spaces (n : nat) (input : pystr) (tv : lexer.TokenValue) :
  scan_token (replicate n ch_space ++ input) tv
  = shift_scan (Z.of_nat n) (scan_token input tv).
Proof.
  unfold scan_token. rewrite scan_skip_spaces.
  apply (scan_shift _ (Z.of_nat n) input 0 _ 0 false).
Qed.

Lemma analyze_loop_skip_spaces (n : nat) (input : pystr)
    (dfas : list (pystr * lexer.TokenValue)) :
  ∀ acc fin, 0 ≤ fin →
    lexer.analyze_loop (replicate n ch_space ++ input) dfas acc (shift_len n fin)
    = match lexer.analyze_loop input dfas acc fin with
      | Ok (acc', fin') => Ok (acc', shift_len n fin')
      | Raise e => Raise e
      | NoFuel => NoFuel
      end.
Proof.
  induction dfas as [|[ty tv] dfas IH]; intros acc fin Hfin; [reflexivity|].
  cbn [lexer.analyze_loop].
  fold (scan_token (replicate n ch_space ++ input) tv). fold (scan_token input tv).
  rewrite scan_token_skip_spaces.
  pose proof (scan_token_accepts_bounds input tv) as Hb.
  destruct (scan_token input tv) as [[l reached]| |]; cbn [shift_scan];
    try reflexivity.
  destruct reached; cbn [mbind res_bind]; [|by apply IH].
  destruct (Hb l eq_refl) as [Hl _].
  assert (shift_len n l = l + Z.of_nat n) as Hsl.
  { unfold shift_len. rewrite bool_decide_eq_true_2 by lia. reflexivity. }
  destruct (decide (fin < l)) as [Hlt|Hge].
  - rewrite (bool_decide_eq_true_2 (fin < l)) by exact Hlt.
    rewrite bool_decide_eq_true_2.
    + rewrite <- Hsl. apply IH. lia.
    + unfold shift_len. case_bool_decide; lia.
  - rewrite (bool_decide_eq_false_2 (fin < l)) by exact Hge.
    rewrite bool_decide_eq_false_2.
    2:{ unfold shift_len. case_bool_decide; lia. }
    destruct (decide (l = fin)) as [->|Hne].
    + rewrite (bool_decide_eq_true_2 (fin = fin)) by reflexivity.
      rewrite bool_decide_eq_true_2 by (symmetry; exact Hsl).
      rewrite <- Hsl. apply IH. lia.
    + rewrite (bool_decide_eq_false_2 (l = fin)) by exact Hne.
      rewrite bool_decide_eq_false_2; [by apply IH|].
      unfold shift_len. case_bool_decide; lia.
Qed.

Lemma remove_char_app (c : N) (s t : pystr) :
  remove_char c (s ++ t) = remove_char c s ++ remove_char c t.
Proof. unfold remove_char. apply List.filter_app. Qed.

(** X25.  Leading separators.  Spaces in front of a non-empty input do not
    change the outcome of [next_token], and when the call returns a token
    they do not change the input that is left either. *)
Theorem next_token_leading_spaces (n : nat) (data : pystr)
    (dfas : list (pystr * lexer.TokenValue)) :
  data ≠ [] →
  (lexer.next_token (lexer.mkLex (replicate n ch_space ++ data) dfas)).1
  = (lexer.next_token (lexer.mkLex data dfas)).1 ∧
  (∀ tok, (lexer.next_token (lexer.mkLex data dfas)).1 = Ok tok →
          (lexer.next_token (lexer.mkLex (replicate n ch_space ++ data) dfas)).2
          = (lexer.next_token (lexer.mkLex data dfas)).2).
Proof.
  intros Hdata.
  assert (replicate n ch_space ++ data ≠ []) as Hdata'.
  { intros Hnil. apply app_eq_nil in Hnil as [_ ?]. done. }
  rewrite (next_token_unfold _ dfas Hdata'), (next_token_unfold _ dfas Hdata).
  pose proof (analyze_loop_skip_spaces n data dfas [] 0 (Z.le_refl 0)) as Hshift.
  change (shift_len n 0) with 0 in Hshift. rewrite Hshift.
  pose proof (analyze_loop_candidates data dfas) as Hcand.
  destruct (lexer.analyze_loop data dfas [] 0) as [[acc fin]|e|];
    [|split; [reflexivity|discriminate]..].
  cbn [fst snd].
  destruct (result_token acc) as [t|] eqn:Hres; [|split; [reflexivity|discriminate]].
  apply result_token_elem in Hres. destruct (Hcand _ _ eq_refl) as [_ Hacc].
  destruct (scan_token_accepts_bounds data t fin (Hacc t Hres)) as [Hfin _].
  assert (Z.to_nat (shift_len n fin) = (n + Z.to_nat fin)%nat) as Hlen.
  { unfold shift_len. rewrite bool_decide_eq_true_2 by lia. lia. }
  assert (take (n + Z.to_nat fin) (replicate n ch_space ++ data)
          = replicate n ch_space ++ take (Z.to_nat fin) data) as Htake.
  { rewrite take_app_add'; [reflexivity|by rewrite length_replicate]. }
  assert (drop (n + Z.to_nat fin) (replicate n ch_space ++ data)
          = drop (Z.to_nat fin) data) as Hdrop.
  { rewrite drop_app_add'; [reflexivity|by rewrite length_replicate]. }
  cbv zeta. rewrite Hlen, Htake, Hdrop.
  rewrite remove_char_app, remove_char_replicate. split; [reflexivity|].
  intros tok _. reflexivity.
Qed.

(** The theorem on three spaces in front of the source text [a a]. *)
Lemma next_token_leading_spaces_witness :
  (lexer.next_token
     (lexer.mkLex (py "   a a") [(py "A", lexer.mkTokenValue dfa_a (py "A") 0)])).1
  = Ok (py "A", py "a").
Proof.
  refine (eq_trans (proj1 (next_token_leading_spaces 3 (py "a a")
            [(py "A", lexer.mkTokenValue dfa_a (py "A") 0)] _)) _).
  - discriminate.
  - vm_compute. reflexivity.
Defined.

(* ------------------------------------------------------------------ *)
(** ** DFAs with a total table *)

(** What [NFA.to_DFA] returns has a total table. *)
Lemma to_DFA_total_dfa `{Countable K} (self : nfa.NFA K) (fuel : nat) (d : dfa.DFA Z) :
  nfa.to_DFA self fuel = Ok d → total_dfa d.
Proof.
  intros Hto. destruct (to_DFA_sound self fuel d Hto)
    as (start & sets & c & _ & _ & Hspec & Hd).
  split; [by eapply dfa_start_in_range|].
  intros q symbol Hq Hs. rewrite (ds_alphabet _ _ _ _ Hd) in Hs.
  by eapply dfa_total.
Qed.

Lemma scan_total (d : dfa.DFA Z) (input : pystr) :
  total_dfa d →
  (∀ c, c ∈ input → c ≠ ch_space → [c] ∈ dfa.alphabet d) →
  ∀ i curr longest reached, 1 ≤ curr ≤ dfa.number_of_states d →
    ∃ r, lexer.scan d input i curr longest reached = Ok r.
Proof.
  intros [_ Htot]. induction input as [|ch input IH];
    intros Hin i curr longest reached Hcurr; [by eexists|].
  cbn [lexer.scan].
  assert (∀ c, c ∈ input → c ≠ ch_space → [c] ∈ dfa.alphabet d) as Hin'.
  { intros c Hc. apply Hin. by apply list_elem_of_further. }
  destruct (decide (ch = ch_space)) as [Hsp|Hsp].
  - rewrite bool_decide_eq_true_2 by exact Hsp.
    destruct reached; [by eexists|by apply IH].
  - rewrite bool_decide_eq_false_2 by exact Hsp.
    destruct (Htot curr [ch] Hcurr) as (t & -> & Ht).
    { apply Hin; [apply list_elem_of_here|exact Hsp]. }
    cbn [mbind res_bind]. destruct (bool_decide (t = 1)); [by eexists|].
    destruct (bool_decide (t ∈ dfa.accept_states d)); by apply IH.
Qed.

(** X26.  No [KeyError].  When the table of every stored DFA is total (as
    the tables [NFA.to_DFA] builds are) and every character of the input
    other than the separator is in the alphabet of every stored DFA,
    [next_token] returns a token or raises [EOFError] or [InvalidToken]:
    no lookup fails. *)
Theorem next_token_no_KeyError (lex : lexer.Lex) :
  (∀ tv, tv ∈ (lexer.generated_dfas lex).*2 →
     total_dfa (lexer.dfa tv) ∧
     ∀ c, c ∈ lexer.source_file_data lex → c ≠ ch_space →
          [c] ∈ dfa.alphabet (lexer.dfa tv)) →
  (∃ tok, (lexer.next_token lex).1 = Ok tok) ∨
  (lexer.next_token lex).1 = Raise EOFError ∨
  (lexer.next_token lex).1 = Raise InvalidToken.
Proof.
  intros Hdfas.
  destruct lex as [data dfas]. cbn [lexer.source_file_data lexer.generated_dfas] in *.
  destruct (decide (data = [])) as [->|Hdata]; [right; left; reflexivity|].
  rewrite (next_token_unfold data dfas Hdata) in *.
  pose proof (analyze_loop_outcome data dfas [] 0) as Ho.
  destruct (lexer.analyze_loop data dfas [] 0) as [[acc fin]|e|]; [|..|done].
  - cbn [fst]. destruct (result_token acc); [left; by eexists|right; right; done].
  - destruct Ho as [_ Ho]. apply Exists_exists in Ho as (tv & Htv & Hraise).
    destruct (Hdfas tv Htv) as [Htot Hin].
    destruct (scan_total (lexer.dfa tv) data Htot Hin 0
                (dfa.start_state (lexer.dfa tv)) 0 false (proj1 Htot)) as [r Hr].
    unfold scan_token in Hraise. congruence.
Qed.

(** The theorem on the DFA of the regular expression [a] and the source
    text [a a]. *)
Lemma next_token_no_KeyError_witness :
  (∃ tok, (lexer.next_token
             (lexer.mkLex (py "a a")
                [(py "A", lexer.mkTokenValue dfa_a (py "A") 0)])).1 = Ok tok) ∨
  (lexer.next_token
     (lexer.mkLex (py "a a") [(py "A", lexer.mkTokenValue dfa_a (py "A") 0)])).1
  = Raise EOFError ∨
  (lexer.next_token
     (lexer.mkLex (py "a a") [(py "A", lexer.mkTokenValue dfa_a (py "A") 0)])).1
  = Raise InvalidToken.
Proof.
  apply (next_token_no_KeyError
           (lexer.mkLex (py "a a") [(py "A", lexer.mkTokenValue dfa_a (py "A") 0)])).
  intros tv Htv. apply list_elem_of_singleton in Htv as ->.
  cbn [lexer.dfa lexer.source_file_data]. split.
  - apply (to_DFA_total_dfa nfa_a 20). vm_compute. reflexivity.
  - intros c Hc Hne. vm_compute in Hc.
    apply elem_of_cons in Hc as [->|Hc]; [apply list_elem_of_here|].
    apply elem_of_cons in Hc as [->|Hc]; [done|].
    apply list_elem_of_singleton in Hc as ->. apply list_elem_of_here.
Defined.

(** X27.  The longest match.  When [next_token] returns a token, its type
    is the type of a stored token value whose scan reports an accept
    state, its value is the input up to the length [fin] that scan
    reports, without the separators, what is left of the input starts
    at [fin], and the scan of no stored DFA reports an accept state at a
    greater length. *)
Theorem next_token_longest_match (lex : lexer.Lex) (ty v : pystr) :
  (lexer.next_token lex).1 = Ok (ty, v) →
  ∃ t fin,
    t ∈ (lexer.generated_dfas lex).*2 ∧ ty = lexer.type t ∧
    scan_token (lexer.source_file_data lex) t = Ok (fin, true) ∧
    v = remove_char ch_space (take (Z.to_nat fin) (lexer.source_file_data lex)) ∧
    (lexer.source_file_data (lexer.next_token lex).2
     = drop (Z.to_nat fin) (lexer.source_file_data lex) ∨
     lexer.source_file_data (lexer.next_token lex).2 = [] ∧
     remove_char ch_space (drop (Z.to_nat fin) (lexer.source_file_data lex)) = []) ∧
    ∀ tv l, tv ∈ (lexer.generated_dfas lex).*2 →
            scan_token (lexer.source_file_data lex) tv = Ok (l, true) → l ≤ fin.
Proof.
  destruct lex as [data dfas]. cbn [lexer.source_file_data lexer.generated_dfas].
  destruct (decide (data = [])) as [->|Hdata]; [discriminate|].
  rewrite (next_token_unfold data dfas Hdata).
  pose proof (analyze_loop_candidates data dfas) as Hcand.
  pose proof (analyze_loop_spec data dfas [] 0) as Hspec.
  destruct (lexer.analyze_loop data dfas [] 0) as [[acc fin]|e|]; try discriminate.
  cbn [fst snd lexer.source_file_data].
  destruct (result_token acc) as [t|] eqn:Hres; [|discriminate].
  intros [= <- <-]. apply result_token_elem in Hres.
  destruct (Hcand _ _ eq_refl) as [Hsub Hacc].
  destruct (Hspec _ _ eq_refl) as (_ & Hmax & _).
  exists t, fin. split; [by apply Hsub|]. split; [reflexivity|].
  split; [by apply Hacc|]. split; [reflexivity|]. split; [|exact Hmax].
  destruct (remove_char ch_space (drop (Z.to_nat fin) data)); [by right|by left].
Qed.

(** The theorem on the token type [A] of the regular expression [a] and
    the source text [a a]. *)
Lemma next_token_longest_match_witness :
  ∃ t fin,
    t ∈ [lexer.mkTokenValue dfa_a (py "A") 0] ∧
    scan_token (py "a a") t = Ok (fin, true) ∧
    ∀ tv l, tv ∈ [lexer.mkTokenValue dfa_a (py "A") 0] →
            scan_token (py "a a") tv = Ok (l, true) → l ≤ fin.
Proof.
  destruct (next_token_longest_match
              (lexer.mkLex (py "a a") [(py "A", lexer.mkTokenValue dfa_a (py "A") 0)])
              (py "A") (py "a")) as (t & fin & Ht & _ & Hscan & _ & _ & Hmax).
  - vm_compute. reflexivity.
  - exists t, fin. split; [exact Ht|]. split; [exact Hscan|exact Hmax].
Defined.

(* ================================================================== *)
(** * The languages of the automata of [tree.py] *)
(* ================================================================== *)

Section Steps.
Context `{Countable K}.
Variable self : nfa.NFA K.

Lemma eps_reach_steps (p p' : K) (str : pystr) (q : K) :
  eps_reach self p p' → nfa_steps self p' str q → nfa_steps self p str q.
Proof.
  induction 1 as [|x y z Hstep _ IH]; intros Hq; [exact Hq|].
  eapply steps_eps; [exact Hstep|by apply IH].
Qed.

Lemma nfa_path_steps (p : K) (str : pystr) (q : K) :
  nfa_path self p str q ↔ nfa_steps self p str q.
Proof.
  split.
  - induction 1 as [p q Hreach|p p1 p2 ch str q Hreach Hp2 _ IH].
    + eapply eps_reach_steps; [exact Hreach|apply steps_done].
    + eapply eps_reach_steps; [exact Hreach|]. by eapply steps_read.
  - induction 1 as [p|p p' str q Hstep _ IH|p p' ch str q Hp' _ IH].
    + apply path_stop, rtc_refl.
    + destruct IH as [p' q Hreach|p' p1 p2 ch str q Hreach Hp2 Hrest].
      * apply path_stop. by eapply rtc_l.
      * eapply path_read; [|exact Hp2|exact Hrest]. by eapply rtc_l.
    + eapply path_read; [apply rtc_refl|exact Hp'|exact IH].
Qed.

Lemma nfa_accepts_steps (str : pystr) :
  nfa_accepts self str ↔
  ∃ q, nfa_steps self (nfa.start_state self) str q ∧ accept_state self q.
Proof.
  unfold nfa_accepts. split; intros (q & Hq & Hacc); exists q;
    (split; [by apply nfa_path_steps|exact Hacc]).
Qed.
End Steps.

Section Thompson.
Variable alphabet : list pystr.

Lemma get_transition_simple (X : tree.SimpleNFA) (p : Z) (symbol : pystr) :
  nfa._get_transition (regex._finalize_simple_nfa alphabet X) p symbol
  = match tree.transition_function X !! p with
    | Some row => default ∅ (row !! symbol)
    | None => ∅
    end.
Proof. reflexivity. Qed.

Lemma get_transition_no_row (X : tree.SimpleNFA) (p : Z) (symbol : pystr) :
  tree.transition_function X !! p = None →
  nfa._get_transition (regex._finalize_simple_nfa alphabet X) p symbol = ∅.
Proof. intros Hrow. by rewrite get_transition_simple, Hrow. Qed.

Lemma get_transition_within (last : Z) (X : tree.SimpleNFA) (p q : Z) (symbol : pystr) :
  states_within last X →
  q ∈ nfa._get_transition (regex._finalize_simple_nfa alphabet X) p symbol →
  in_range last X p ∧ in_range last X q ∧ is_Some (tree.transition_function X !! p).
Proof.
  intros (_ & _ & Htf) Hq. rewrite get_transition_simple in Hq.
  destruct (tree.transition_function X !! p) as [row|] eqn:Hrow;
    [|by apply elem_of_empty in Hq].
  destruct (Htf p row Hrow) as [Hp Htargets].
  destruct (row !! symbol) as [tgt|] eqn:Htgt; [|by apply elem_of_empty in Hq].
  split; [exact Hp|]. split; [by eapply Htargets|by eexists].
Qed.

(** An automaton [Y] whose table agrees with that of [X] on a set of
    states that the transitions of [X] do not leave has, from these
    states, the paths of [X]. *)
Lemma steps_embed (X Y : tree.SimpleNFA) (A : Z → Prop) :
  (∀ p symbol, A p →
     nfa._get_transition (regex._finalize_simple_nfa alphabet Y) p symbol
     = nfa._get_transition (regex._finalize_simple_nfa alphabet X) p symbol) →
  (∀ p symbol q,
     A p → q ∈ nfa._get_transition (regex._finalize_simple_nfa alphabet X) p symbol → A q) →
  ∀ p str q, A p →
    (nfa_steps (regex._finalize_simple_nfa alphabet X) p str q ↔
     nfa_steps (regex._finalize_simple_nfa alphabet Y) p str q) ∧
    (nfa_steps (regex._finalize_simple_nfa alphabet X) p str q → A q).
Proof.
  intros Hagree Hclosed p str q Hp. split; [split|].
  - induction 1 as [p|p p' str q Hstep _ IH|p p' ch str q Hp' _ IH].
    + apply steps_done.
    + eapply steps_eps; [unfold eps_step; rewrite Hagree by exact Hp; exact Hstep|].
      apply IH. by eapply Hclosed.
    + eapply steps_read; [rewrite Hagree by exact Hp; exact Hp'|].
      apply IH. by eapply Hclosed.
  - induction 1 as [p|p p' str q Hstep _ IH|p p' ch str q Hp' _ IH].
    + apply steps_done.
    + unfold eps_step in Hstep. rewrite Hagree in Hstep by exact Hp.
      eapply steps_eps; [exact Hstep|]. apply IH. by eapply Hclosed.
    + rewrite Hagree in Hp' by exact Hp.
      eapply steps_read; [exact Hp'|]. apply IH. by eapply Hclosed.
  - induction 1 as [p|p p' str q Hstep _ IH|p p' ch str q Hp' _ IH].
    + exact Hp.
    + apply IH. by eapply Hclosed.
    + apply IH. by eapply Hclosed.
Qed.

(** From a state whose row is a single entry under ['e'], a path that
    reads no [e] stops at once or goes on from one of the targets. *)
Lemma steps_from_eps_row (Y : tree.SimpleNFA) (p : Z) (targets : gset Z)
    (str : pystr) (q : Z) :
  tree.transition_function Y !! p = Some {[ s_e := targets ]} →
  ch_e ∉ str →
  (nfa_steps (regex._finalize_simple_nfa alphabet Y) p str q ↔
   (str = [] ∧ q = p) ∨
   ∃ y, y ∈ targets ∧ nfa_steps (regex._finalize_simple_nfa alphabet Y) y str q).
Proof.
  intros Hrow Hstr. split.
  - intros Hsteps. inversion Hsteps as [|? p' ? ? Hstep Hrest|? p' ch ? ? Hp' Hrest];
      subst.
    + by left.
    + right. exists p'. split; [|exact Hrest].
      unfold eps_step in Hstep. rewrite get_transition_simple, Hrow in Hstep.
      by rewrite lookup_singleton_eq in Hstep.
    + rewrite get_transition_simple, Hrow in Hp'.
      rewrite lookup_singleton_ne in Hp'; [by apply elem_of_empty in Hp'|].
      intros [= Heq]. apply Hstr. rewrite <- Heq. apply list_elem_of_here.
  - intros [[-> ->]|(y & Hy & Hrest)]; [apply steps_done|].
    eapply steps_eps; [|exact Hrest].
    unfold eps_step. rewrite get_transition_simple, Hrow.
    by rewrite lookup_singleton_eq.
Qed.

Lemma simple_accepts_steps (X : tree.SimpleNFA) (str : pystr) :
  nfa_accepts (regex._finalize_simple_nfa alphabet X) str ↔
  ∃ q, nfa_steps (regex._finalize_simple_nfa alphabet X) (tree.start_state X) str q ∧
       q ∈ tree.accept_states X.
Proof.
  rewrite nfa_accepts_steps. unfold accept_state.
  cbn [regex._finalize_simple_nfa nfa.start_state nfa.accept_states].
  split; intros (q & Hsteps & Hq); exists q; (split; [exact Hsteps|]).
  - by destruct Hq as (l & [= <-] & Hq).
  - by exists (tree.accept_states X).
Qed.

Lemma steps_no_row (X : tree.SimpleNFA) (p : Z) (str : pystr) (q : Z) :
  tree.transition_function X !! p = None →
  nfa_steps (regex._finalize_simple_nfa alphabet X) p str q → str = [] ∧ q = p.
Proof.
  intros Hrow Hsteps.
  inversion Hsteps as [|? p' ? ? Hstep Hrest|? p' ch ? ? Hp' Hrest]; subst.
  - done.
  - unfold eps_step in Hstep. rewrite get_transition_no_row in Hstep by exact Hrow.
    by apply elem_of_empty in Hstep.
  - rewrite get_transition_no_row in Hp' by exact Hrow.
    by apply elem_of_empty in Hp'.
Qed.

(** ** The three automata without operands *)

(** X28.  The automata without operands.  The automaton of a symbol
    other than [e] accepts the one-character string of that symbol and
    nothing else (nothing at all when the symbol is not one character
    long); the automaton of [e] accepts the empty string only; the
    automaton of [N] accepts nothing. *)
Theorem base_automata_language (node : tree.Node) (last : Z) (str : pystr) :
  (tree.value node ≠ s_e →
   (nfa_accepts (regex._finalize_simple_nfa alphabet (tree.base_node_to_nfa node last))
                str ↔
    str = tree.value node ∧ length str = 1%nat)) ∧
  (nfa_accepts (regex._finalize_simple_nfa alphabet (tree.epsilon_node_to_nfa last)) str ↔
   str = []) ∧
  ¬ nfa_accepts (regex._finalize_simple_nfa alphabet (tree.empty_set_to_nfa last)) str.
Proof.
  split; [|split].
  - intros Hsym. rewrite simple_accepts_steps.
    cbn [tree.base_node_to_nfa tree.start_state tree.accept_states].
    assert (tree.transition_function (tree.base_node_to_nfa node last) !! (last + 1)
            = Some {[ tree.value node := {[ last + 2 ]} ]}) as Hrow1
      by (cbn; apply lookup_singleton_eq).
    assert (tree.transition_function (tree.base_node_to_nfa node last) !! (last + 2)
            = None) as Hrow2 by (cbn; apply lookup_singleton_ne; lia).
    split.
    + intros (q & Hsteps & Hq). apply list_elem_of_singleton in Hq. subst q.
      inversion Hsteps as [|? p' ? ? Hstep Hrest|? p' ch rest ? Hp' Hrest]; subst.
      * lia.
      * unfold eps_step in Hstep. rewrite get_transition_simple, Hrow1 in Hstep.
        rewrite lookup_singleton_ne in Hstep by exact Hsym.
        by apply elem_of_empty in Hstep.
      * rewrite get_transition_simple, Hrow1 in Hp'.
        destruct (decide (tree.value node = [ch])) as [Heq|Hne].
        -- rewrite Heq, lookup_singleton_eq in Hp'. cbn [default from_option id] in Hp'.
           apply elem_of_singleton in Hp'.
           subst p'. apply steps_no_row in Hrest as [-> _]; [|exact Hrow2].
           by rewrite Heq.
        -- rewrite lookup_singleton_ne in Hp' by exact Hne.
           by apply elem_of_empty in Hp'.
    + intros [Hstr Hlen]. destruct str as [|ch [|? ?]]; try discriminate.
      exists (last + 2). split; [|apply list_elem_of_here].
      eapply steps_read; [|apply steps_done].
      rewrite get_transition_simple, Hrow1, <- Hstr, lookup_singleton_eq.
      by apply elem_of_singleton.
  - rewrite simple_accepts_steps.
    cbn [tree.epsilon_node_to_nfa tree.start_state tree.accept_states]. split.
    + intros (q & Hsteps & _). by apply steps_no_row in Hsteps as [-> _].
    + intros ->. exists (last + 1). split; [apply steps_done|apply list_elem_of_here].
  - rewrite simple_accepts_steps. intros (q & _ & Hq).
    cbn [tree.empty_set_to_nfa tree.accept_states] in Hq.
    by apply elem_of_nil in Hq.
Qed.

(** ** Union *)

Lemma in_range_closed (last : Z) (X : tree.SimpleNFA) (p : Z) (symbol : pystr) (q : Z) :
  states_within last X →
  q ∈ nfa._get_transition (regex._finalize_simple_nfa alphabet X) p symbol →
  in_range last X q.
Proof.
  intros HX Hq. by destruct (get_transition_within _ _ _ _ _ HX Hq) as (_ & ? & _).
Qed.

Lemma no_row_outside (last : Z) (X : tree.SimpleNFA) (p : Z) :
  states_within last X → ¬ in_range last X p →
  tree.transition_function X !! p = None.
Proof.
  intros (_ & _ & Htf) Hp.
  destruct (tree.transition_function X !! p) as [row|] eqn:Hrow; [|reflexivity].
  destruct (Htf p row Hrow) as [? _]. by destruct Hp.
Qed.

Section Union.
Variables (last : Z) (l r : tree.SimpleNFA).
Hypothesis Hl : states_within last l.
Hypothesis Hr : states_within (tree.last_state l) r.

Lemma union_agrees_left (p : Z) (symbol : pystr) :
  in_range last l p →
  nfa._get_transition (regex._finalize_simple_nfa alphabet (tree.union_to_nfa l r))
                      p symbol
  = nfa._get_transition (regex._finalize_simple_nfa alphabet l) p symbol.
Proof.
  intros [Hp1 Hp2]. rewrite !get_transition_simple.
  destruct Hr as ([? ?] & _ & _).
  cbn [tree.union_to_nfa tree.transition_function].
  rewrite lookup_insert_ne by lia. unfold tree.update2.
  rewrite lookup_union_r; [reflexivity|].
  apply (no_row_outside _ _ _ Hr). unfold in_range. lia.
Qed.

Lemma union_agrees_right (p : Z) (symbol : pystr) :
  in_range (tree.last_state l) r p →
  nfa._get_transition (regex._finalize_simple_nfa alphabet (tree.union_to_nfa l r))
                      p symbol
  = nfa._get_transition (regex._finalize_simple_nfa alphabet r) p symbol.
Proof.
  intros [Hp1 Hp2]. rewrite !get_transition_simple.
  cbn [tree.union_to_nfa tree.transition_function].
  rewrite lookup_insert_ne by lia. unfold tree.update2.
  destruct (tree.transition_function r !! p) as [row|] eqn:Hrow.
  - by rewrite (lookup_union_Some_l _ _ _ _ Hrow).
  - rewrite lookup_union_r by exact Hrow.
    rewrite (no_row_outside _ _ _ Hl); [reflexivity|]. unfold in_range. lia.
Qed.

Lemma union_steps_left (p : Z) (str : pystr) (q : Z) :
  in_range last l p →
  (nfa_steps (regex._finalize_simple_nfa alphabet l) p str q ↔
   nfa_steps (regex._finalize_simple_nfa alphabet (tree.union_to_nfa l r)) p str q) ∧
  (nfa_steps (regex._finalize_simple_nfa alphabet l) p str q → in_range last l q).
Proof.
  apply (steps_embed l (tree.union_to_nfa l r) (in_range last l)).
  - intros; by apply union_agrees_left.
  - intros p0 symbol q0 _ Hq0. by eapply in_range_closed.
Qed.

Lemma union_steps_right (p : Z) (str : pystr) (q : Z) :
  in_range (tree.last_state l) r p →
  (nfa_steps (regex._finalize_simple_nfa alphabet r) p str q ↔
   nfa_steps (regex._finalize_simple_nfa alphabet (tree.union_to_nfa l r)) p str q) ∧
  (nfa_steps (regex._finalize_simple_nfa alphabet r) p str q →
   in_range (tree.last_state l) r q).
Proof.
  apply (steps_embed r (tree.union_to_nfa l r) (in_range (tree.last_state l) r)).
  - intros; by apply union_agrees_right.
  - intros p0 symbol q0 _ Hq0. by eapply in_range_closed.
Qed.
End Union.

(** X29.  The language of a union.  When the states of the right
    automaton are numbered after those of the left one, as
    [depth_first_recursive] numbers them, the automaton [union_to_nfa]
    builds accepts a string without the letter [e] exactly when one of
    the two automata accepts it. *)
Theorem union_to_nfa_language (last : Z) (l r : tree.SimpleNFA) (str : pystr) :
  states_within last l → states_within (tree.last_state l) r → ch_e ∉ str →
  (nfa_accepts (regex._finalize_simple_nfa alphabet (tree.union_to_nfa l r)) str ↔
   nfa_accepts (regex._finalize_simple_nfa alphabet l) str ∨
   nfa_accepts (regex._finalize_simple_nfa alphabet r) str).
Proof.
  intros Hl Hr Hstr. rewrite !simple_accepts_steps.
  pose proof Hl as (Hls & Hla & _). pose proof Hr as (Hrs & Hra & _).
  assert (tree.transition_function (tree.union_to_nfa l r)
            !! (tree.last_state r + 1)
          = Some {[ s_e := {[ tree.start_state l ]} ∪ {[ tree.start_state r ]} ]})
    as Hrow by (cbn; apply lookup_insert_eq).
  cbn [tree.union_to_nfa tree.start_state tree.accept_states].
  split.
  - intros (q & Hsteps & Hq).
    apply (steps_from_eps_row _ _ _ _ _ Hrow Hstr) in Hsteps
      as [[_ ->]|(y & Hy & Hsteps)].
    + apply elem_of_app in Hq as [Hq|Hq]; [apply Hla in Hq|apply Hra in Hq]; lia.
    + apply elem_of_union in Hy as [Hy|Hy]; apply elem_of_singleton in Hy; subst y.
      * left. exists q.
        destruct (union_steps_left last l r Hl Hr (tree.start_state l) str q Hls)
          as [Hiff Hin].
        apply Hiff in Hsteps. split; [exact Hsteps|].
        apply Hin in Hsteps as [? ?].
        apply elem_of_app in Hq as [Hq|Hq]; [exact Hq|apply Hra in Hq; lia].
      * right. exists q.
        destruct (union_steps_right last l r Hl Hr (tree.start_state r) str q Hrs)
          as [Hiff Hin].
        apply Hiff in Hsteps. split; [exact Hsteps|].
        apply Hin in Hsteps as [? ?].
        apply elem_of_app in Hq as [Hq|Hq]; [apply Hla in Hq; lia|exact Hq].
  - intros [(q & Hsteps & Hq)|(q & Hsteps & Hq)]; exists q.
    + split; [|apply elem_of_app; by left].
      apply (steps_from_eps_row _ _ _ _ _ Hrow Hstr). right.
      exists (tree.start_state l). split; [set_solver|].
      by apply (union_steps_left last l r Hl Hr (tree.start_state l) str q Hls).
    + split; [|apply elem_of_app; by right].
      apply (steps_from_eps_row _ _ _ _ _ Hrow Hstr). right.
      exists (tree.start_state r). split; [set_solver|].
      by apply (union_steps_right last l r Hl Hr (tree.start_state r) str q Hrs).
Qed.

(** ** Kleene star *)

Section Star.
Variables (last : Z) (X : tree.SimpleNFA).
Hypothesis HX : states_within last X.
Hypothesis Hno_row :
  ∀ a, a ∈ tree.accept_states X → tree.transition_function X !! a = None.

Lemma star_row (p : Z) :
  tree.transition_function (tree.kleene_star_to_nfa X) !! p
  = if bool_decide (p ∈ tree.accept_states X ∨ p = tree.last_state X + 1)
    then Some {[ s_e := {[ tree.start_state X ]} ]}
    else tree.transition_function X !! p.
Proof.
  cbn [tree.kleene_star_to_nfa tree.transition_function].
  rewrite foldl_insert_const_lookup.
  case_bool_decide as Hacc.
  - rewrite bool_decide_eq_true_2 by (by left). reflexivity.
  - destruct (decide (p = tree.last_state X + 1)) as [->|Hne].
    + rewrite bool_decide_eq_true_2 by (by right). apply lookup_insert_eq.
    + rewrite bool_decide_eq_false_2 by tauto. by apply lookup_insert_ne.
Qed.

Lemma star_agrees (p : Z) (symbol : pystr) :
  in_range last X p → p ∉ tree.accept_states X →
  nfa._get_transition (regex._finalize_simple_nfa alphabet (tree.kleene_star_to_nfa X))
                      p symbol
  = nfa._get_transition (regex._finalize_simple_nfa alphabet X) p symbol.
Proof.
  intros [? ?] Hacc. rewrite !get_transition_simple, star_row.
  rewrite bool_decide_eq_false_2; [reflexivity|]. intros [?|?]; [done|lia].
Qed.

Lemma star_accept_row (a : Z) :
  a ∈ tree.accept_states X →
  tree.transition_function (tree.kleene_star_to_nfa X) !! a
  = Some {[ s_e := {[ tree.start_state X ]} ]}.
Proof. intros Ha. rewrite star_row. by rewrite bool_decide_eq_true_2 by (by left). Qed.

Lemma has_row_not_accept (p : Z) (symbol : pystr) (q : Z) :
  q ∈ nfa._get_transition (regex._finalize_simple_nfa alphabet X) p symbol →
  in_range last X p ∧ in_range last X q ∧ p ∉ tree.accept_states X.
Proof.
  intros Hq. destruct (get_transition_within _ _ _ _ _ HX Hq) as (Hp & Hq' & [row Hrow]).
  split; [exact Hp|]. split; [exact Hq'|].
  intros Ha. apply Hno_row in Ha. congruence.
Qed.

(** A path of the operand to one of its accept states is a path of the
    star automaton, which can go on from the start state of the
    operand. *)
Lemma star_steps_compose (p : Z) (s1 : pystr) (a : Z) :
  nfa_steps (regex._finalize_simple_nfa alphabet X) p s1 a →
  a ∈ tree.accept_states X →
  (nfa_steps (regex._finalize_simple_nfa alphabet (tree.kleene_star_to_nfa X)) p s1 a) ∧
  ∀ s2 q,
    nfa_steps (regex._finalize_simple_nfa alphabet (tree.kleene_star_to_nfa X))
              (tree.start_state X) s2 q →
    nfa_steps (regex._finalize_simple_nfa alphabet (tree.kleene_star_to_nfa X))
              p (s1 ++ s2) q.
Proof.
  induction 1 as [p|p p' str q Hstep _ IH|p p' ch str q Hp' _ IH]; intros Ha.
  - split; [apply steps_done|]. intros s2 q Hrest. cbn [app].
    eapply steps_eps; [|exact Hrest]. unfold eps_step.
    rewrite get_transition_simple, (star_accept_row _ Ha), lookup_singleton_eq.
    by apply elem_of_singleton.
  - destruct (has_row_not_accept _ _ _ Hstep) as (Hp & _ & Hnacc).
    destruct (IH Ha) as [IH1 IH2].
    assert (eps_step (regex._finalize_simple_nfa alphabet (tree.kleene_star_to_nfa X)) p p')
      as Hstep'
      by (unfold eps_step; rewrite star_agrees by assumption; exact Hstep).
    split; [by eapply steps_eps|]. intros s2 q0 Hrest.
    eapply steps_eps; [exact Hstep'|by apply IH2].
  - destruct (has_row_not_accept _ _ _ Hp') as (Hp & _ & Hnacc).
    destruct (IH Ha) as [IH1 IH2].
    assert (p' ∈ nfa._get_transition
                   (regex._finalize_simple_nfa alphabet (tree.kleene_star_to_nfa X)) p [ch])
      as Hp''
      by (rewrite star_agrees by assumption; exact Hp').
    split; [by eapply steps_read|]. intros s2 q0 Hrest. cbn [app].
    eapply steps_read; [exact Hp''|by apply IH2].
Qed.

(** A path of the star automaton from a state of the operand to an
    accept state is a path of the operand to one of its accept states,
    followed by strings the operand accepts. *)
Lemma star_steps_decompose (p : Z) (str : pystr) (q : Z) :
  nfa_steps (regex._finalize_simple_nfa alphabet (tree.kleene_star_to_nfa X)) p str q →
  in_range last X p → ch_e ∉ str →
  q ∈ tree.accept_states (tree.kleene_star_to_nfa X) →
  ∃ s1 s2 a, str = s1 ++ s2 ∧
             nfa_steps (regex._finalize_simple_nfa alphabet X) p s1 a ∧
             a ∈ tree.accept_states X ∧
             lang_star (nfa_accepts (regex._finalize_simple_nfa alphabet X)) s2.
Proof.
  pose proof HX as (Hstart & _ & _).
  induction 1 as [p|p p' str q Hstep _ IH|p p' ch str q Hp' _ IH];
    intros Hp Hstr Hq.
  - exists [], [], p. split; [reflexivity|]. split; [apply steps_done|].
    split; [|apply star_nil].
    cbn [tree.kleene_star_to_nfa tree.accept_states] in Hq.
    apply elem_of_app in Hq as [Hq|Hq]; [exact Hq|].
    apply list_elem_of_singleton in Hq. destruct Hp. lia.
  - destruct (decide (p ∈ tree.accept_states X)) as [Ha|Hna].
    + unfold eps_step in Hstep.
      rewrite get_transition_simple, (star_accept_row _ Ha), lookup_singleton_eq in Hstep.
      cbn [default from_option id] in Hstep.
      apply elem_of_singleton in Hstep. subst p'.
      destruct (IH Hstart Hstr Hq) as (s1 & s2 & a & -> & Hs1 & Hacc & Hs2).
      exists [], (s1 ++ s2), p. split; [reflexivity|]. split; [apply steps_done|].
      split; [exact Ha|]. apply star_app; [|exact Hs2].
      apply simple_accepts_steps. by exists a.
    + unfold eps_step in Hstep. rewrite star_agrees in Hstep by assumption.
      destruct (IH (in_range_closed _ _ _ _ _ HX Hstep) Hstr Hq)
        as (s1 & s2 & a & -> & Hs1 & Hacc & Hs2).
      exists s1, s2, a. split; [reflexivity|]. split; [by eapply steps_eps|]. done.
  - assert (ch ≠ ch_e) as Hch by (intros ->; apply Hstr, list_elem_of_here).
    assert (ch_e ∉ str) as Hstr' by (intros ?; by apply Hstr, list_elem_of_further).
    destruct (decide (p ∈ tree.accept_states X)) as [Ha|Hna].
    + rewrite get_transition_simple, (star_accept_row _ Ha) in Hp'.
      rewrite lookup_singleton_ne in Hp'; [by apply elem_of_empty in Hp'|].
      intros [= Heq]. by apply Hch.
    + rewrite star_agrees in Hp' by assumption.
      destruct (IH (in_range_closed _ _ _ _ _ HX Hp') Hstr' Hq)
        as (s1 & s2 & a & -> & Hs1 & Hacc & Hs2).
      exists (ch :: s1), s2, a. split; [reflexivity|].
      split; [by eapply steps_read|]. done.
Qed.
End Star.

(** X30.  The language of a star.  When no accept state of the operand
    has a row in its table, the automaton [kleene_star_to_nfa] builds
    accepts a string without the letter [e] exactly when the string is
    made of strings the operand accepts, one after the other. *)
Theorem kleene_star_to_nfa_language (last : Z) (X : tree.SimpleNFA) (str : pystr) :
  states_within last X →
  (∀ a, a ∈ tree.accept_states X → tree.transition_function X !! a = None) →
  ch_e ∉ str →
  (nfa_accepts (regex._finalize_simple_nfa alphabet (tree.kleene_star_to_nfa X)) str ↔
   lang_star (nfa_accepts (regex._finalize_simple_nfa alphabet X)) str).
Proof.
  intros HX Hno_row Hstr. pose proof HX as (Hstart & _ & _).
  assert (tree.transition_function (tree.kleene_star_to_nfa X)
            !! (tree.last_state X + 1)
          = Some {[ s_e := {[ tree.start_state X ]} ]}) as Hrow.
  { rewrite star_row. by rewrite bool_decide_eq_true_2 by (by right). }
  assert (∀ s q, ch_e ∉ s →
            (nfa_steps (regex._finalize_simple_nfa alphabet (tree.kleene_star_to_nfa X))
                       (tree.last_state X + 1) s q ↔
             (s = [] ∧ q = tree.last_state X + 1) ∨
             nfa_steps (regex._finalize_simple_nfa alphabet (tree.kleene_star_to_nfa X))
                       (tree.start_state X) s q))
    as Hnew.
  { intros s q Hs. rewrite (steps_from_eps_row _ _ _ _ _ Hrow Hs).
    split; (intros [?|Hy]; [by left|right]).
    - destruct Hy as (y & Hy & ?). apply elem_of_singleton in Hy. by subst y.
    - exists (tree.start_state X). split; [by apply elem_of_singleton|done]. }
  split.
  - intros (q & Hsteps & Hq)%simple_accepts_steps.
    cbn [tree.kleene_star_to_nfa tree.start_state] in Hsteps.
    apply (Hnew _ _ Hstr) in Hsteps as [[-> _]|Hsteps]; [apply star_nil|].
    destruct (star_steps_decompose last X HX _ _ _ Hsteps Hstart Hstr Hq)
      as (s1 & s2 & a & -> & Hs1 & Hacc & Hs2).
    apply star_app; [|exact Hs2]. apply simple_accepts_steps. by exists a.
  - intros Hstar. apply simple_accepts_steps.
    cbn [tree.kleene_star_to_nfa tree.start_state tree.accept_states].
    induction Hstar as [|s1 s2 Hs1 _ IH].
    + exists (tree.last_state X + 1). split; [apply steps_done|].
      apply elem_of_app. right. apply list_elem_of_here.
    + assert (ch_e ∉ s2) as Hs2 by (intros ?; apply Hstr, elem_of_app; by right).
      apply simple_accepts_steps in Hs1 as (a & Hs1 & Ha).
      destruct (star_steps_compose last X HX Hno_row _ _ _ Hs1 Ha) as [Hend Hgo].
      destruct (IH Hs2) as (q & Hsteps & Hq).
      apply (Hnew _ _ Hs2) in Hsteps as [[-> _]|Hsteps].
      * exists a. rewrite app_nil_r in Hstr |- *. split; [|apply elem_of_app; by left].
        apply (Hnew _ _ Hstr). by right.
      * exists q. split; [|exact Hq]. apply (Hnew _ _ Hstr). right. by apply Hgo.
Qed.
End Thompson.

Lemma base_automata_language_witness :
  nfa_accepts
    (regex._finalize_simple_nfa [py "a"]
       (tree.base_node_to_nfa (tree.mkNode (py "a") [] 0 true) 0))
    (py "a").
Proof.
  destruct (base_automata_language [py "a"] (tree.mkNode (py "a") [] 0 true) 0 (py "a"))
    as [Hbase _].
  apply Hbase; [discriminate|]. split; reflexivity.
Defined.

Lemma union_to_nfa_language_witness :
  nfa_accepts
    (regex._finalize_simple_nfa [py "a"; py "b"]
       (tree.union_to_nfa (tree.base_node_to_nfa (tree.mkNode (py "a") [] 0 true) 0)
                          (tree.base_node_to_nfa (tree.mkNode (py "b") [] 0 true) 2)))
    (py "b") ↔
  nfa_accepts
    (regex._finalize_simple_nfa [py "a"; py "b"]
       (tree.base_node_to_nfa (tree.mkNode (py "a") [] 0 true) 0)) (py "b") ∨
  nfa_accepts
    (regex._finalize_simple_nfa [py "a"; py "b"]
       (tree.base_node_to_nfa (tree.mkNode (py "b") [] 0 true) 2)) (py "b").
Proof.
  apply (union_to_nfa_language [py "a"; py "b"] 0
           (tree.base_node_to_nfa (tree.mkNode (py "a") [] 0 true) 0)
           (tree.base_node_to_nfa (tree.mkNode (py "b") [] 0 true) 2) (py "b")).
  - apply base_node_within.
  - apply (base_node_within (tree.mkNode (py "b") [] 0 true) 2).
  - intros Hin. apply list_elem_of_singleton in Hin. discriminate Hin.
Defined.

Lemma kleene_star_to_nfa_language_witness :
  nfa_accepts
    (regex._finalize_simple_nfa [py "a"]
       (tree.kleene_star_to_nfa
          (tree.base_node_to_nfa (tree.mkNode (py "a") [] 0 true) 0)))
    (py "aa") ↔
  lang_star
    (nfa_accepts
       (regex._finalize_simple_nfa [py "a"]
          (tree.base_node_to_nfa (tree.mkNode (py "a") [] 0 true) 0)))
    (py "aa").
Proof.
  apply (kleene_star_to_nfa_language [py "a"] 0
           (tree.base_node_to_nfa (tree.mkNode (py "a") [] 0 true) 0) (py "aa")).
  - apply base_node_within.
  - intros a Ha. apply list_elem_of_singleton in Ha. subst a.
    vm_compute. reflexivity.
  - intros Hin. apply elem_of_cons in Hin as [Hin|Hin]; [discriminate Hin|].
    apply list_elem_of_singleton in Hin. discriminate Hin.
Defined.
